(** * MockupCore: a shallow embedding of [Mockupcoreapp.py]

    The development embeds the parts of the batch exporter that carry its
    engineering content:

    - [get_unique_filepath]      (output path disambiguation),
    - [extract_psd_thumbnail]    (preview extraction from a PSD container),
    - [Worker.run]               (the batch pipeline),
    - [MockupLibrary]            (cloud sources, download cache, cache reset).

    Python [str] values are lists of characters, [bytes] values are lists
    of [Byte.byte], Python integers are [Z] (or [nat] for counters and
    lengths), and Python floats are IEEE-754 binary64 values given by
    [SpecFloat].  Code that raises, loops or talks to the outside world
    lives in a state-and-exception monad; the outside world (Photoshop,
    the network, the file system calls that mutate) is a class of oracles,
    so that every statement holds for all behaviours of these
    collaborators. *)

From Stdlib Require Import ZArith List Ascii String Lia.
From Stdlib Require Import Strings.Byte DecimalString DecimalNat.
From Stdlib Require Import Floats.SpecFloat.
From stdpp Require Import base gmap sets list strings sorting.
Import ListNotations.

Local Open Scope Z_scope.

(** ** Python values *)

(** A Python [str]: a sequence of characters. *)
Definition str : Type := list ascii.

(** String literals. *)
Definition lit (s : string) : str := list_ascii_of_string s.

(** A Python [bytes] literal. *)
Definition blit (s : string) : list byte := list_byte_of_string s.

#[global] Instance byte_eq_decision : EqDecision byte := Byte.byte_eq_dec.

(** [str(n)] for a non-negative integer: its decimal spelling. *)
Definition str_of_nat (n : nat) : str :=
  list_ascii_of_string (NilEmpty.string_of_uint (Nat.to_uint n)).

(** [c * n] for a one-character string [c]. *)
Definition str_repeat (c : ascii) (n : nat) : str := replicate n c.

(** [s.startswith(p)] and [s.endswith(p)]. *)
Fixpoint startswith (p s : str) : bool :=
  match p, s with
  | [], _ => true
  | _ :: _, [] => false
  | a :: p', b :: s' => bool_decide (a = b) && startswith p' s'
  end.

Definition endswith (p s : str) : bool := startswith (rev p) (rev s).

(** [needle in s]: substring test. *)
Fixpoint contains (needle s : str) : bool :=
  startswith needle s ||
  match s with
  | [] => false
  | _ :: s' => contains needle s'
  end.

(** [s.find(needle)]: the characters before and after the first occurrence
    of [needle], or [None] when there is none. *)
Fixpoint partition (needle s : str) : option (str * str) :=
  if startswith needle s then Some ([], drop (length needle) s)
  else match s with
       | [] => None
       | c :: s' =>
           match partition needle s' with
           | Some (before, after) => Some (c :: before, after)
           | None => None
           end
       end.

(** [s.split(needle)] for a non-empty [needle].  The fuel bounds the number
    of pieces; [length s] pieces beyond the first are never exceeded. *)
Fixpoint split_fuel (fuel : nat) (needle s : str) : list str :=
  match fuel with
  | O => [s]
  | S fuel' =>
      match partition needle s with
      | Some (before, after) => before :: split_fuel fuel' needle after
      | None => [s]
      end
  end.

Definition split (needle s : str) : list str :=
  split_fuel (length s) needle s.

(** [l[-1]] and [l[0]] and [l[1]] on the result of a [split], which is never
    empty; the default is never used there. *)
Definition last_piece (l : list str) : str := List.last l [].
Definition first_piece (l : list str) : str := List.hd [] l.

(** A string is true when it is not empty. *)
Definition nonempty (s : str) : bool :=
  match s with [] => false | _ :: _ => true end.

(** *** Characters

    A [str] holds the UTF-8 spelling of the Python string, so a character
    outside ASCII takes several list elements: a first byte and the
    continuation bytes [10xxxxxx] behind it.  Searching for ASCII characters,
    comparing and concatenating work on the spelling as they work on the
    characters; what counts or cuts by characters ([len], [s[:n]], [s[n:]])
    goes through [py_len], [py_take] and [py_drop]. *)
Definition is_ascii (c : ascii) : bool := (nat_of_ascii c <? 128)%nat.

Definition continuation (c : ascii) : bool :=
  (128 <=? nat_of_ascii c)%nat && (nat_of_ascii c <? 192)%nat.

Fixpoint skip_continuation (s : str) : str :=
  match s with
  | c :: t => if continuation c then skip_continuation t else s
  | [] => []
  end.

(** What is left of [c :: t] behind its first character. *)
Definition rest_of_char (c : ascii) (t : str) : str :=
  if is_ascii c then t else skip_continuation t.

(** [s[n:]]. *)
Fixpoint py_drop (n : nat) (s : str) : str :=
  match n with
  | O => s
  | S n' =>
      match s with
      | [] => []
      | c :: t => py_drop n' (rest_of_char c t)
      end
  end.

(** [s[:n]]. *)
Definition py_take (n : nat) (s : str) : str :=
  take (length s - length (py_drop n s)) s.

(** [len(s)]: the number of bytes at which a character begins, which are
    the first byte, the bytes behind an ASCII character and the bytes that
    are not continuation bytes. *)
Fixpoint char_starts (fresh : bool) (s : str) : nat :=
  match s with
  | [] => 0
  | c :: t =>
      (if fresh || negb (continuation c) then 1 else 0)%nat
      + char_starts (is_ascii c) t
  end.

Definition py_len (s : str) : nat := char_starts true s.

(** [s.replace(old, new)] for single characters. *)
Definition replace_char (old new : ascii) (s : str) : str :=
  map (fun c => if bool_decide (c = old) then new else c) s.

(** *** [str.strip]

    The characters that [str.isspace] accepts, and that [s.strip()] removes,
    are U+0009 to U+000D, U+001C to U+0020, U+0085, U+00A0, U+1680, U+2000 to
    U+200A, U+2028, U+2029, U+202F, U+205F and U+3000. *)
Definition isspace (c : ascii) : bool :=
  let n := nat_of_ascii c in
  ((9 <=? n)%nat && (n <=? 13)%nat) || ((28 <=? n)%nat && (n <=? 32)%nat).

(** The spelling of a white-space character in two or three bytes. *)
Definition space2 (a b : ascii) : bool :=
  (nat_of_ascii a =? 194)%nat
  && ((nat_of_ascii b =? 133)%nat || (nat_of_ascii b =? 160)%nat).

Definition space3 (a b c : ascii) : bool :=
  let '(a, b, c) := (nat_of_ascii a, nat_of_ascii b, nat_of_ascii c) in
  ((a =? 225) && (b =? 154) && (c =? 128))%nat
  || ((a =? 226) && (b =? 128)
      && (((128 <=? c) && (c <=? 138)) || (c =? 168) || (c =? 169) || (c =? 175)))%nat
  || ((a =? 226) && (b =? 129) && (c =? 159))%nat
  || ((a =? 227) && (b =? 128) && (c =? 128))%nat.

(** The number of bytes of the white-space character [s] begins with, and of
    the one it ends with; 0 when there is none. *)
Definition leading_space (s : str) : nat :=
  match s with
  | a :: t =>
      if isspace a then 1
      else match t with
           | b :: t' =>
               if space2 a b then 2
               else match t' with
                    | c :: _ => if space3 a b c then 3 else 0
                    | [] => 0
                    end
           | [] => 0
           end
  | [] => 0
  end.

Definition trailing_space (s : str) : nat :=
  match rev s with
  | c :: t =>
      if isspace c then 1
      else match t with
           | b :: t' =>
               if space2 b c then 2
               else match t' with
                    | a :: _ => if space3 a b c then 3 else 0
                    | [] => 0
                    end
           | [] => 0
           end
  | [] => 0
  end.

(** [s.lstrip()] and [s.rstrip()]: white-space characters are taken off
    while there is one; [length s] rounds are never exceeded. *)
Fixpoint lstrip_fuel (fuel : nat) (s : str) : str :=
  match fuel with
  | O => s
  | S fuel' =>
      match leading_space s with
      | O => s
      | n => lstrip_fuel fuel' (drop n s)
      end
  end.

Definition lstrip (s : str) : str := lstrip_fuel (length s) s.

Fixpoint rstrip_fuel (fuel : nat) (s : str) : str :=
  match fuel with
  | O => s
  | S fuel' =>
      match trailing_space s with
      | O => s
      | n => rstrip_fuel fuel' (take (length s - n) s)
      end
  end.

Definition rstrip (s : str) : str := rstrip_fuel (length s) s.

(** [s.strip()]. *)
Definition strip (s : str) : str := rstrip (lstrip s).

(** [s.lower()] and [s.upper()] on the ASCII range.  The program lowers a
    name to test it for the ending [.psd], and [ntpath] raises the first
    characters of a path to compare them with an ASCII prefix: no character
    outside ASCII is lowered to one of [.psd] or raised to one of [UNC], so
    these tests come out as they do in Python. *)
Definition lower_char (c : ascii) : ascii :=
  let n := nat_of_ascii c in
  if (65 <=? n)%nat && (n <=? 90)%nat then ascii_of_nat (n + 32) else c.

Definition lower (s : str) : str := map lower_char s.

Definition upper_char (c : ascii) : ascii :=
  let n := nat_of_ascii c in
  if (97 <=? n)%nat && (n <=? 122)%nat then ascii_of_nat (n - 32) else c.

Definition upper (s : str) : str := map upper_char s.

(** ** Exceptions, outcomes and the state monad *)

(** A raised exception: its class name and [str(e)]. *)
Record exn : Type := Exception { exn_class : str; exn_msg : str }.

(** [isinstance(e, urllib.error.URLError)]: the class itself and the two
    classes that [urllib.error] derives from it. *)
Definition is_URLError (e : exn) : bool :=
  bool_decide (exn_class e ∈ [lit "URLError"; lit "HTTPError";
                              lit "ContentTooShortError"]).

(** What running a piece of Python code can come to: it returns, it raises,
    or it never finishes. *)
Inductive Outcome (A : Type) : Type :=
  | Returned (a : A)
  | Raised (e : exn)
  | Diverged.
Arguments Returned {A} a.
Arguments Raised {A} e.
Arguments Diverged {A}.

(** Computations over a mutable state [S]. *)
Definition M (S A : Type) : Type := S -> Outcome A * S.

Definition ret {S A} (a : A) : M S A := fun s => (Returned a, s).

Definition bind {S A B} (m : M S A) (k : A -> M S B) : M S B :=
  fun s =>
    match m s with
    | (Returned a, s') => k a s'
    | (Raised e, s') => (Raised e, s')
    | (Diverged, s') => (Diverged, s')
    end.

Definition raise {S A} (e : exn) : M S A := fun s => (Raised e, s).

Definition diverge {S A} : M S A := fun s => (Diverged, s).

(** [try: m  except Exception as e: h e]. *)
Definition try_except {S A} (m : M S A) (h : exn -> M S A) : M S A :=
  fun s =>
    match m s with
    | (Raised e, s') => h e s'
    | r => r
    end.

Definition get {S} : M S S := fun s => (Returned s, s).
Definition modify {S} (f : S -> S) : M S unit := fun s => (Returned tt, f s).

(** An [if] without [else] around a statement. *)
Definition when {S} (b : bool) (m : M S unit) : M S unit :=
  if b then m else ret tt.

Declare Scope py_scope.
Delimit Scope py_scope with py.
Notation "x <~ m ;; k" := (bind m (fun x => k))
  (at level 100, m at next level, right associativity) : py_scope.
Notation "m ;;; k" := (bind m (fun _ => k))
  (at level 100, right associativity) : py_scope.
Local Open Scope py_scope.

(** ** [os.path]

    The program imports [win32com.client] and so runs on Windows only, where
    [os.path] is the module [ntpath].  The path functions are those of
    CPython 3.11, written with [find], [rfind] and slices as that module
    writes them. *)
Module ntpath.

Definition sep : ascii := ascii_of_nat 92.
Definition altsep : ascii := "/"%char.
Definition colon : ascii := ":"%char.
Definition extsep : ascii := "."%char.

(** [c in seps], for [seps = '\\/']. *)
Definition is_sep (c : ascii) : bool :=
  bool_decide (c = sep) || bool_decide (c = altsep).

(** [s[0] in seps] and [s[-1] in seps] for a string that may be empty. *)
Definition starts_with_sep (s : str) : bool :=
  match s with c :: _ => is_sep c | [] => false end.

Definition ends_with_sep (s : str) : bool := starts_with_sep (rev s).

(** The prefix [\\?\UNC\]. *)
Definition unc_prefix : str :=
  [sep; sep; "?"%char; sep; "U"%char; "N"%char; "C"%char; sep].

(** [s.rfind(c)] for a single character: the last index of [c], or -1. *)
Fixpoint rfind (c : ascii) (s : str) : Z :=
  match s with
  | [] => -1
  | x :: t =>
      let r := rfind c t in
      if 0 <=? r then r + 1
      else if bool_decide (x = c) then 0 else -1
  end.

(** [s[:i]], [s[i:]] and [s[i:j]] for non-negative indices. *)
Definition upto (i : Z) (s : str) : str := take (Z.to_nat i) s.
Definition from (i : Z) (s : str) : str := drop (Z.to_nat i) s.
Definition between (i j : Z) (s : str) : str := from i (upto j s).

(** [s.find(c, start)] for a single character: the first index of [c]
    from [start] on, or -1. *)
Fixpoint index_of (c : ascii) (s : str) : option nat :=
  match s with
  | [] => None
  | x :: t => if bool_decide (x = c) then Some O else S <$> index_of c t
  end.

Definition find (c : ascii) (start : Z) (s : str) : Z :=
  match index_of c (from start s) with
  | Some i => start + Z.of_nat i
  | None => -1
  end.

(** [ntpath.splitdrive]. *)
Definition splitdrive (p : str) : str * str :=
  if (2 <=? py_len p)%nat then
    let normp := replace_char altsep sep p in
    if bool_decide (take 2 normp = [sep; sep]) then
      (* UNC drives, e.g. \\server\share or \\?\UNC\server\share;
         device drives, e.g. \\.\device or \\?\device *)
      let start := if bool_decide (upper (take 8 normp) = unc_prefix) then 8 else 2 in
      let index := find sep start normp in
      if index =? -1 then (p, [])
      else
        let index2 := find sep (index + 1) normp in
        if index2 =? -1 then (p, [])
        else (upto index2 p, from index2 p)
    else if bool_decide (py_take 1 (py_drop 1 normp) = [colon]) then
      (* drive-letter drives, e.g. X: *)
      (py_take 2 p, py_drop 2 p)
    else ([], p)
  else ([], p).

(** The [while] of [split]: the index beyond the last separator. *)
Fixpoint beyond_last_sep (s : str) : nat :=
  match s with
  | [] => 0
  | x :: t =>
      match beyond_last_sep t with
      | O => if is_sep x then 1 else 0
      | S i => S (S i)
      end
  end.

(** [s.rstrip(seps)]. *)
Fixpoint rstrip_seps (s : str) : str :=
  match s with
  | [] => []
  | x :: t =>
      match rstrip_seps t with
      | [] => if is_sep x then [] else [x]
      | r => x :: r
      end
  end.

(** [head.rstrip(seps) or head]. *)
Definition strip_head (head : str) : str :=
  match rstrip_seps head with [] => head | h => h end.

(** [ntpath.split]. *)
Definition split (p : str) : str * str :=
  let '(d, p) := splitdrive p in
  (* set i to index beyond p's last slash *)
  let i := beyond_last_sep p in
  let '(head, tail) := (take i p, drop i p) in
  (* remove trailing slashes from head, unless it's all slashes *)
  let head := strip_head head in
  (d ++ head, tail).

(** [ntpath.basename] and [ntpath.dirname]. *)
Definition basename (p : str) : str := snd (split p).
Definition dirname (p : str) : str := fst (split p).

(** [ntpath.splitext], that is [genericpath._splitext(p, '\\', '/', '.')].
    Its inner [while] scans the characters from the start of the file name
    up to the last dot for one that is not a dot. *)
Definition splitext (p : str) : str * str :=
  let sepIndex := Z.max (rfind sep p) (rfind altsep p) in
  let dotIndex := rfind extsep p in
  if (sepIndex <? dotIndex)
     && existsb (fun x => negb (bool_decide (x = extsep)))
                (between (sepIndex + 1) dotIndex p)
  then (upto dotIndex p, from dotIndex p)
  else (p, []).

(** [if result_path and result_path[-1] not in seps:
      result_path = result_path + sep]. *)
Definition with_sep (result_path : str) : str :=
  if nonempty result_path && negb (ends_with_sep result_path)
  then result_path ++ [sep] else result_path.

(** [ntpath.join(path, p)] with one trailing component. *)
Definition join (path p : str) : str :=
  let '(result_drive, result_path) := splitdrive path in
  let '(p_drive, p_path) := splitdrive p in
  let finish (result_drive result_path : str) : str :=
    (* add separator between UNC and non-absolute path *)
    if nonempty result_path && negb (starts_with_sep result_path)
       && nonempty result_drive && negb (endswith [colon] result_drive)
    then result_drive ++ [sep] ++ result_path
    else result_drive ++ result_path in
  let relative (result_drive : str) : str :=
    (* second path is relative to the first *)
    let result_path := with_sep result_path in
    finish result_drive (result_path ++ p_path) in
  if nonempty p_path && starts_with_sep p_path then
    (* second path is absolute *)
    finish (if nonempty p_drive || negb (nonempty result_drive)
            then p_drive else result_drive) p_path
  else if nonempty p_drive && negb (bool_decide (p_drive = result_drive)) then
    if negb (bool_decide (lower p_drive = lower result_drive))
    then (* different drives: ignore the first path entirely *)
      finish p_drive p_path
    else (* same drive in different case *)
      relative p_drive
  else relative result_drive.

End ntpath.

(** [os.path.exists(p)] against the set of path spellings that exist. *)
Definition path_exists (files : gset str) (p : str) : bool :=
  bool_decide (p ∈ files).

(** ** [get_unique_filepath] *)

(** The stem and the extension of the file name of a path:
    [os.path.splitext(os.path.basename(filepath))]. *)
Definition stem_of (filepath : str) : str :=
  fst (ntpath.splitext (ntpath.basename filepath)).
Definition extension_of (filepath : str) : str :=
  snd (ntpath.splitext (ntpath.basename filepath)).

(** The name tried for a given counter:
    [os.path.join(directory, f"{name}_{counter}{ext}")]. *)
Definition candidate (directory name ext : str) (counter : nat) : str :=
  let new_filename := name ++ lit "_" ++ str_of_nat counter ++ ext in
  ntpath.join directory new_filename.

(** The [while True] loop, started at [counter]; [None] when the fuel runs
    out before a free name is met. *)
Fixpoint unique_loop (files : gset str) (directory name ext : str)
    (fuel counter : nat) : option str :=
  match fuel with
  | O => None
  | S fuel' =>
      let new_filepath := candidate directory name ext counter in
      if negb (path_exists files new_filepath) then Some new_filepath
      else unique_loop files directory name ext fuel' (S counter)
  end.

(** [get_unique_filepath(filepath)].  The loop is given one more round than
    there are existing paths, which always suffices
    ([get_unique_filepath_total]). *)
Definition get_unique_filepath (files : gset str) (filepath : str) : option str :=
  if negb (path_exists files filepath) then Some filepath
  else
    let directory := ntpath.dirname filepath in
    let filename := ntpath.basename filepath in
    let '(name, ext) := ntpath.splitext filename in
    unique_loop files directory name ext (S (size files)) 1.

(** ** [extract_psd_thumbnail] *)

(** The file object [f]: the bytes of the file and the read position. *)
Record File : Type := { content : list byte; position : nat }.

(** [f.read(n)] on a buffered binary file: up to [n] bytes, fewer at the end
    of the file; everything that is left for [n = -1]; [ValueError] for a
    length below -1. *)
Definition read (n : Z) : M File (list byte) :=
  fun f =>
    if n <? -1 then
      (Raised (Exception (lit "ValueError")
                 (lit "read length must be non-negative or -1")), f)
    else
      let rest := drop (position f) (content f) in
      let got := if n =? -1 then rest else take (Z.to_nat n) rest in
      (Returned got,
       {| content := content f; position := (position f + length got)%nat |}).

(** [f.tell()]. *)
Definition tell : M File Z := fun f => (Returned (Z.of_nat (position f)), f).

Definition byte_val (b : byte) : Z := Z.of_N (Byte.to_N b).

Definition struct_error {A} : M File A :=
  raise (Exception (lit "struct.error") (lit "unpack requires a buffer of the right size")).

(** [struct.unpack('>H', b)[0]], [struct.unpack('>I', b)[0]] and
    [struct.unpack('B', b)[0]]: big-endian unsigned, exact length required. *)
Definition unpack_H (b : list byte) : M File Z :=
  match b with
  | [b1; b0] => ret (Z.lor (Z.shiftl (byte_val b1) 8) (byte_val b0))
  | _ => struct_error
  end.

Definition unpack_I (b : list byte) : M File Z :=
  match b with
  | [b3; b2; b1; b0] =>
      ret (Z.lor (Z.shiftl (byte_val b3) 24)
             (Z.lor (Z.shiftl (byte_val b2) 16)
                (Z.lor (Z.shiftl (byte_val b1) 8) (byte_val b0))))
  | _ => struct_error
  end.

Definition unpack_B (b : list byte) : M File Z :=
  match b with
  | [b0] => ret (byte_val b0)
  | _ => struct_error
  end.

(** The pixmap built from an image: modelled by the encoded bytes it was
    loaded from. *)
Definition QPixmap : Type := list byte.

(** How one round of the resource loop ends. *)
Inductive Step : Type :=
  | Break                    (* [break] *)
  | Return (px : QPixmap)    (* [return QPixmap.fromImage(image)] *)
  | Continue.                (* the round ran to its end *)

Section Extractor.

(** [QImage.loadFromData]: whether Qt decodes the bytes. *)
Variable loadFromData : list byte -> bool.

(** The body of the [while] loop: one resource block. *)
Definition resource_block : M File Step :=
  resource_signature <~ read 4 ;;
  if negb (bool_decide (resource_signature = blit "8BIM")) then ret Break
  else
    resource_id <~ bind (read 2) unpack_H ;;
    (* Pascal string (resource name) *)
    name_length <~ bind (read 1) unpack_B ;;
    when (0 <? name_length) (bind (read name_length) (fun _ => ret tt)) ;;;
    (* padding to make even *)
    when (negb ((name_length + 1) mod 2 =? 0)) (bind (read 1) (fun _ => ret tt)) ;;;
    (* resource data size *)
    data_size <~ bind (read 4) unpack_I ;;
    found <~ (if (resource_id =? 1033) || (resource_id =? 1036) then
                if resource_id =? 1036 then
                  read 28 ;;;
                  jpeg_data <~ read (data_size - 28) ;;
                  if loadFromData jpeg_data then ret (Some jpeg_data)
                  else ret None
                else ret None
              else
                (* skip this resource *)
                read data_size ;;; ret None) ;;
    match found with
    | Some px => ret (Return px)
    | None =>
        (* padding to make even *)
        when (negb (data_size mod 2 =? 0)) (bind (read 1) (fun _ => ret tt)) ;;;
        ret Continue
    end.

(** [while f.tell() < resources_end: ...]; the result is the pixmap
    returned from inside the loop, or [None] when the loop is left. *)
Fixpoint resources_loop (fuel : nat) (resources_end : Z) : M File (option QPixmap) :=
  match fuel with
  | O => diverge
  | S fuel' =>
      pos <~ tell ;;
      if pos <? resources_end then
        step <~ resource_block ;;
        match step with
        | Break => ret None
        | Return px => ret (Some px)
        | Continue => resources_loop fuel' resources_end
        end
      else ret None
  end.

(** The statements inside [with open(psd_path, 'rb') as f:], followed by
    the final [return None]. *)
Definition extract_body : M File (option QPixmap) :=
  (* PSD header *)
  signature <~ read 4 ;;
  if negb (bool_decide (signature = blit "8BPS")) then ret None
  else
    version <~ bind (read 2) unpack_H ;;
    read 6 ;;;
    channels <~ bind (read 2) unpack_H ;;
    height <~ bind (read 4) unpack_I ;;
    width <~ bind (read 4) unpack_I ;;
    depth <~ bind (read 2) unpack_H ;;
    color_mode <~ bind (read 2) unpack_H ;;
    (* skip the colour mode data section *)
    color_mode_length <~ bind (read 4) unpack_I ;;
    read color_mode_length ;;;
    (* image resources section *)
    resources_length <~ bind (read 4) unpack_I ;;
    here <~ tell ;;
    let resources_end := here + resources_length in
    f <~ get ;;
    resources_loop (S (length (content f))) resources_end.

(** [extract_psd_thumbnail(psd_path)], given what [open(psd_path, 'rb')]
    finds: the bytes of the file, or nothing when the file cannot be
    opened.  Whatever is raised inside the [try] is caught and the
    function falls through to [return None]. *)
Definition extract_psd_thumbnail (opened : option (list byte))
    : Outcome (option QPixmap) :=
  let attempt : M File (option QPixmap) :=
    match opened with
    | None => raise (Exception (lit "FileNotFoundError") (lit "No such file or directory"))
    | Some _ => extract_body
    end in
  let start := {| content := default [] opened; position := 0 |} in
  fst (try_except attempt (fun e => ret None) start).

End Extractor.

(** ** Python floats

    Binary64 arithmetic, round to nearest even, as [SpecFloat] defines it. *)
Module pyfloat.

Definition prec : Z := 53.
Definition emax : Z := 1024.

(** [float(z)]; exact for [|z| < 2^53]. *)
Definition of_int (z : Z) : spec_float := binary_normalize prec emax z 0 false.

(** [a / b] on two integers below [2^53]: the correctly rounded quotient.
    [None] stands for [ZeroDivisionError]. *)
Definition truediv (a b : Z) : option spec_float :=
  if b =? 0 then None else Some (SFdiv prec emax (of_int a) (of_int b)).

(** [x * y] on floats. *)
Definition mul (x y : spec_float) : spec_float := SFmul prec emax x y.

(** [int(x)]: truncation towards zero.  [None] stands for the
    [OverflowError] or [ValueError] raised on an infinity or a NaN. *)
Definition to_int (x : spec_float) : option Z :=
  match x with
  | S754_zero _ => Some 0
  | S754_finite s m e =>
      let a := if 0 <=? e then Z.shiftl (Zpos m) e else Z.shiftr (Zpos m) (- e) in
      Some (if s then - a else a)
  | S754_infinity _ => None
  | S754_nan => None
  end.

End pyfloat.

(** [int((i / total) * 100)], the value [Worker.run] hands to
    [progress.emit]. *)
Definition progress_percent (i total : Z) : option Z :=
  match pyfloat.truediv i total with
  | Some q => pyfloat.to_int (pyfloat.mul q (pyfloat.of_int 100))
  | None => None
  end.

(** The percentage as the specification words it:
    [round(itemsProcessed / totalItems * 100)], the integer nearest to the
    exact quotient, a tie going to the even neighbour. *)
Definition rounded_percent (i total : Z) : Z :=
  let q := (100 * i) / total in
  let r := (100 * i) mod total in
  if 2 * r <? total then q
  else if total <? 2 * r then q + 1
  else if Z.even q then q else q + 1.

(** ** The outside world *)

(** What the program does that can be seen from outside, in the order it
    happens: the Qt signals of [Worker], the lines it prints, and its calls
    to the external collaborators. *)
Inductive Event : Type :=
  | progress_emit (percent : Z)              (* [self.progress.emit(n)] *)
  | log_emit (message : str)                 (* [self.log.emit(s)] *)
  | finished_emit                            (* [self.finished.emit()] *)
  | error_emit (message : str)               (* [self.error.emit(s)] *)
  | printed (line : str)                     (* [print(s)] *)
  | entered_render (psd art out : str)       (* [render(psd, art, out)] is called *)
  | called_Dispatch (progid : str)
  | called_set_Visible (v : bool)
  | called_DoJavaScript (psd art out : str)
  | called_urlretrieve (url destination : str)
  | called_rmtree (path : str)
  | called_makedirs (path : str)
  | called_write (path : str).

#[global] Instance Event_eq_decision : EqDecision Event.
Proof. solve_decision. Defined.

(** The collaborators.  Each call answers from the current world with an
    optional exception and the world it leaves behind.  [existing w] is the
    set of path spellings for which [os.path.exists] answers [True]. *)
Class Environment : Type := {
  World : Type;
  existing : World -> gset str;
  (* [win32com.client.Dispatch(progid)] *)
  Dispatch : str -> World -> option exn * World;
  (* [ps.Visible = v] *)
  set_Visible : bool -> World -> option exn * World;
  (* [ps.DoJavaScript(build_jsx(psd, art, out))] *)
  DoJavaScript : str -> str -> str -> World -> option exn * World;
  (* [urllib.request.urlretrieve(url, destination)] *)
  urlretrieve : str -> str -> World -> option exn * World;
  (* [shutil.rmtree(path)] and [os.makedirs(path)] *)
  rmtree : str -> World -> option exn * World;
  makedirs : str -> World -> option exn * World;
  (* [open(path, 'r')] and the iteration over its lines: the lines read,
     and the exception that ended the reading, if any *)
  read_lines : str -> World -> list str * option exn;
  (* [open(path, 'w')] and [f.write(text)] *)
  write_text : str -> str -> World -> option exn * World;
  (* [hashlib.md5(s.encode()).hexdigest()] *)
  md5_hexdigest : str -> str;
}.

(** The outcome of one template, as the log tells it: the name of the output
    file and the exception of the renderer, if it raised one. *)
Record ItemResult : Type := { final_name : str; failure : option exn }.

(** The signals one template gives rise to: the [Processing] line, the error
    line when the renderer failed, and the progress value. *)
Definition item_signals (total : nat) (ir : nat * ItemResult) : list Event :=
  let '(i, r) := ir in
  [log_emit (lit "Processing: " ++ final_name r)]
  ++ match failure r with
     | Some e => [log_emit (lit "❌ Error processing " ++ final_name r
                              ++ lit ": " ++ exn_msg e)]
     | None => []
     end
  ++ match progress_percent (Z.of_nat i) (Z.of_nat total) with
     | Some n => [progress_emit n]
     | None => []
     end.

Section Program.

Context `{Env : Environment}.

(** The running program: the world around it and what it did so far. *)
Record Machine : Type := { world : World; trace : list Event }.

Definition emit (ev : Event) : M Machine unit :=
  modify (fun m => {| world := world m; trace := trace m ++ [ev] |}).

(** A call to a collaborator: recorded, then answered by the oracle. *)
Definition external (ev : Event) (oracle : World -> option exn * World)
    : M Machine unit :=
  fun m =>
    let '(r, w') := oracle (world m) in
    let m' := {| world := w'; trace := trace m ++ [ev] |} in
    match r with
    | None => (Returned tt, m')
    | Some e => (Raised e, m')
    end.

Definition print (line : str) : M Machine unit := emit (printed line).

(** [os.path.exists(p)]. *)
Definition os_path_exists (p : str) : M Machine bool :=
  fun m => (Returned (path_exists (existing (world m)) p), m).

(** A [for] loop over a list. *)
Fixpoint for_each {A} (l : list A) (body : A -> M Machine unit) : M Machine unit :=
  match l with
  | [] => ret tt
  | x :: t => body x ;;; for_each t body
  end.

(** [enumerate(l, start=1)]. *)
Definition enumerate1 {A} (l : list A) : list (nat * A) :=
  zip (seq 1 (length l)) l.

(** *** [render] and [Worker.run] *)

Definition photoshop : str := lit "Photoshop.Application".

(** [render(psd, art, out)]. *)
Definition render (psd art out : str) : M Machine unit :=
  emit (entered_render psd art out) ;;;
  external (called_Dispatch photoshop) (Dispatch photoshop) ;;;
  external (called_set_Visible false) (set_Visible false) ;;;
  external (called_DoJavaScript psd art out) (DoJavaScript psd art out).

Record Job : Type := { psds : list str; art : str; out_dir : str }.

(** The log lines of the failed availability check. *)
Definition photoshop_missing_log (e : exn) : list str :=
  [ str_repeat "="%char 60;
    lit "❌ ERROR: Adobe Photoshop not found!";
    str_repeat "="%char 60;
    [];
    lit "This application requires Adobe Photoshop to be installed";
    lit "on your computer to process mockups.";
    [];
    lit "Please install Adobe Photoshop and try again.";
    [];
    lit "Technical error: " ++ exn_msg e;
    str_repeat "="%char 60 ].

(** [get_unique_filepath(out)] on the current file system. *)
Definition unique_filepath (out : str) : M Machine str :=
  fun m =>
    match get_unique_filepath (existing (world m)) out with
    | Some p => (Returned p, m)
    | None => (Diverged, m)
    end.

(** [self.progress.emit(int((i / total) * 100))]. *)
Definition emit_progress (i total : nat) : M Machine unit :=
  match progress_percent (Z.of_nat i) (Z.of_nat total) with
  | Some n => emit (progress_emit n)
  | None => raise (Exception (lit "ArithmeticError") (lit "progress is not a number"))
  end.

(** The body of the [for i, psd in enumerate(self.job.psds, start=1)]
    loop. *)
Definition process_item (job : Job) (total : nat) (item : nat * str)
    : M Machine unit :=
  let '(i, psd) := item in
  let name := fst (ntpath.splitext (ntpath.basename psd)) ++ lit ".jpg" in
  let out := ntpath.join (out_dir job) name in
  (* unique file path, to avoid overwriting *)
  out <~ unique_filepath out ;;
  let final_name := ntpath.basename out in
  emit (log_emit (lit "Processing: " ++ final_name)) ;;;
  try_except (render psd (art job) out)
    (fun e => emit (log_emit (lit "❌ Error processing " ++ final_name
                                ++ lit ": " ++ exn_msg e))) ;;;
  emit_progress i total.

(** What the renderer makes of one template in the world [w]: the
    exception it raises, if any, and the world it leaves. *)
Definition render_in (w : World) (psd art out : str) : option exn * World :=
  let '(r, m) := render psd art out {| world := w; trace := [] |} in
  (match r with Raised e => Some e | _ => None end, world m).

(** The output path of a template in the world [w]:
    [get_unique_filepath(os.path.join(out_dir, name + ".jpg"))]. *)
Definition output_path (job : Job) (w : World) (psd : str) : str :=
  let name := fst (ntpath.splitext (ntpath.basename psd)) ++ lit ".jpg" in
  let out := ntpath.join (out_dir job) name in
  default out (get_unique_filepath (existing w) out).

(** The results of a batch, one per template and in the order of the
    templates: each template is rendered in the world its predecessors
    left, and a failure of the renderer is kept as the result of that
    template. *)
Fixpoint render_results (job : Job) (w : World) (templates : list str)
    : list ItemResult :=
  match templates with
  | [] => []
  | psd :: rest =>
      let out := output_path job w psd in
      let '(failed, w') := render_in w psd (art job) out in
      {| final_name := ntpath.basename out; failure := failed |}
        :: render_results job w' rest
  end.

(** [Worker.run]. *)
Definition run (job : Job) : M Machine unit :=
  (* first, check that Photoshop is available *)
  ps_available <~
    try_except
      (external (called_Dispatch photoshop) (Dispatch photoshop) ;;; ret true)
      (fun e =>
         for_each (photoshop_missing_log e) (fun s => emit (log_emit s)) ;;;
         emit (error_emit (lit "Photoshop not found")) ;;;
         ret false) ;;
  if negb ps_available then ret tt
  else
    let total := length (psds job) in
    emit (log_emit (lit "✓ Photoshop detected - Processing "
                      ++ str_of_nat total ++ lit " mockup(s)...")) ;;;
    for_each (enumerate1 (psds job)) (process_item job total) ;;;
    emit finished_emit.

End Program.

(** ** [MockupLibrary] *)

Section Library.

Context `{Env : Environment}.

Record MockupLibrary : Type := {
  library_root : str;
  cache_dir : str;
  cloud_config_file : str;
  cloud_urls : list str;
}.

(** The text written by [_create_cloud_config_template]. *)
Definition cloud_config_template : str := lit
"# Cloud Mockup Library Configuration
# Add one URL per line to load mockups from cloud storage
# 
# Supported formats:
# - Direct URL: https://example.com/path/to/mockup.psd
# - Google Drive file: https://drive.google.com/file/d/FILE_ID/view
#   (To get FILE_ID: Right-click file > Share > Copy link)
# - Google Drive folder: https://drive.google.com/drive/folders/FOLDER_ID
#   (Automatically loads ALL .psd files from the folder)
#
# Example:
# https://drive.google.com/drive/folders/1TXJ2FNU-ntSF4hwxmorJA3hd9TblePcf
# https://drive.google.com/file/d/1abc123def456/view
# https://www.dropbox.com/s/abc123/mockup.psd?dl=1
# https://example.com/mockups/design1.psd
".

(** [_ensure_library_structure]. *)
Definition _ensure_library_structure (root cache : str) : M Machine unit :=
  for_each [root; cache] (fun folder =>
    present <~ os_path_exists folder ;;
    when (negb present)
      (try_except (external (called_makedirs folder) (makedirs folder))
         (fun e => print (lit "Could not create folder " ++ folder
                            ++ lit ": " ++ exn_msg e)))).

(** [_create_cloud_config_template]. *)
Definition _create_cloud_config_template (config_file : str) : M Machine unit :=
  try_except
    (external (called_write config_file) (write_text config_file cloud_config_template))
    (fun e => print (lit "Could not create cloud config template: " ++ exn_msg e)).

(** The folder id taken from a folder link:
    [folder_url.split('/folders/')[-1].split('?')[0].split('/')[0]]. *)
Definition folder_id_of (folder_url : str) : str :=
  first_piece (split (lit "/")
    (first_piece (split (lit "?")
       (last_piece (split (lit "/folders/") folder_url))))).

(** [_get_files_from_gdrive_folder]. *)
Definition _get_files_from_gdrive_folder (folder_url : str) : M Machine (list str) :=
  let file_urls : list str := [] in
  try_except
    (let folder_id : option str :=
       if contains (lit "/folders/") folder_url
       then Some (folder_id_of folder_url) else None in
     match folder_id with
     | None | Some [] =>
         print (lit "Could not extract folder ID from: " ++ folder_url) ;;;
         ret file_urls
     | Some folder_id =>
         print (lit "📁 Fetching PSDs from Google Drive folder: " ++ folder_id) ;;;
         print (lit "  Attempting to list folder contents...") ;;;
         print (lit "  ⚠️  Google Drive folders require individual file URLs") ;;;
         print (lit "  📝 Please use one of these methods:") ;;;
         print (lit "     1. Share each PSD file individually and add URLs to cloud_sources.txt") ;;;
         print (lit "     2. Use the Google Drive API key method (see documentation)") ;;;
         print (lit "     3. Use Dropbox or direct URLs instead") ;;;
         (* store the folder URL for reference *)
         let file_urls := file_urls ++ [lit "# FOLDER: " ++ folder_url] in
         let file_urls := file_urls ++ [lit "# Please replace this with individual file URLs"] in
         let file_urls := file_urls ++ [lit "# Right-click each file > Share > Copy link"] in
         ret file_urls
     end)
    (fun e =>
       print (lit "Error accessing Google Drive folder: " ++ exn_msg e) ;;;
       ret file_urls).

(** The test that sends a line to [_get_files_from_gdrive_folder]:
    [A in line or B in line and 'folders' in line]. *)
Definition is_folder_link (line : str) : bool :=
  contains (lit "drive.google.com/drive/folders") line
  || (contains (lit "drive.google.com/drive/u/") line
      && contains (lit "folders") line).

(** The body of [for line in f] in [_load_cloud_sources]. *)
Definition load_line (urls : list str) (line : str) : M Machine (list str) :=
  let line := strip line in
  (* skip empty lines and comments *)
  if nonempty line && negb (startswith (lit "#") line) then
    if is_folder_link line then
      folder_urls <~ _get_files_from_gdrive_folder line ;;
      ret (urls ++ folder_urls)
    else
      (* single file URL *)
      ret (urls ++ [line])
  else ret urls.

(** A [for] loop that carries the variables it updates. *)
Fixpoint fold_each {A B} (l : list A) (body : B -> A -> M Machine B) (acc : B)
    : M Machine B :=
  match l with
  | [] => ret acc
  | x :: t => acc' <~ body acc x ;; fold_each t body acc'
  end.

(** [_load_cloud_sources].  An exception that ends the reading is caught
    after the lines read before it have been handled. *)
Definition _load_cloud_sources (config_file : str) : M Machine (list str) :=
  present <~ os_path_exists config_file ;;
  if present then
    m <~ get ;;
    let '(lines, failure) := read_lines config_file (world m) in
    urls <~ fold_each lines load_line [] ;;
    match failure with
    | Some e => print (lit "Error loading cloud sources: " ++ exn_msg e) ;;; ret urls
    | None => ret urls
    end
  else
    _create_cloud_config_template config_file ;;;
    ret [].

(** [MockupLibrary.__init__], from the directory that holds the library
    ([exe_dir], or the base path of [resource_path]). *)
Definition MockupLibrary_init (base_path : str) : M Machine MockupLibrary :=
  let root := ntpath.join base_path (lit "mockup_library") in
  let cache := ntpath.join root (lit "_cache") in
  _ensure_library_structure root cache ;;;
  let config_file := ntpath.join root (lit "cloud_sources.txt") in
  urls <~ _load_cloud_sources config_file ;;
  ret {| library_root := root; cache_dir := cache;
         cloud_config_file := config_file; cloud_urls := urls |}.

(** [l[1]] on the result of a [split]. *)
Definition second_piece (l : list str) : str := nth 1 l [].

(** [_get_google_drive_direct_link]. *)
Definition _get_google_drive_direct_link (url : str) : str :=
  if contains (lit "drive.google.com") url then
    if contains (lit "/file/d/") url then
      let file_id := first_piece (split (lit "/") (second_piece (split (lit "/file/d/") url))) in
      lit "https://drive.google.com/uc?export=download&id=" ++ file_id
    else if contains (lit "id=") url then
      let file_id := first_piece (split (lit "&") (second_piece (split (lit "id=") url))) in
      lit "https://drive.google.com/uc?export=download&id=" ++ file_id
    else url
  else url.

(** [_get_cached_filename]. *)
Definition _get_cached_filename (url : str) : str :=
  let url_hash := md5_hexdigest url in
  let original_name := first_piece (split (lit "?") (last_piece (split (lit "/") url))) in
  if endswith (lit ".psd") (lower original_name)
  then url_hash ++ lit "_" ++ original_name
  else url_hash ++ lit ".psd".

(** [_download_file]: [True] when the download went through. *)
Definition _download_file (url destination : str) : M Machine bool :=
  try_except
    (let download_url := _get_google_drive_direct_link url in
     print (lit "Downloading from cloud: " ++ url) ;;;
     external (called_urlretrieve download_url destination)
              (urlretrieve download_url destination) ;;;
     ret true)
    (fun e =>
       (if is_URLError e
        then print (lit "Download failed for " ++ url ++ lit ": " ++ exn_msg e)
        else print (lit "Error downloading " ++ url ++ lit ": " ++ exn_msg e)) ;;;
       ret false).

(** [os.path.join(self.cache_dir, self._get_cached_filename(url))]. *)
Definition cache_path_of (lib : MockupLibrary) (url : str) : str :=
  ntpath.join (cache_dir lib) (_get_cached_filename url).

(** The body of the first loop of [_get_cloud_mockups]. *)
Definition count_needed (lib : MockupLibrary) (downloads_needed : nat) (url : str)
    : M Machine nat :=
  present <~ os_path_exists (cache_path_of lib url) ;;
  ret (if negb present then S downloads_needed else downloads_needed).

(** The body of the second loop of [_get_cloud_mockups], on the pair
    [(cloud_psds, cached_count)]: the cached file is used when it is
    there, and downloaded otherwise.  The optional [progress_callback]
    and [splash] arguments are left at their default [None]. *)
Definition ensure_cached (lib : MockupLibrary) (acc : list str * nat) (url : str)
    : M Machine (list str * nat) :=
  let '(cloud_psds, cached_count) := acc in
  let cache_filename := _get_cached_filename url in
  let cache_path := ntpath.join (cache_dir lib) cache_filename in
  present <~ os_path_exists cache_path ;;
  if negb present then
    (* not in the cache: download it *)
    print (lit "⬇ Downloading: " ++ cache_filename) ;;;
    ok <~ _download_file url cache_path ;;
    if ok then ret (cloud_psds ++ [cache_path], cached_count)
    else ret (cloud_psds, cached_count)
  else
    (* use the cached version *)
    ret (cloud_psds ++ [cache_path], S cached_count).

(** [_get_cloud_mockups]. *)
Definition _get_cloud_mockups (lib : MockupLibrary) : M Machine (list str) :=
  let total_urls := length (cloud_urls lib) in
  if (total_urls =? 0)%nat then ret []
  else
    (* first pass: what needs downloading *)
    downloads_needed <~ fold_each (cloud_urls lib) (count_needed lib) 0%nat ;;
    (if (downloads_needed =? 0)%nat then
       print (lit "✓ All " ++ str_of_nat total_urls
                ++ lit " cloud mockups already cached - loading instantly")
     else
       print (lit "Downloading " ++ str_of_nat downloads_needed
                ++ lit " new cloud mockup(s), "
                ++ str_of_nat (total_urls - downloads_needed)
                ++ lit " already cached")) ;;;
    r <~ fold_each (cloud_urls lib) (ensure_cached lib) ([], 0%nat) ;;
    let '(cloud_psds, cached_count) := r in
    when (0 <? cached_count)%nat
      (print (lit "✓ Loaded " ++ str_of_nat cached_count
                ++ lit " mockup(s) from cache (instant)")) ;;;
    ret cloud_psds.

(** [clear_cache]. *)
Definition clear_cache (lib : MockupLibrary) : M Machine bool :=
  try_except
    (present <~ os_path_exists (cache_dir lib) ;;
     if present then
       external (called_rmtree (cache_dir lib)) (rmtree (cache_dir lib)) ;;;
       external (called_makedirs (cache_dir lib)) (makedirs (cache_dir lib)) ;;;
       print (lit "Cloud cache cleared") ;;;
       ret true
     else ret false)
    (fun e =>
       print (lit "Error clearing cache: " ++ exn_msg e) ;;;
       ret false).

(** [refresh_cloud_mockups]. *)
Definition refresh_cloud_mockups (lib : MockupLibrary) : M Machine (list str) :=
  clear_cache lib ;;;
  _get_cloud_mockups lib.

End Library.

(** ** Reading a trace *)

(** The values handed to [progress.emit], in order. *)
Definition progress_values (tr : list Event) : list Z :=
  omap (fun ev => match ev with progress_emit n => Some n | _ => None end) tr.

(** The Qt signals of [Worker], in order. *)
Definition is_signal (ev : Event) : bool :=
  match ev with
  | progress_emit _ | log_emit _ | finished_emit | error_emit _ => true
  | _ => false
  end.

Definition signals (tr : list Event) : list Event := List.filter is_signal tr.

(** The invocations of [render], in order. *)
Definition render_calls (tr : list Event) : list (str * str * str) :=
  omap (fun ev => match ev with
                  | entered_render psd art out => Some (psd, art, out)
                  | _ => None
                  end) tr.

(** The calls of [win32com.client.Dispatch], in order. *)
Definition dispatch_calls (tr : list Event) : list str :=
  omap (fun ev => match ev with called_Dispatch p => Some p | _ => None end) tr.

(** The [error] signals, in order. *)
Definition error_signals (tr : list Event) : list str :=
  omap (fun ev => match ev with error_emit s => Some s | _ => None end) tr.

(** How often [finished] was emitted. *)
Definition finished_count (tr : list Event) : nat :=
  length (List.filter (fun ev => bool_decide (ev = finished_emit)) tr).

(** The download attempts, in order: [(url, destination)]. *)
Definition fetches (tr : list Event) : list (str * str) :=
  omap (fun ev => match ev with
                  | called_urlretrieve u d => Some (u, d)
                  | _ => None
                  end) tr.

(** [p] is [d] itself or lies below it: it goes on behind [d] with one of
    the two separators. *)
Definition under (d p : str) : bool :=
  bool_decide (p = d) || startswith (d ++ [ntpath.sep]) p
  || startswith (d ++ [ntpath.altsep]) p.

(** The directory [d] exists and nothing exists below it. *)
Definition empty_directory (files : gset str) (d : str) : Prop :=
  d ∈ files ∧ ∀ p, p ∈ files -> under d p = true -> p = d.

(** ** A small concrete world

    A world with a set of files, a Photoshop that is installed or not and
    fails on given templates, and a network on which given URLs answer. *)
Module Toy.

Record toy_world : Type := {
  files : gset str;
  photoshop_installed : bool;
  failing_templates : list str;
  reachable_urls : list str;
  config_lines : list str;
}.

Definition with_files (w : toy_world) (fs : gset str) : toy_world :=
  {| files := fs;
     photoshop_installed := photoshop_installed w;
     failing_templates := failing_templates w;
     reachable_urls := reachable_urls w;
     config_lines := config_lines w |}.

Definition com_error : exn :=
  Exception (lit "com_error") (lit "Invalid class string").

Definition toy_Dispatch (progid : str) (w : toy_world) : option exn * toy_world :=
  (if photoshop_installed w then None else Some com_error, w).

(** The script writes the output file unless the template is broken. *)
Definition toy_DoJavaScript (psd art out : str) (w : toy_world) : option exn * toy_world :=
  if bool_decide (psd ∈ failing_templates w)
  then (Some (Exception (lit "com_error") (lit "General Photoshop error")), w)
  else (None, with_files w ({[ out ]} ∪ files w)).

Definition toy_urlretrieve (url destination : str) (w : toy_world) : option exn * toy_world :=
  if bool_decide (url ∈ reachable_urls w)
  then (None, with_files w ({[ destination ]} ∪ files w))
  else (Some (Exception (lit "URLError") (lit "unknown url type")), w).

Definition toy_rmtree (d : str) (w : toy_world) : option exn * toy_world :=
  (None, with_files w (filter (fun p => under d p = false) (files w))).

Definition toy_makedirs (d : str) (w : toy_world) : option exn * toy_world :=
  (None, with_files w ({[ d ]} ∪ files w)).

Definition toy_write_text (path text : str) (w : toy_world) : option exn * toy_world :=
  (None, with_files w ({[ path ]} ∪ files w)).

(** A stand-in for the digest: the length of the text, in decimal. *)
Definition toy_digest (s : str) : str := str_of_nat (length s).

#[global] Instance env : Environment := {|
  World := toy_world;
  existing := files;
  Dispatch := toy_Dispatch;
  set_Visible := fun _ w => (None, w);
  DoJavaScript := toy_DoJavaScript;
  urlretrieve := toy_urlretrieve;
  rmtree := toy_rmtree;
  makedirs := toy_makedirs;
  read_lines := fun _ w => (config_lines w, None);
  write_text := toy_write_text;
  md5_hexdigest := toy_digest;
|}.

Definition start (w : toy_world) : Machine := {| world := w; trace := [] |}.

(** Three templates, the second of which makes the renderer fail. *)
Definition three_templates : Job :=
  {| psds := [lit "lib\front.psd"; lit "lib\back.psd"; lit "lib\side.psd"];
     art := lit "art\logo.png";
     out_dir := lit "out" |}.

Definition studio : toy_world :=
  {| files := {[ lit "out" ]};
     photoshop_installed := true;
     failing_templates := [lit "lib\back.psd"];
     reachable_urls := [lit "https://example.com/mockups/design1.psd"];
     config_lines := [] |}.

Definition no_photoshop : toy_world :=
  {| files := {[ lit "out" ]};
     photoshop_installed := false;
     failing_templates := [];
     reachable_urls := [];
     config_lines := [] |}.


(** A library below [app], with one cloud source. *)
Definition library : MockupLibrary :=
  {| library_root := lit "app\mockup_library";
     cache_dir := lit "app\mockup_library\_cache";
     cloud_config_file := lit "app\mockup_library\cloud_sources.txt";
     cloud_urls := [lit "https://example.com/mockups/design1.psd"] |}.

Definition design_url : str := lit "https://example.com/mockups/design1.psd".

(** A world in which the cloud source has been downloaded before, and the
    world the download leaves behind when the cache was empty. *)
Definition cached_before : toy_world :=
  with_files studio
    {[ lit "app\mockup_library"; lit "app\mockup_library\_cache";
       cache_path_of library design_url ]}.

(** A world in which the cache directory is there, and one in which it has
    been deleted. *)
Definition with_cache : toy_world :=
  with_files studio {[ lit "app\mockup_library"; lit "app\mockup_library\_cache" ]}.

Definition without_cache : toy_world :=
  with_files studio {[ lit "app\mockup_library" ]}.

Definition downloaded : toy_world :=
  with_files with_cache ({[ cache_path_of library design_url ]} ∪ files with_cache).

(** A configuration file that holds one folder link. *)
Definition folder_line : str :=
  lit "https://drive.google.com/drive/folders/1TXJ2FNU-ntSF4hwxmorJA3hd9TblePcf".

Definition folder_config : toy_world :=
  {| files := {[ lit "app\mockup_library"; lit "app\mockup_library\_cache";
                 lit "app\mockup_library\cloud_sources.txt" ]};
     photoshop_installed := true;
     failing_templates := [];
     reachable_urls := [];
     config_lines := [folder_line ++ lit "
"] |}.

End Toy.

(** ** Sample PSD containers *)
Module Sample.

Definition be16 (n : Z) : list byte :=
  match Byte.of_N (Z.to_N (n / 256)), Byte.of_N (Z.to_N (n mod 256)) with
  | Some a, Some b => [a; b]
  | _, _ => []
  end.

Definition be32 (n : Z) : list byte := be16 (n / 65536) ++ be16 (n mod 65536).

Definition zeros (n : nat) : list byte := replicate n x00.

(** The 26-byte header (one RGB channel set, 1 x 1, 8 bits) and an empty
    colour mode data section. *)
Definition header : list byte :=
  blit "8BPS" ++ be16 1 ++ zeros 6 ++ be16 3 ++ be32 1 ++ be32 1 ++ be16 8 ++ be16 3
  ++ be32 0.

(** A resource block with an empty name: signature, id, the padded name,
    the data size and the data, padded to an even size. *)
Definition resource (id : Z) (data : list byte) : list byte :=
  blit "8BIM" ++ be16 id ++ [x00; x00] ++ be32 (Z.of_nat (length data)) ++ data
  ++ (if Nat.even (length data) then [] else [x00]).

(** The 28-byte thumbnail header: format, width, height, row bytes, total
    size, compressed size, bits per pixel, planes. *)
Definition thumbnail_header (format size : Z) : list byte :=
  be32 format ++ be32 1 ++ be32 1 ++ be32 4 ++ be32 4 ++ be32 size ++ be16 24 ++ be16 1.

(** A raw thumbnail of one pixel, and a JPEG thumbnail. *)
Definition raw_pixels : list byte := [xff; x00; x00; x00].
Definition jpeg : list byte := [xff; xd8; xff; xe0; xff; xd9].

Definition raw_thumbnail : list byte :=
  resource 1033 (thumbnail_header 0 4 ++ raw_pixels).
Definition jpeg_thumbnail : list byte :=
  resource 1036 (thumbnail_header 1 6 ++ jpeg).

Definition container (resources : list byte) : list byte :=
  header ++ be32 (Z.of_nat (length resources)) ++ resources ++ be32 0.

(** The same bytes as the raw thumbnail under a resource id that is not a
    thumbnail id (1005, the resolution info). *)
Definition other_resource : list byte :=
  resource 1005 (thumbnail_header 0 4 ++ raw_pixels).
Definition other_then_jpeg : list byte := container (other_resource ++ jpeg_thumbnail).

(** The position of the first resource block in a container, behind the
    header and the length of the resources section. *)
Definition first_block : nat := 34.

(** A container with a raw thumbnail followed by a JPEG thumbnail, one
    with the JPEG thumbnail alone, and one with the raw thumbnail alone. *)
Definition raw_then_jpeg : list byte := container (raw_thumbnail ++ jpeg_thumbnail).
Definition jpeg_only : list byte := container jpeg_thumbnail.
Definition raw_only : list byte := container raw_thumbnail.

(** A decoder that accepts what starts with the JPEG start-of-image marker. *)
Definition accepts_jpeg (b : list byte) : bool :=
  match b with
  | a :: b :: _ => bool_decide (a = xff) && bool_decide (b = xd8)
  | _ => false
  end.

End Sample.

(** ** Predicates used in the statements and proofs *)

(** [triple P m Q]: from a state in [P], [m] does not run forever, and when it
    returns [a] the state is in [Q a]. *)
Definition triple {S A} (P : S -> Prop) (m : M S A) (Q : A -> S -> Prop) : Prop :=
  forall s, P s ->
    match m s with
    | (Returned a, s') => Q a s'
    | (Raised _, _) => True
    | (Diverged, _) => False
    end.

(** While a file is read its bytes stay the same and the position moves
    forward, never beyond the end. *)
Definition reading (c : list byte) (from : nat) (f : File) : Prop :=
  content f = c /\ (from <= position f <= length c)%nat.

(** A string without separators. *)
Definition sepfree (f : str) : Prop := Forall (fun c => ntpath.is_sep c = false) f.

(** The path begins with two separators, and its second character is a
    colon: the two tests of [ntpath.splitdrive]. *)
Definition unc_start (p : str) : bool :=
  match p with
  | a :: b :: _ => ntpath.is_sep a && ntpath.is_sep b
  | _ => false
  end.

Definition second_colon (p : str) : bool :=
  match p with
  | c :: t => startswith [ntpath.colon] (rest_of_char c t)
  | [] => false
  end.

Definition not_dot (x : ascii) : bool := negb (bool_decide (x = ntpath.extsep)).

Definition is_digit (c : ascii) : Prop := c ∈ lit "0123456789".

(** A float that is zero, or finite with its top bit below [2^B] and its
    exponent at most [B]. *)
Definition below (B : Z) (x : spec_float) : Prop :=
  match x with
  | S754_zero _ => True
  | S754_finite _ m e => Zdigits2 (Zpos m) + e <= B /\ e <= B
  | S754_infinity _ | S754_nan => False
  end.

(** ** More readers of a trace *)

(** The directories handed to [os.makedirs] and to [shutil.rmtree], and the
    files opened for writing, in order. *)
Definition makedirs_calls (tr : list Event) : list str :=
  omap (fun ev => match ev with called_makedirs p => Some p | _ => None end) tr.

Definition rmtree_calls (tr : list Event) : list str :=
  omap (fun ev => match ev with called_rmtree p => Some p | _ => None end) tr.

Definition write_calls (tr : list Event) : list str :=
  omap (fun ev => match ev with called_write p => Some p | _ => None end) tr.

(** The lines printed, in order. *)
Definition printed_lines (tr : list Event) : list str :=
  omap (fun ev => match ev with printed s => Some s | _ => None end) tr.

(** What happened is nothing but printing. *)
Definition only_printed (tr : list Event) : Prop :=
  Forall (fun ev => match ev with printed _ => True | _ => False end) tr.

(** The lines of the configuration that [_load_cloud_sources] keeps: not
    empty once stripped, and not a comment. *)
Definition is_source_line (line : str) : bool :=
  nonempty line && negb (startswith (lit "#") line).

(** The digits of a hexadecimal digest, as [hexdigest] writes them. *)
Definition is_hexdigit (c : ascii) : Prop := c ∈ lit "0123456789abcdef".

(** The [original_name] of [_get_cached_filename]:
    [url.split('/')[-1].split('?')[0]]. *)
Definition original_name (url : str) : str :=
  first_piece (split (lit "?") (last_piece (split (lit "/") url))).

(** [px] is a run of consecutive bytes of [c]. *)
Definition segment_of (c px : list byte) : Prop :=
  exists k, px = take (length px) (drop k c).

(** A float that is not negative and whose value is at most, or at least,
    the integer [N]: zero, or finite with a mantissa [m] and an exponent
    [e <= 0] such that [m <= N * 2^(-e)], or [N * 2^(-e) <= m]. *)
Definition at_most (N : Z) (x : spec_float) : Prop :=
  match x with
  | S754_zero _ => True
  | S754_finite s m e => s = false /\ e <= 0 /\ Zpos m <= N * 2 ^ (- e)
  | S754_infinity _ | S754_nan => False
  end.

Definition at_least (N : Z) (x : spec_float) : Prop :=
  match x with
  | S754_finite s m e => s = false /\ e <= 0 /\ N * 2 ^ (- e) <= Zpos m
  | _ => False
  end.

(** ** [_jsx] *)

Definition backslash : ascii := ascii_of_nat 92.

(** [_jsx(path)]: [path.replace("\\", "/")]. *)
Definition _jsx (path : str) : str := replace_char backslash "/"%char path.

(** ** The label of a thumbnail without preview *)

(** A string that does not begin in the middle of a character. *)
Definition whole (x : str) : Prop :=
  match x with y :: _ => continuation y = false | [] => True end.


(** The file name drawn below the [PSD] mark in [load_thumbnail], when no
    preview can be extracted: names of more than 18 characters are cut to
    their first 15 characters and three dots.  [len] and the slice count
    characters, not bytes. *)
Definition placeholder_filename (psd_path : str) : str :=
  let filename := ntpath.basename psd_path in
  if (18 <? py_len filename)%nat then py_take 15 filename ++ lit "..." else filename.

(** ** [sorted] on strings *)

(** [a <= b] on Python strings: the order of the code points of the first
    place at which they differ, a prefix coming first. *)
Fixpoint str_leb (a b : str) : bool :=
  match a, b with
  | [], _ => true
  | _ :: _, [] => false
  | x :: a', y :: b' =>
      if (nat_of_ascii x <? nat_of_ascii y)%nat then true
      else if (nat_of_ascii y <? nat_of_ascii x)%nat then false
      else str_leb a' b'
  end.

Definition str_le (a b : str) : Prop := str_leb a b = true.

#[global] Instance str_le_dec (a b : str) : Decision (str_le a b).
Proof. unfold str_le. apply _. Defined.

(** [sorted(l)] for a list of strings. *)
Definition sorted (l : list str) : list str := merge_sort str_le l.

(** ** [MockupLibrary.get_all_mockups] *)

Section Aggregator.

Context `{Env : Environment}.

(** [os.walk(top)]: the directories from [top] downwards, each with the
    names of its sub-directories and of its files. *)
Variable walk : str -> World -> list (str * list str * list str).

(** [for file in files: ...], adding to [psd_files]. *)
Fixpoint files_loop (root : str) (files : list str) (psd_files : list str) : list str :=
  match files with
  | [] => psd_files
  | file :: rest =>
      (* only .psd files, not the configuration *)
      if endswith (lit ".psd") (lower file)
         && negb (bool_decide (file = lit "cloud_sources.txt"))
      then files_loop root rest (psd_files ++ [ntpath.join root file])
      else files_loop root rest psd_files
  end.

(** [for root, dirs, files in os.walk(...): ...]. *)
Fixpoint walk_loop (entries : list (str * list str * list str)) (psd_files : list str)
    : list str :=
  match entries with
  | [] => psd_files
  | (root, dirs, files) :: rest =>
      (* skip the cache directory *)
      if contains (lit "_cache") root then walk_loop rest psd_files
      else walk_loop rest (files_loop root files psd_files)
  end.

(** [get_all_mockups], its optional arguments left at [None]. *)
Definition get_all_mockups (lib : MockupLibrary) : M Machine (list str) :=
  let psd_files : list str := [] in
  (* local PSDs *)
  present <~ os_path_exists (library_root lib) ;;
  m <~ get ;;
  let psd_files :=
    if present then walk_loop (walk (library_root lib) (world m)) psd_files
    else psd_files in
  (* cloud PSDs, cached locally *)
  psd_files <~
    try_except
      (cloud_psds <~ _get_cloud_mockups lib ;;
       ret (psd_files ++ cloud_psds))
      (fun e =>
         print (lit "Error loading cloud mockups: " ++ exn_msg e) ;;;
         ret psd_files) ;;
  ret (sorted psd_files).

End Aggregator.

(** The local mockups, as a list comprehension: the [.psd] files of the
    directories whose path does not contain [_cache]. *)
Definition is_psd_name (file : str) : bool :=
  endswith (lit ".psd") (lower file) && negb (bool_decide (file = lit "cloud_sources.txt")).

Definition local_psds (entries : list (str * list str * list str)) : list str :=
  flat_map (fun entry : str * list str * list str =>
              if contains (lit "_cache") entry.1.1 then []
              else map (ntpath.join entry.1.1) (List.filter is_psd_name entry.2))
           entries.

(** ** The window: selections and the start of a batch *)
Module gui.

(** A [MockupThumbnail], as far as its selection goes. *)
Record MockupThumbnail : Type := { psd_path : str; is_selected : bool }.

(** [MockupThumbnail.set_selected] and the first statement of
    [mousePressEvent]. *)
Definition set_selected (selected : bool) (t : MockupThumbnail) : MockupThumbnail :=
  {| psd_path := psd_path t; is_selected := selected |}.

Definition toggled (t : MockupThumbnail) : MockupThumbnail :=
  {| psd_path := psd_path t; is_selected := negb (is_selected t) |}.

(** The attributes of [MainWindow] that its slots read and write.  The
    thumbnail objects are kept in the order of their creation; the
    dictionary [thumbnail_widgets] refers to them by their place. *)
Record MainWindow : Type := {
  thumbnails : list MockupThumbnail;
  thumbnail_widgets : gmap str nat;
  selected_library_psds : gset str;
  psd_list : list str;                  (* the items of [self.psd_list] *)
  art_path : str;                       (* [self.art_path.text()] *)
  art_path_style : str;
  out_dir : str;                        (* [self.out_dir.text()] *)
  out_dir_style : str;
  log : list str;                       (* the lines appended to [self.log] *)
  status : str;
  status_style : str;
  progress : Z;
  run_btn_enabled : bool;
  worker : option Job;                  (* the job of the worker started last *)
}.

Definition with_selection (ts : list MockupThumbnail) (sel : gset str)
    (w : MainWindow) : MainWindow :=
  {| thumbnails := ts; thumbnail_widgets := thumbnail_widgets w;
     selected_library_psds := sel; psd_list := psd_list w;
     art_path := art_path w; art_path_style := art_path_style w;
     out_dir := out_dir w; out_dir_style := out_dir_style w;
     log := log w; status := status w; status_style := status_style w;
     progress := progress w; run_btn_enabled := run_btn_enabled w;
     worker := worker w |}.

Definition log_append (line : str) (w : MainWindow) : MainWindow :=
  {| thumbnails := thumbnails w; thumbnail_widgets := thumbnail_widgets w;
     selected_library_psds := selected_library_psds w; psd_list := psd_list w;
     art_path := art_path w; art_path_style := art_path_style w;
     out_dir := out_dir w; out_dir_style := out_dir_style w;
     log := log w ++ [line]; status := status w; status_style := status_style w;
     progress := progress w; run_btn_enabled := run_btn_enabled w;
     worker := worker w |}.

Definition set_art_path_style (style : str) (w : MainWindow) : MainWindow :=
  {| thumbnails := thumbnails w; thumbnail_widgets := thumbnail_widgets w;
     selected_library_psds := selected_library_psds w; psd_list := psd_list w;
     art_path := art_path w; art_path_style := style;
     out_dir := out_dir w; out_dir_style := out_dir_style w;
     log := log w; status := status w; status_style := status_style w;
     progress := progress w; run_btn_enabled := run_btn_enabled w;
     worker := worker w |}.

Definition set_out_dir_style (style : str) (w : MainWindow) : MainWindow :=
  {| thumbnails := thumbnails w; thumbnail_widgets := thumbnail_widgets w;
     selected_library_psds := selected_library_psds w; psd_list := psd_list w;
     art_path := art_path w; art_path_style := art_path_style w;
     out_dir := out_dir w; out_dir_style := style;
     log := log w; status := status w; status_style := status_style w;
     progress := progress w; run_btn_enabled := run_btn_enabled w;
     worker := worker w |}.

(** The widgets that show the state of a batch: the button, the status
    line with its style, the progress bar, and the worker. *)
Definition with_batch (enabled : bool) (text style : str) (value : Z)
    (started : option Job) (w : MainWindow) : MainWindow :=
  {| thumbnails := thumbnails w; thumbnail_widgets := thumbnail_widgets w;
     selected_library_psds := selected_library_psds w; psd_list := psd_list w;
     art_path := art_path w; art_path_style := art_path_style w;
     out_dir := out_dir w; out_dir_style := out_dir_style w;
     log := log w; status := text; status_style := style;
     progress := value; run_btn_enabled := enabled;
     worker := started |}.

(** The grid loop of [_load_library_thumbnails], as far as the thumbnail
    objects and the dictionary go: one thumbnail per mockup, not selected,
    and [self.thumbnail_widgets[psd_path] = thumbnail]. *)
Fixpoint register (mockups : list str) (ts : list MockupThumbnail)
    (widgets : gmap str nat) : list MockupThumbnail * gmap str nat :=
  match mockups with
  | [] => (ts, widgets)
  | psd_path :: rest =>
      let thumbnail := {| psd_path := psd_path; is_selected := false |} in
      register rest (ts ++ [thumbnail]) (<[ psd_path := length ts ]> widgets)
  end.

(** [toggle_library_selection]. *)
Definition toggle_library_selection (psd_path : str) (w : MainWindow) : MainWindow :=
  let sel :=
    if bool_decide (psd_path ∈ selected_library_psds w)
    then selected_library_psds w ∖ {[ psd_path ]}
    else selected_library_psds w ∪ {[ psd_path ]} in
  (* update the selection count *)
  let count := size sel in
  log_append (lit "Library: " ++ str_of_nat count ++ lit " mockup(s) selected")
    (with_selection (thumbnails w) sel w).

(** [MockupThumbnail.mousePressEvent] on the thumbnail at place [i]: the
    thumbnail turns its mark and emits [clicked], to which
    [toggle_library_selection] is connected. *)
Definition mousePressEvent (i : nat) (w : MainWindow) : MainWindow :=
  match thumbnails w !! i with
  | None => w
  | Some t =>
      toggle_library_selection (psd_path t)
        (with_selection (alter toggled i (thumbnails w)) (selected_library_psds w) w)
  end.

(** The loops of [select_all_library] and [deselect_all_library] over
    [self.thumbnail_widgets.items()]. *)
Fixpoint select_loop (items : list (str * nat)) (ts : list MockupThumbnail)
    (sel : gset str) : list MockupThumbnail * gset str :=
  match items with
  | [] => (ts, sel)
  | (psd_path, i) :: rest =>
      select_loop rest (alter (set_selected true) i ts) (sel ∪ {[ psd_path ]})
  end.

Fixpoint deselect_loop (items : list (str * nat)) (ts : list MockupThumbnail)
    : list MockupThumbnail :=
  match items with
  | [] => ts
  | (psd_path, i) :: rest => deselect_loop rest (alter (set_selected false) i ts)
  end.

(** [select_all_library]. *)
Definition select_all_library (w : MainWindow) : MainWindow :=
  let '(ts, sel) := select_loop (map_to_list (thumbnail_widgets w))
                      (thumbnails w) (selected_library_psds w) in
  let count := size sel in
  log_append (lit "✓ Selected all " ++ str_of_nat count ++ lit " library mockups")
    (with_selection ts sel w).

(** [deselect_all_library]. *)
Definition deselect_all_library (w : MainWindow) : MainWindow :=
  let ts := deselect_loop (map_to_list (thumbnail_widgets w)) (thumbnails w) in
  log_append (lit "Library selections cleared") (with_selection ts ∅ w).

(** [run_job]: the templates are the library selections followed by the
    manual ones.  [listed] is [list(self.selected_library_psds)]: the
    elements of the set, each once, in an order that Python leaves open
    and that may differ between two sets with the same elements. *)
Definition run_job (listed : list str) (w : MainWindow) : MainWindow :=
  (* all PSDs: library selections + manual uploads *)
  let all_psds := listed ++ psd_list w in
  let error := false in
  let '(w, error) :=
    if negb (nonempty (art_path w))
    then (set_art_path_style (lit "border: 2px solid #e85d33;") w, true)
    else (w, error) in
  let '(w, error) :=
    if (length all_psds =? 0)%nat
    then (log_append (lit "❌ No mockups selected") w, true)
    else (w, error) in
  let '(w, error) :=
    if negb (nonempty (out_dir w))
    then (set_out_dir_style (lit "border: 2px solid #e85d33;") w, true)
    else (w, error) in
  if error then w
  else
    let job := Build_Job all_psds (art_path w) (out_dir w) in
    with_batch false
      (lit "Processing " ++ str_of_nat (length all_psds) ++ lit " mockup(s)...")
      (status_style w) (progress w) (Some job) w.

(** [on_error] and [on_finished]. *)
Definition on_error (error_msg : str) (w : MainWindow) : MainWindow :=
  with_batch true (lit "ERROR - Check log below")
    (lit "color: #e85d33; font-weight: 700; font-size: 16px;")
    (progress w) (worker w) w.

Definition on_finished (w : MainWindow) : MainWindow :=
  with_batch true (lit "COMPLETE!")
    (lit "color: #4CAF50; font-weight: 700; font-size: 16px;")
    100 (worker w) w.

(** What the user does in the library. *)
Inductive Action : Type :=
  | Click (i : nat)      (* a click on the thumbnail at place [i] *)
  | SelectAll
  | DeselectAll.

Definition perform (w : MainWindow) (a : Action) : MainWindow :=
  match a with
  | Click i => mousePressEvent i w
  | SelectAll => select_all_library w
  | DeselectAll => deselect_all_library w
  end.

(** The window once the thumbnails of [mockups] are in place. *)
Definition loaded (mockups : list str) (w : MainWindow) : MainWindow :=
  let '(ts, widgets) := register mockups [] ∅ in
  {| thumbnails := ts; thumbnail_widgets := widgets;
     selected_library_psds := ∅; psd_list := psd_list w;
     art_path := art_path w; art_path_style := art_path_style w;
     out_dir := out_dir w; out_dir_style := out_dir_style w;
     log := log w; status := status w; status_style := status_style w;
     progress := progress w; run_btn_enabled := run_btn_enabled w;
     worker := worker w |}.

(** The mark of every thumbnail agrees with the selection. *)
Definition in_sync (w : MainWindow) : Prop :=
  forall i t, thumbnails w !! i = Some t ->
    (is_selected t = true <-> psd_path t ∈ selected_library_psds w).

(** Every thumbnail is the one that the dictionary holds for its path. *)
Definition registered (w : MainWindow) : Prop :=
  (forall i t, thumbnails w !! i = Some t ->
     thumbnail_widgets w !! psd_path t = Some i)
  /\ (forall p i, thumbnail_widgets w !! p = Some i ->
        exists t, thumbnails w !! i = Some t /\ psd_path t = p).

(** The paths of the thumbnails that carry the mark. *)
Definition marked (w : MainWindow) : gset str :=
  list_to_set (psd_path <$> filter (fun t => is_selected t = true) (thumbnails w)).

(** Every path selected has a thumbnail in the dictionary. *)
Definition selection_known (w : MainWindow) : Prop :=
  forall p, p ∈ selected_library_psds w -> is_Some (thumbnail_widgets w !! p).

End gui.

(** ** More concrete worlds *)
Module Example.

(** A world without network: no URL answers. *)
Definition offline (w : Toy.toy_world) : Prop := Toy.reachable_urls w = [].

Definition unplugged : Toy.toy_world :=
  Toy.with_files Toy.no_photoshop
    {[ lit "app\mockup_library"; lit "app\mockup_library\_cache" ]}.

(** White space beyond ASCII, in UTF-8: U+3000 and U+00A0. *)
Definition ideographic_space : str :=
  [ascii_of_nat 227; ascii_of_nat 128; ascii_of_nat 128].
Definition no_break_space : str := [ascii_of_nat 194; ascii_of_nat 160].

(** A configuration file with a comment, a blank line and three sources,
    two of them with white space around them. *)
Definition plain_config : Toy.toy_world :=
  {| Toy.files := {[ lit "app\mockup_library"; lit "app\mockup_library\_cache";
                     lit "app\mockup_library\cloud_sources.txt" ]};
     Toy.photoshop_installed := true;
     Toy.failing_templates := [];
     Toy.reachable_urls := [];
     Toy.config_lines :=
       [ lit "# Cloud Mockup Library Configuration
";
         lit "
";
         lit "  https://example.com/mockups/design1.psd
";
         lit "   # https://example.com/mockups/old.psd
";
         lit "https://www.dropbox.com/s/abc123/mockup.psd?dl=1
";
         ideographic_space ++ lit "https://cdn.example.com/brand/box.psd"
           ++ no_break_space ++ lit "
" ] |}.

(** A world like the small one, in which nothing can be removed. *)
Definition permission_error : exn :=
  Exception (lit "PermissionError") (lit "[WinError 32] The file is in use").

Definition locked : Environment := {|
  World := Toy.toy_world;
  existing := Toy.files;
  Dispatch := Toy.toy_Dispatch;
  set_Visible := fun _ w => (None, w);
  DoJavaScript := Toy.toy_DoJavaScript;
  urlretrieve := Toy.toy_urlretrieve;
  rmtree := fun _ w => (Some permission_error, w);
  makedirs := Toy.toy_makedirs;
  read_lines := fun _ w => (Toy.config_lines w, None);
  write_text := Toy.toy_write_text;
  md5_hexdigest := Toy.toy_digest;
|}.

(** A world like the small one, whose digests are not made of
    hexadecimal digits: [c:] for one source and [_x] for all others. *)
Definition drive_url : str := lit "https://a.example.com/x.psd".
Definition plain_url : str := lit "https://b.example.com/download".

Definition odd_digests : Environment := {|
  World := Toy.toy_world;
  existing := Toy.files;
  Dispatch := Toy.toy_Dispatch;
  set_Visible := fun _ w => (None, w);
  DoJavaScript := Toy.toy_DoJavaScript;
  urlretrieve := Toy.toy_urlretrieve;
  rmtree := Toy.toy_rmtree;
  makedirs := Toy.toy_makedirs;
  read_lines := fun _ w => (Toy.config_lines w, None);
  write_text := Toy.toy_write_text;
  md5_hexdigest := fun url => if bool_decide (url = drive_url) then lit "c:" else lit "_x";
|}.

Definition library_on_c : MockupLibrary :=
  {| library_root := lit "c:\app\mockup_library";
     cache_dir := lit "c:\app\mockup_library\_cache";
     cloud_config_file := lit "c:\app\mockup_library\cloud_sources.txt";
     cloud_urls := [drive_url; plain_url] |}.

(** Two sources of one length that end in the same file name. *)
Definition mirror_a : str := lit "https://a.example.com/mockups/design1.psd".
Definition mirror_b : str := lit "https://b.example.com/mockups/design1.psd".

(** A batch without templates. *)
Definition no_templates : Job := Build_Job [] (lit "art\logo.png") (lit "out").


(** A library that is installed below a folder whose name contains
    [_cache], and a walk that finds one mockup in it. *)
Definition library_below_cache : MockupLibrary :=
  {| library_root := lit "home\my_cache\app\mockup_library";
     cache_dir := lit "home\my_cache\app\mockup_library\_cache";
     cloud_config_file := lit "home\my_cache\app\mockup_library\cloud_sources.txt";
     cloud_urls := [] |}.

Definition one_mockup (top : str) (w : Toy.toy_world)
    : list (str * list str * list str) :=
  [ (top, [lit "_cache"], [lit "front.psd"; lit "cloud_sources.txt"]);
    (top ++ lit "\_cache", [], []) ].

(** A window in which nothing has been entered. *)
Definition blank : gui.MainWindow :=
  {| gui.thumbnails := []; gui.thumbnail_widgets := ∅;
     gui.selected_library_psds := ∅; gui.psd_list := [];
     gui.art_path := []; gui.art_path_style := [];
     gui.out_dir := []; gui.out_dir_style := [];
     gui.log := []; gui.status := lit "Ready"; gui.status_style := [];
     gui.progress := 0; gui.run_btn_enabled := true; gui.worker := None |}.

Definition three_mockups : list str :=
  [ lit "lib\back.psd"; lit "lib\front.psd"; lit "lib\side.psd" ].

(** A catalogue in which a cached file is listed twice, as it is when one
    URL stands twice in the configuration. *)
Definition listed_twice : list str :=
  [ lit "lib\_cache\41.psd"; lit "lib\_cache\41.psd"; lit "lib\front.psd" ].

End Example.

(** * Properties *)

(** ** Strings *)

Lemma startswith_app (p s : str) : startswith p (p ++ s) = true.
Proof.
  induction p as [|a p IH]; simpl; [done|].
  rewrite bool_decide_eq_true_2 by done. exact IH.
Qed.

Lemma startswith_prefix (p s : str) :
  startswith p s = true -> exists t, s = p ++ t.
Proof.
  revert s. induction p as [|a p IH]; intros s Hs; simpl in *.
  - by exists s.
  - destruct s as [|b s]; [done|].
    apply andb_prop in Hs as [Hab Hs]. apply bool_decide_eq_true_1 in Hab as ->.
    destruct (IH _ Hs) as [t ->]. by exists t.
Qed.

Lemma startswith_single (c : ascii) (s : str) :
  startswith [c] s = true <-> exists t, s = c :: t.
Proof.
  split.
  - intros H. apply startswith_prefix in H as [t ->]. by exists t.
  - intros [t ->]. simpl. by rewrite bool_decide_eq_true_2.
Qed.

Lemma endswith_single_snoc (c : ascii) (s : str) : endswith [c] (s ++ [c]) = true.
Proof.
  unfold endswith. rewrite rev_app_distr. simpl. by rewrite bool_decide_eq_true_2.
Qed.

Lemma endswith_single (c : ascii) (s : str) :
  endswith [c] s = true <-> exists t, s = t ++ [c].
Proof.
  split.
  - unfold endswith. simpl. intros H.
    destruct (rev s) as [|b r] eqn:Hr; [done|].
    apply andb_prop in H as [Hb _]. apply bool_decide_eq_true_1 in Hb as <-.
    exists (rev r). rewrite <- (rev_involutive s), Hr. done.
  - intros [t ->]. apply endswith_single_snoc.
Qed.

(** ** Characters *)

Lemma skip_continuation_length (s : str) :
  (length (skip_continuation s) <= length s)%nat.
Proof.
  induction s as [|c t IH]; simpl; [lia|]. destruct (continuation c); simpl; lia.
Qed.

Lemma rest_of_char_length (c : ascii) (t : str) :
  (length (rest_of_char c t) <= length t)%nat.
Proof.
  unfold rest_of_char. destruct (is_ascii c); [lia|]. apply skip_continuation_length.
Qed.

Lemma skip_continuation_suffix (s : str) :
  exists a, s = a ++ skip_continuation s.
Proof.
  induction s as [|c t [a IH]]; simpl; [by exists []|].
  destruct (continuation c); [|by exists []].
  exists (c :: a). simpl. by rewrite <- IH.
Qed.

Lemma py_drop_suffix (n : nat) (s : str) : exists a, s = a ++ py_drop n s.
Proof.
  revert s. induction n as [|n IH]; intros s; simpl; [by exists []|].
  destruct s as [|c t]; [by exists []|].
  destruct (IH (rest_of_char c t)) as [a Ha].
  assert (exists b, t = b ++ rest_of_char c t) as [b Hb].
  { unfold rest_of_char. destruct (is_ascii c); [by exists []|].
    apply skip_continuation_suffix. }
  exists (c :: b ++ a). simpl. rewrite <- app_assoc, <- Ha. by rewrite <- Hb.
Qed.

Lemma py_take_drop (n : nat) (s : str) : py_take n s ++ py_drop n s = s.
Proof.
  unfold py_take. destruct (py_drop_suffix n s) as [a Ha].
  revert Ha. generalize (py_drop n s). intros r ->.
  rewrite length_app.
  replace (length a + length r - length r)%nat with (length a) by lia.
  by rewrite take_app_length.
Qed.

(** The characters of a string that goes on with an ASCII character. *)
Lemma skip_continuation_app (a : str) (x : ascii) (b : str) :
  continuation x = false ->
  skip_continuation (a ++ x :: b)
  = match skip_continuation a with
    | [] => x :: b
    | r => r ++ x :: b
    end.
Proof.
  intros Hx. induction a as [|c a IH]; simpl; [by rewrite Hx|].
  destruct (continuation c); [exact IH | done].
Qed.

Lemma char_starts_stale (s : str) :
  char_starts false s = char_starts true (skip_continuation s).
Proof.
  induction s as [|c t IH]; simpl; [done|].
  destruct (continuation c) eqn:E; simpl.
  - rewrite <- IH.
    assert (is_ascii c = false) as ->; [|done].
    unfold continuation, is_ascii in *.
    apply andb_prop in E as [E _]. apply Nat.leb_le in E. apply Nat.ltb_ge. lia.
  - rewrite ?E. done.
Qed.

Lemma py_len_cons (c : ascii) (t : str) :
  py_len (c :: t) = S (py_len (rest_of_char c t)).
Proof.
  unfold py_len, rest_of_char. simpl. destruct (is_ascii c); [done|].
  by rewrite char_starts_stale.
Qed.

Lemma py_drop_len (n : nat) (s : str) :
  py_len (py_drop n s) = (py_len s - n)%nat.
Proof.
  revert s. induction n as [|n IH]; intros s; simpl; [lia|].
  destruct s as [|c t]; [done|]. rewrite IH, py_len_cons. lia.
Qed.

Lemma py_len_nil (s : str) : py_len s = 0%nat <-> s = [].
Proof. destruct s; [done|]. rewrite py_len_cons. split; [lia | done]. Qed.

Lemma py_drop_all (n : nat) (s : str) : (py_len s <= n)%nat -> py_drop n s = [].
Proof. intros H. apply py_len_nil. rewrite py_drop_len. lia. Qed.

Lemma py_take_all (n : nat) (s : str) : (py_len s <= n)%nat -> py_take n s = s.
Proof.
  intros H. pose proof (py_take_drop n s) as E.
  rewrite (py_drop_all n s H), app_nil_r in E. exact E.
Qed.

(** Behind a string that ends a character, the characters of what follows
    are counted and cut on their own. *)
Lemma char_starts_app (fresh : bool) (a b : str) :
  (match b with x :: _ => continuation x = false | [] => True end) ->
  char_starts fresh (a ++ b) = (char_starts fresh a + char_starts true b)%nat.
Proof.
  intros Hb. revert fresh. induction a as [|c a IH]; intros fresh; simpl.
  - destruct b as [|x b]; [done|]. simpl. rewrite Hb. simpl.
    by rewrite orb_true_r.
  - rewrite IH. lia.
Qed.

Lemma py_len_app (a b : str) :
  (match b with x :: _ => continuation x = false | [] => True end) ->
  py_len (a ++ b) = (py_len a + py_len b)%nat.
Proof. apply char_starts_app. Qed.

Module ntpath_facts.
Import ntpath.

Local Abbreviation norm := (replace_char altsep sep).

(** *** Separators *)

Lemma is_sep_ascii (c : ascii) : is_sep c = true -> is_ascii c = true.
Proof.
  unfold is_sep. intros H. apply orb_prop in H as [H|H];
    apply bool_decide_eq_true_1 in H; subst c; reflexivity.
Qed.

Lemma is_sep_not_continuation (c : ascii) : is_sep c = true -> continuation c = false.
Proof.
  unfold is_sep. intros H. apply orb_prop in H as [H|H];
    apply bool_decide_eq_true_1 in H; subst c; reflexivity.
Qed.

Lemma is_sep_not_colon (c : ascii) : is_sep c = true -> c <> colon.
Proof. intros H ->. discriminate H. Qed.

Lemma norm_char_sep (c : ascii) :
  (if bool_decide (c = altsep) then sep else c) = sep <-> is_sep c = true.
Proof.
  unfold is_sep. case_bool_decide as E.
  - subst c. split; [done|done].
  - rewrite orb_false_r. split.
    + intros ->. by rewrite bool_decide_eq_true_2.
    + intros H. by apply bool_decide_eq_true_1 in H.
Qed.

Lemma norm_app (a b : str) : norm (a ++ b) = norm a ++ norm b.
Proof. apply map_app. Qed.

Lemma norm_length (s : str) : length (norm s) = length s.
Proof. apply length_map. Qed.

(** *** The two tests of [splitdrive] *)

Lemma unc_start_spec (p : str) :
  bool_decide (take 2 (norm p) = [sep; sep]) = unc_start p.
Proof.
  destruct p as [|a [|b t]]; [by apply bool_decide_eq_false_2..|].
  cbn [norm replace_char map take unc_start].
  destruct (is_sep a) eqn:Ea; destruct (is_sep b) eqn:Eb; cbn [andb].
  - apply bool_decide_eq_true_2.
    apply norm_char_sep in Ea, Eb. by rewrite Ea, Eb.
  - apply bool_decide_eq_false_2. intros H. injection H as _ H.
    apply norm_char_sep in H. congruence.
  - apply bool_decide_eq_false_2. intros H. injection H as H _.
    apply norm_char_sep in H. congruence.
  - apply bool_decide_eq_false_2. intros H. injection H as H _.
    apply norm_char_sep in H. congruence.
Qed.

Lemma py_take_1_ascii (x : ascii) (t : str) :
  is_ascii x = true -> py_take 1 (x :: t) = [x].
Proof.
  intros Hx. pose proof (py_take_drop 1 (x :: t)) as E.
  cbn [py_drop] in E. unfold rest_of_char in E. rewrite Hx in E.
  change (x :: t) with ([x] ++ t) in E at 2. by apply app_inv_tail in E.
Qed.

Lemma py_take_1_head (x : ascii) (t : str) : exists u, py_take 1 (x :: t) = x :: u.
Proof.
  pose proof (py_take_drop 1 (x :: t)) as E. cbn [py_drop] in E.
  pose proof (rest_of_char_length x t) as L.
  destruct (py_take 1 (x :: t)) as [|y u].
  - simpl in E. rewrite E in L. simpl in L. lia.
  - injection E as -> _. by exists u.
Qed.

Lemma starts_colon_spec (s : str) :
  bool_decide (py_take 1 s = [colon]) = startswith [colon] s.
Proof.
  destruct s as [|x t]; [by apply bool_decide_eq_false_2|].
  cbn [startswith]. rewrite andb_true_r.
  destruct (decide (colon = x)) as [<-|E].
  - rewrite py_take_1_ascii by done. by rewrite !bool_decide_eq_true_2.
  - rewrite (bool_decide_eq_false_2 (colon = x)) by done.
    apply bool_decide_eq_false_2. intros H.
    destruct (py_take_1_head x t) as [u Hu]. congruence.
Qed.

Lemma norm_skip_continuation (s : str) :
  skip_continuation (norm s) = norm (skip_continuation s).
Proof.
  induction s as [|c t IH]; [done|]. cbn [norm replace_char map skip_continuation].
  case_bool_decide as E.
  - subst c. done.
  - destruct (continuation c); [exact IH | cbn; by rewrite bool_decide_eq_false_2].
Qed.

Lemma norm_rest_of_char (c : ascii) (t : str) :
  rest_of_char (if bool_decide (c = altsep) then sep else c) (norm t)
  = norm (rest_of_char c t).
Proof.
  unfold rest_of_char. case_bool_decide as E.
  - subst c. done.
  - destruct (is_ascii c); [done|]. apply norm_skip_continuation.
Qed.

Lemma colon_not_sep : colon <> sep /\ colon <> altsep.
Proof.
  split; intros H; apply (f_equal nat_of_ascii) in H; vm_compute in H; discriminate H.
Qed.

Lemma norm_starts_colon (s : str) :
  startswith [colon] (norm s) = startswith [colon] s.
Proof.
  destruct s as [|x t]; [done|]. cbn [norm replace_char map startswith].
  destruct colon_not_sep as [H1 H2].
  destruct (decide (x = altsep)) as [->|E].
  - rewrite (bool_decide_eq_true_2 (altsep = altsep)) by done.
    by rewrite !bool_decide_eq_false_2.
  - by rewrite (bool_decide_eq_false_2 (x = altsep)).
Qed.

Lemma second_colon_spec (p : str) :
  bool_decide (py_take 1 (py_drop 1 (norm p)) = [colon]) = second_colon p.
Proof.
  destruct p as [|c t]; [done|].
  cbn [norm replace_char map py_drop second_colon].
  rewrite starts_colon_spec. fold (norm t).
  rewrite norm_rest_of_char. apply norm_starts_colon.
Qed.

Lemma short_no_drive (p : str) :
  (py_len p < 2)%nat -> unc_start p = false /\ second_colon p = false.
Proof.
  destruct p as [|c t]; [done|]. rewrite py_len_cons. intros H.
  assert (E : rest_of_char c t = []) by (apply py_len_nil; lia).
  split.
  - destruct t as [|b t]; [done|]. cbn [unc_start].
    destruct (is_sep c) eqn:Ec; [|done].
    unfold rest_of_char in E. by rewrite (is_sep_ascii c Ec) in E.
  - cbn [second_colon]. by rewrite E.
Qed.

(** [splitdrive], with its two tests spelled out. *)
Lemma splitdrive_unfold (p : str) :
  splitdrive p =
    if unc_start p then
      let normp := norm p in
      let start := if bool_decide (upper (take 8 normp) = unc_prefix) then 8 else 2 in
      let index := find sep start normp in
      if index =? -1 then (p, [])
      else
        let index2 := find sep (index + 1) normp in
        if index2 =? -1 then (p, []) else (upto index2 p, from index2 p)
    else if second_colon p then (py_take 2 p, py_drop 2 p)
    else ([], p).
Proof.
  unfold splitdrive. rewrite unc_start_spec, second_colon_spec.
  destruct (2 <=? py_len p)%nat eqn:E; [done|].
  apply Nat.leb_gt in E. destruct (short_no_drive p E) as [-> ->]. done.
Qed.

Lemma splitdrive_app (p : str) :
  fst (splitdrive p) ++ snd (splitdrive p) = p.
Proof.
  rewrite splitdrive_unfold. destruct (unc_start p).
  - cbv zeta. destruct (_ =? -1); [apply app_nil_r|].
    destruct (_ =? -1); [apply app_nil_r|]. apply take_drop.
  - destruct (second_colon p); [apply py_take_drop | done].
Qed.

(** *** Drive letters *)

Lemma skip_continuation_colon (t r : str) :
  skip_continuation t = colon :: r ->
  exists u, t = u ++ colon :: r
            /\ forall r', skip_continuation (u ++ colon :: r') = colon :: r'.
Proof.
  induction t as [|c t IH]; [done|]. cbn [skip_continuation].
  destruct (continuation c) eqn:E.
  - intros H. destruct (IH H) as (u & -> & Hu). exists (c :: u).
    split; [done|]. intros r'. cbn [app skip_continuation]. rewrite E. apply Hu.
  - intros H. injection H as -> ->. by exists [].
Qed.

Lemma rest_of_char_colon (c : ascii) (t r : str) :
  rest_of_char c t = colon :: r ->
  exists u, t = u ++ colon :: r
            /\ forall r', rest_of_char c (u ++ colon :: r') = colon :: r'.
Proof.
  unfold rest_of_char. destruct (is_ascii c).
  - intros ->. by exists [].
  - apply skip_continuation_colon.
Qed.

Lemma letter_drive (p : str) :
  second_colon p = true ->
  exists c u r,
    p = c :: u ++ colon :: r
    /\ forall q, second_colon (c :: u ++ colon :: q) = true
                 /\ py_take 2 (c :: u ++ colon :: q) = c :: u ++ [colon]
                 /\ py_drop 2 (c :: u ++ colon :: q) = q.
Proof.
  destruct p as [|c t]; [done|]. cbn [second_colon]. intros H.
  apply startswith_single in H as [r Hr].
  destruct (rest_of_char_colon c t r Hr) as (u & -> & Hu).
  exists c, u, r. split; [done|]. intros q.
  assert (Hd : py_drop 2 (c :: u ++ colon :: q) = q).
  { cbn [py_drop]. by rewrite Hu. }
  split; [|split; [|exact Hd]].
  - cbn [second_colon]. rewrite Hu. cbn. by rewrite bool_decide_eq_true_2.
  - pose proof (py_take_drop 2 (c :: u ++ colon :: q)) as E. rewrite Hd in E.
    change (c :: u ++ colon :: q) with ((c :: u) ++ [colon] ++ q) in E at 2.
    rewrite app_assoc in E. by apply app_inv_tail in E.
Qed.

(** A drive letter is split off whatever follows it. *)
Lemma letter_stable (p : str) :
  unc_start p = false -> second_colon p = true ->
  splitdrive p = (py_take 2 p, py_drop 2 p)
  /\ endswith [colon] (py_take 2 p) = true
  /\ forall q, splitdrive (py_take 2 p ++ q) = (py_take 2 p, q).
Proof.
  intros Hunc Hcolon. split; [by rewrite splitdrive_unfold, Hunc, Hcolon|].
  destruct (letter_drive p Hcolon) as (c & u & r & -> & Hq).
  destruct (Hq r) as (_ & -> & _). split.
  - change (c :: u ++ [colon]) with ((c :: u) ++ [colon]). apply endswith_single_snoc.
  - intros q. destruct (Hq q) as (H2 & Ht & Hd).
    replace ((c :: u ++ [colon]) ++ q) with (c :: u ++ colon :: q)
      by (cbn; by rewrite <- app_assoc).
    rewrite splitdrive_unfold, H2, Ht, Hd.
    assert (unc_start (c :: u ++ colon :: q) = false) as ->; [|done].
    destruct u as [|b u]; [|exact Hunc]. cbn.
    destruct (is_sep c); [|done]. done.
Qed.

(** *** [find] *)

Lemma index_of_bound (c : ascii) (s : str) (i : nat) :
  index_of c s = Some i -> (i < length s)%nat /\ s !! i = Some c.
Proof.
  revert i. induction s as [|x t IH]; intros i; [done|]. cbn [index_of].
  case_bool_decide as E.
  - intros [= <-]. subst x. simpl. split; [lia | done].
  - destruct (index_of c t) as [j|]; [|done]. intros [= <-].
    destruct (IH j eq_refl). simpl. split; [lia | done].
Qed.

Lemma index_of_app (c : ascii) (a b : str) :
  index_of c (a ++ b)
  = match index_of c a with
    | Some i => Some i
    | None => (fun i => length a + i)%nat <$> index_of c b
    end.
Proof.
  induction a as [|x a IH]; cbn [app index_of length].
  - by destruct (index_of c b).
  - case_bool_decide; [done|]. rewrite IH.
    destruct (index_of c a); [done|]. by destruct (index_of c b).
Qed.

Lemma find_inside (c : ascii) (start i : Z) (a b b' : str) :
  0 <= start -> find c start (a ++ b) = i -> 0 <= i < Z.of_nat (length a) ->
  find c start (a ++ b') = i.
Proof.
  intros Hs Hf Hi. unfold find, from in *.
  destruct (decide (Z.to_nat start <= length a)%nat) as [Hle|Hgt].
  - rewrite drop_app_le in * by done. rewrite index_of_app in *.
    destruct (index_of c (drop (Z.to_nat start) a)) as [k|]; [done|].
    exfalso. rewrite length_drop in Hf.
    destruct (index_of c b) as [k|]; cbn in Hf; lia.
  - exfalso. destruct (index_of c (drop (Z.to_nat start) (a ++ b))) as [k|]; lia.
Qed.

Lemma find_boundary (c : ascii) (start : Z) (a b b' : str) :
  0 <= start -> find c start (a ++ b) = Z.of_nat (length a) ->
  start <= Z.of_nat (length a) ->
  find c start (a ++ c :: b') = Z.of_nat (length a).
Proof.
  intros Hs Hf Hi. unfold find, from in *.
  rewrite drop_app_le in * by lia. rewrite index_of_app in *.
  destruct (index_of c (drop (Z.to_nat start) a)) as [k|] eqn:E.
  - apply index_of_bound in E as [E _]. rewrite length_drop in E. lia.
  - cbn [index_of]. rewrite bool_decide_eq_true_2 by done. cbn.
    rewrite length_drop. lia.
Qed.

Lemma find_bound (c : ascii) (start i : Z) (s : str) :
  0 <= start -> find c start s = i -> i <> -1 ->
  start <= i < Z.of_nat (length s) /\ s !! Z.to_nat i = Some c.
Proof.
  intros Hs Hf Hi. unfold find, from in Hf.
  destruct (index_of c (drop (Z.to_nat start) s)) as [k|] eqn:E; [|done].
  apply index_of_bound in E as [E1 E2]. rewrite length_drop in E1.
  unfold str in *. rewrite lookup_drop in E2. subst i. split; [lia|].
  by replace (Z.to_nat (start + Z.of_nat k)) with (Z.to_nat start + k)%nat by lia.
Qed.

(** *** UNC drives *)

Lemma norm_lookup_sep (s : str) (i : nat) :
  norm s !! i = Some sep -> exists x, s !! i = Some x /\ is_sep x = true.
Proof.
  unfold replace_char, str in *. rewrite list_lookup_fmap.
  destruct (s !! i) as [x|]; [|done]. cbn. intros [= H].
  exists x. split; [done|]. by apply norm_char_sep.
Qed.

Lemma norm_sep_char (y : ascii) (q : str) :
  is_sep y = true -> norm (y :: q) = sep :: norm q.
Proof.
  intros Hy. cbn [replace_char map]. f_equal. by apply norm_char_sep.
Qed.

Lemma unc_start_app (a b b' : str) :
  (2 <= length a)%nat -> unc_start (a ++ b) = unc_start (a ++ b').
Proof. destruct a as [|x [|y a]]; simpl; intros; [lia|lia|done]. Qed.

Local Abbreviation m8 s := (bool_decide (upper (take 8 s) = unc_prefix)).

Lemma m8_stable (a x x' : str) :
  (7 <= length a)%nat -> m8 (a ++ sep :: x) = m8 (a ++ sep :: x').
Proof.
  intros Ha. destruct (decide (8 <= length a)%nat) as [H8|H7].
  - by rewrite !take_app_le by done.
  - rewrite !take_app_ge by lia.
    by replace (8 - length a)%nat with 1%nat by lia.
Qed.

Lemma m8_short (a x : str) :
  (3 <= length a <= 6)%nat -> (length a = 3%nat -> a !! 2%nat = Some sep) ->
  m8 (a ++ sep :: x) = false.
Proof.
  intros Ha H3. apply bool_decide_eq_false_2. intros H.
  destruct a as [|a0 [|a1 [|a2 [|a3 [|a4 [|a5 [|a6 a']]]]]]];
    cbn [length] in Ha; try lia.
  - specialize (H3 eq_refl). injection H3 as ->.
    apply (f_equal (fun l => nth 2 l "x"%char)) in H. vm_compute in H. discriminate H.
  - apply (f_equal (fun l => nth 4 l "x"%char)) in H. vm_compute in H. discriminate H.
  - apply (f_equal (fun l => nth 5 l "x"%char)) in H. vm_compute in H. discriminate H.
  - apply (f_equal (fun l => nth 6 l "x"%char)) in H. vm_compute in H. discriminate H.
Qed.

(** A UNC drive is the whole path, or it ends in front of a separator and
    is split off whatever follows it from a separator on. *)
Lemma unc_drive (p : str) :
  unc_start p = true ->
  splitdrive p = (p, [])
  \/ exists n, splitdrive p = (take n p, drop n p)
               /\ starts_with_sep (drop n p) = true
               /\ (3 <= n)%nat
               /\ forall q, starts_with_sep q = true ->
                            splitdrive (take n p ++ q) = (take n p, q).
Proof.
  intros Hunc. rewrite splitdrive_unfold, Hunc. cbv zeta.
  set (normp := norm p).
  set (start := if m8 normp then 8 else 2).
  assert (Hstart : 2 <= start) by (unfold start; destruct (m8 normp); lia).
  destruct (find sep start normp =? -1) eqn:E1; [by left|].
  destruct (find sep (find sep start normp + 1) normp =? -1) eqn:E2; [by left|].
  right. apply Z.eqb_neq in E1, E2.
  destruct (find_bound sep start _ normp ltac:(lia) eq_refl E1) as [Hi _].
  destruct (find_bound sep (find sep start normp + 1) _ normp ltac:(lia) eq_refl E2)
    as [Hi2 Hsep].
  set (index := find sep start normp) in *.
  set (index2 := find sep (index + 1) normp) in *.
  set (n := Z.to_nat index2) in *.
  unfold normp in Hi2. rewrite norm_length in Hi2.
  destruct (norm_lookup_sep p n Hsep) as (x & Hx & Hxsep).
  assert (Hlen : length (take n p) = n) by (rewrite length_take; lia).
  assert (Hp : p = take n p ++ x :: drop (S n) p)
    by (symmetry; by apply take_drop_middle).
  assert (Hnorm : normp = norm (take n p) ++ sep :: norm (drop (S n) p)).
  { unfold normp. rewrite Hp at 1. by rewrite norm_app, norm_sep_char. }
  exists n. split; [reflexivity|]. split.
  { by rewrite (drop_S _ _ _ Hx). }
  split; [lia|]. intros [|y q] Hq; [done|]. cbn [starts_with_sep] in Hq.
  rewrite splitdrive_unfold.
  assert (unc_start (take n p ++ y :: q) = true) as ->.
  { rewrite <- Hunc.
    transitivity (unc_start (take n p ++ x :: drop (S n) p));
      [apply unc_start_app; lia | by rewrite <- Hp]. }
  cbv zeta. rewrite norm_app, (norm_sep_char y q Hq).
  assert (Hm : m8 (norm (take n p) ++ sep :: norm q) = m8 normp).
  { rewrite Hnorm. destruct (decide (7 <= n)%nat) as [H7|H6].
    - apply m8_stable. rewrite norm_length. lia.
    - assert (start = 2) as Hs2.
      { assert (start = 8 \/ start = 2) as [H8|H2]
          by (unfold start; destruct (m8 normp); auto); [lia | done]. }
      assert (H3 : length (norm (take n p)) = 3%nat ->
                   norm (take n p) !! 2%nat = Some sep).
      { rewrite norm_length, Hlen. intros Hn3.
        assert (index = 2) as Hidx by lia.
        destruct (find_bound sep start _ normp ltac:(lia) eq_refl E1) as [_ H].
        fold index in H. rewrite Hidx, Hnorm in H.
        unfold str in *. rewrite lookup_app_l in H; [exact H|].
        rewrite norm_length, Hlen. lia. }
      rewrite !m8_short; [done| | | |]; try exact H3;
        rewrite norm_length, Hlen; lia. }
  rewrite Hm. fold start.
  assert (Hidx : find sep start (norm (take n p) ++ sep :: norm q) = index).
  { apply (find_inside sep start index _ (sep :: norm (drop (S n) p))); [lia| |].
    - by rewrite <- Hnorm.
    - rewrite norm_length, Hlen. lia. }
  rewrite Hidx.
  assert (Hidx2 : find sep (index + 1) (norm (take n p) ++ sep :: norm q)
                  = Z.of_nat n).
  { pose proof (find_boundary sep (index + 1) (norm (take n p))
                  (sep :: norm (drop (S n) p)) (norm q) ltac:(lia)) as Hb.
    rewrite norm_length, Hlen in Hb.
    apply Hb; [rewrite <- Hnorm; fold index2; unfold n; lia | lia]. }
  rewrite Hidx2.
  replace (index =? -1) with false by (symmetry; apply Z.eqb_neq; lia).
  replace (Z.of_nat n =? -1) with false by (symmetry; apply Z.eqb_neq; lia).
  unfold upto, from. rewrite Nat2Z.id.
  by rewrite take_app_length', drop_app_length' by done.
Qed.

End ntpath_facts.

Module ntpath_split.
Import ntpath ntpath_facts.

(** *** The last separator *)

Lemma ends_with_sep_snoc (h : str) (s : ascii) : ends_with_sep (h ++ [s]) = is_sep s.
Proof. unfold ends_with_sep. by rewrite rev_app_distr. Qed.

Lemma ends_with_sep_spec (h : str) :
  ends_with_sep h = true <-> exists h0 s, h = h0 ++ [s] /\ is_sep s = true.
Proof.
  split.
  - destruct h as [|x h] using rev_ind; [done|].
    rewrite ends_with_sep_snoc. intros Hx. by exists h, x.
  - intros (h0 & s & -> & Hs). by rewrite ends_with_sep_snoc.
Qed.

Lemma sepfree_beyond (f : str) : sepfree f -> beyond_last_sep f = 0%nat.
Proof.
  induction 1 as [|x f Hx _ IH]; [done|]. cbn [beyond_last_sep]. by rewrite IH, Hx.
Qed.

Lemma beyond_last_sep_snoc (h : str) (s : ascii) (f : str) :
  is_sep s = true -> sepfree f -> beyond_last_sep (h ++ s :: f) = S (length h).
Proof.
  intros Hs Hf. induction h as [|x h IH]; cbn [app beyond_last_sep length].
  - by rewrite (sepfree_beyond f Hf), Hs.
  - by rewrite IH.
Qed.

Lemma beyond_last_sep_app (h f : str) :
  sepfree f -> h = [] \/ ends_with_sep h = true ->
  beyond_last_sep (h ++ f) = length h.
Proof.
  intros Hf [->|Hh]; [by apply sepfree_beyond|].
  apply ends_with_sep_spec in Hh as (h0 & s & -> & Hs).
  rewrite <- app_assoc. cbn [app]. rewrite beyond_last_sep_snoc by done.
  rewrite length_app. simpl. lia.
Qed.

(** A path splits at its last separator into a head that is empty or ends
    in a separator, and a tail without separators. *)
Lemma beyond_last_sep_spec (r : str) :
  let i := beyond_last_sep r in
  sepfree (drop i r) /\ (take i r = [] \/ ends_with_sep (take i r) = true).
Proof.
  induction r as [|x t [IH1 IH2]]; cbn [beyond_last_sep].
  - split; [constructor | by left].
  - destruct (beyond_last_sep t) as [|j] eqn:E.
    + destruct (is_sep x) eqn:Ex.
      * split; [exact IH1|]. right. change (take 1 (x :: t)) with ([] ++ [x]).
        by rewrite ends_with_sep_snoc.
      * split; [by constructor | by left].
    + split; [exact IH1|]. right. cbn [take].
      destruct IH2 as [H|H]; [by destruct t|].
      apply ends_with_sep_spec in H as (h0 & s & H & Hs).
      apply ends_with_sep_spec. exists (x :: h0), s. by rewrite H.
Qed.

(** *** [rstrip] of separators *)

Lemma rstrip_seps_snoc_sep (h : str) (s : ascii) :
  is_sep s = true -> rstrip_seps (h ++ [s]) = rstrip_seps h.
Proof.
  intros Hs. induction h as [|x h IH]; cbn [app rstrip_seps].
  - by rewrite Hs.
  - by rewrite IH.
Qed.

Lemma rstrip_seps_snoc_other (h : str) (x : ascii) :
  is_sep x = false -> rstrip_seps (h ++ [x]) = h ++ [x].
Proof.
  intros Hx. induction h as [|y h IH]; cbn [app rstrip_seps].
  - by rewrite Hx.
  - rewrite IH. by destruct h.
Qed.

Lemma rstrip_seps_prefix (h : str) : exists z, h = rstrip_seps h ++ z.
Proof.
  induction h as [|s h [z IH]] using rev_ind; [by exists []|].
  destruct (is_sep s) eqn:Hs.
  - rewrite rstrip_seps_snoc_sep by done. exists (z ++ [s]).
    rewrite app_assoc. by rewrite <- IH.
  - rewrite rstrip_seps_snoc_other by done. exists []. by rewrite app_nil_r.
Qed.

Lemma rstrip_seps_ends (h : str) : ends_with_sep (rstrip_seps h) = false.
Proof.
  induction h as [|s h IH] using rev_ind; [done|].
  destruct (is_sep s) eqn:Hs.
  - by rewrite rstrip_seps_snoc_sep.
  - rewrite rstrip_seps_snoc_other by done. by rewrite ends_with_sep_snoc.
Qed.

(** *** [strip_head] and [with_sep] *)

Lemma strip_head_prefix (h : str) : exists z, h = strip_head h ++ z.
Proof.
  unfold strip_head. destruct (rstrip_seps_prefix h) as [z Hz].
  destruct (rstrip_seps h); [exists []; by rewrite app_nil_r | by exists z].
Qed.

Lemma strip_head_nonempty (h : str) : h <> [] -> strip_head h <> [].
Proof. unfold strip_head. by destruct (rstrip_seps h). Qed.

Lemma strip_head_starts (h : str) :
  starts_with_sep (strip_head h) = starts_with_sep h.
Proof.
  destruct (strip_head_prefix h) as [z Hz].
  destruct h as [|x h]; [done|].
  pose proof (strip_head_nonempty (x :: h) ltac:(done)) as Hne.
  destruct (strip_head (x :: h)) as [|y t]; [done|]. by injection Hz as -> _.
Qed.

Lemma with_sep_ends (rp : str) :
  with_sep rp = [] \/ ends_with_sep (with_sep rp) = true.
Proof.
  unfold with_sep. destruct rp as [|x rp]; [by left|]. right. cbn [nonempty andb].
  destruct (ends_with_sep (x :: rp)) eqn:E; cbn [negb]; [exact E|].
  by rewrite ends_with_sep_snoc.
Qed.

Lemma with_sep_starts (rp : str) :
  rp <> [] -> starts_with_sep (with_sep rp) = starts_with_sep rp.
Proof.
  unfold with_sep. destruct rp as [|x rp]; [done|]. intros _.
  by destruct (nonempty _ && _).
Qed.

Lemma with_sep_nonempty (rp : str) : rp <> [] -> with_sep rp <> [].
Proof.
  unfold with_sep. destruct rp as [|x rp]; [done|]. intros _.
  by destruct (nonempty _ && _).
Qed.

Lemma strip_head_with_sep (rp : str) : strip_head (with_sep rp) = strip_head rp.
Proof.
  unfold with_sep. destruct rp as [|x rp] using rev_ind; [done|].
  assert (nonempty (rp ++ [x]) = true) as -> by (by destruct rp).
  rewrite ends_with_sep_snoc. destruct (is_sep x) eqn:Hx; cbn [andb negb]; [done|].
  unfold strip_head.
  rewrite (rstrip_seps_snoc_sep (rp ++ [x]) sep) by done.
  rewrite rstrip_seps_snoc_other by done. by destruct rp.
Qed.

Lemma strip_head_idem (h : str) : strip_head (strip_head h) = strip_head h.
Proof.
  assert (H : strip_head h = match rstrip_seps h with [] => h | x => x end) by done.
  pose proof (rstrip_seps_ends h) as He.
  destruct (rstrip_seps h) as [|y t] eqn:E; rewrite !H; [done|].
  destruct t as [|z t _] using rev_ind.
  - unfold strip_head. change (rstrip_seps [y]) with (if is_sep y then [] else [y]).
    by destruct (is_sep y).
  - change (y :: t ++ [z]) with ((y :: t) ++ [z]) in *.
    rewrite ends_with_sep_snoc in He. unfold strip_head.
    rewrite rstrip_seps_snoc_other by done. by destruct t.
Qed.

(** *** The two tests on a path that is put together *)

Lemma sepfree_starts (f : str) : sepfree f -> starts_with_sep f = false.
Proof. by destruct 1. Qed.

Lemma unc_start_prefix (h z : str) : unc_start (h ++ z) = false -> unc_start h = false.
Proof. by destruct h as [|a [|b h]]. Qed.

Lemma unc_start_relative (f : str) : starts_with_sep f = false -> unc_start f = false.
Proof. destruct f as [|x [|y f]]; try done. cbn. by intros ->. Qed.

Lemma second_colon_app (h z : str) :
  second_colon h = true -> second_colon (h ++ z) = true.
Proof.
  intros H. destruct (letter_drive h H) as (c & u & r & -> & Hq).
  replace ((c :: u ++ colon :: r) ++ z) with (c :: u ++ colon :: (r ++ z))
    by (cbn; by rewrite <- app_assoc).
  by destruct (Hq (r ++ z)).
Qed.

Lemma second_colon_prefix (h z : str) :
  second_colon (h ++ z) = false -> second_colon h = false.
Proof.
  intros H. destruct (second_colon h) eqn:E; [|done].
  by rewrite (second_colon_app h z E) in H.
Qed.

Lemma skip_continuation_plain (a : str) (s : ascii) (x : str) :
  continuation s = false -> s <> colon ->
  startswith [colon] (skip_continuation (a ++ s :: x))
  = startswith [colon] (skip_continuation a).
Proof.
  intros Hs Hc. rewrite skip_continuation_app by done.
  destruct (skip_continuation a) as [|y r]; [|done].
  cbn. rewrite bool_decide_eq_false_2; [done|]. congruence.
Qed.

(** Behind a path that is not empty, an ASCII character other than the
    colon, and what follows it, do not change the second character. *)
Lemma second_colon_plain (a : str) (s : ascii) (x : str) :
  a <> [] -> continuation s = false -> s <> colon ->
  second_colon (a ++ s :: x) = second_colon a.
Proof.
  intros Ha Hs Hc. destruct a as [|c t]; [done|]. cbn [app second_colon].
  unfold rest_of_char. destruct (is_ascii c).
  - destruct t as [|b t]; cbn; [|done].
    rewrite bool_decide_eq_false_2; [done|]. congruence.
  - by apply skip_continuation_plain.
Qed.

Lemma second_colon_sep (a : str) (s : ascii) (x : str) :
  a <> [] -> is_sep s = true -> second_colon (a ++ s :: x) = second_colon a.
Proof.
  intros Ha Hs. apply second_colon_plain; [done| |].
  - by apply is_sep_not_continuation.
  - by apply is_sep_not_colon.
Qed.

Lemma unc_start_extends (h z : str) : unc_start h = true -> unc_start (h ++ z) = true.
Proof. by destruct h as [|a [|b h]]. Qed.

Lemma no_drive_tests (p : str) :
  fst (splitdrive p) = [] -> unc_start p = false /\ second_colon p = false.
Proof.
  intros H. destruct (unc_start p) eqn:Hunc.
  - exfalso. destruct (unc_drive p Hunc) as [E | (n & E & _ & Hn & _)];
      rewrite E in H; cbn in H.
    + subst p. done.
    + destruct n as [|n]; [lia|]. destruct p as [|a p]; [done|]. discriminate H.
  - split; [done|]. destruct (second_colon p) eqn:Hc; [|done]. exfalso.
    destruct (letter_stable p Hunc Hc) as (E & _).
    destruct (letter_drive p Hc) as (c & u & r & -> & Hq).
    destruct (Hq r) as (_ & Ht & _). rewrite E, Ht in H. done.
Qed.

Lemma unc_start_with_sep (a f : str) :
  unc_start a = false -> f <> [] -> starts_with_sep f = false ->
  unc_start (with_sep a ++ f) = false.
Proof.
  intros Ha Hne Hf. unfold with_sep. destruct a as [|c [|b a]].
  - cbn. by apply unc_start_relative.
  - cbn [nonempty andb]. change (ends_with_sep [c]) with (is_sep c).
    destruct f as [|y f]; [done|]. cbn in Hf.
    destruct (is_sep c) eqn:Ec; cbn; rewrite ?Ec, ?Hf; done.
  - by destruct (nonempty _ && _).
Qed.

Lemma second_colon_with_sep (a f : str) :
  second_colon a = false -> second_colon f = false ->
  (forall s, a = [s] -> is_sep s = true -> startswith [colon] f = false) ->
  second_colon (with_sep a ++ f) = false.
Proof.
  intros Ha Hf Hone. unfold with_sep.
  destruct a as [|x a _] using rev_ind; [done|].
  assert (nonempty (a ++ [x]) = true) as -> by (by destruct a).
  rewrite ends_with_sep_snoc. destruct (is_sep x) eqn:Hx; cbn [andb negb].
  - destruct a as [|c a].
    + cbn [app second_colon]. unfold rest_of_char.
      rewrite (is_sep_ascii x Hx). by apply (Hone x).
    + rewrite <- app_assoc. change ([x] ++ f) with (x :: f).
      rewrite (second_colon_sep (c :: a) x f) by done.
      rewrite <- (second_colon_sep (c :: a) x []) by done. exact Ha.
  - rewrite <- app_assoc. change ([sep] ++ f) with (sep :: f).
    rewrite (second_colon_sep (a ++ [x]) sep f); [exact Ha|by destruct a|done].
Qed.

(** *** [join] with a relative name *)

Lemma relative_no_drive (f : str) :
  starts_with_sep f = false -> second_colon f = false -> splitdrive f = ([], f).
Proof.
  intros Hf Hc. by rewrite splitdrive_unfold, (unc_start_relative f Hf), Hc.
Qed.

Lemma join_relative (a f : str) :
  f <> [] -> starts_with_sep f = false -> second_colon f = false ->
  let d := fst (splitdrive a) in
  let rp := snd (splitdrive a) in
  d = [] \/ endswith [colon] d = true \/ starts_with_sep rp = true ->
  join a f = d ++ with_sep rp ++ f.
Proof.
  intros Hne Hf Hc d rp Hd. unfold join. subst d rp.
  rewrite (relative_no_drive f Hf Hc). destruct (splitdrive a) as [d rp].
  cbn [fst snd] in *. rewrite Hf, andb_false_r. cbn [nonempty andb].
  cbv beta zeta.
  assert (nonempty (with_sep rp ++ f) = true) as ->.
  { destruct (with_sep rp); [by destruct f | done]. }
  assert (E : negb (starts_with_sep (with_sep rp ++ f)) && nonempty d
              && negb (endswith [colon] d) = false).
  { destruct Hd as [->|[Hd|Hd]].
    - by rewrite andb_false_r.
    - by rewrite Hd, andb_false_r.
    - destruct rp as [|x rp]; [done|].
      pose proof (with_sep_starts (x :: rp) ltac:(done)) as Hs.
      pose proof (with_sep_nonempty (x :: rp) ltac:(done)) as Hn.
      destruct (with_sep (x :: rp)) as [|y w]; [done|].
      cbn [app starts_with_sep] in *. by rewrite Hs, Hd. }
  cbn [andb]. by rewrite E.
Qed.

(** *** [split] of a joined path *)

Lemma split_behind_drive (d w f : str) :
  splitdrive (d ++ w ++ f) = (d, w ++ f) -> sepfree f ->
  w = [] \/ ends_with_sep w = true ->
  split (d ++ w ++ f) = (d ++ strip_head w, f).
Proof.
  intros Hd Hf Hw. unfold split. rewrite Hd.
  rewrite (beyond_last_sep_app w f Hf Hw).
  by rewrite take_app_length, drop_app_length.
Qed.

(** A relative file name joined to a directory: the name is put behind the
    directory, and the path so made splits into the two again.  The
    directory must not be a bare UNC drive. *)
Lemma split_join (a f : str) :
  f <> [] -> sepfree f -> second_colon f = false ->
  (unc_start a = true -> snd (splitdrive a) <> []) ->
  (unc_start a = false -> second_colon a = false ->
   second_colon (with_sep a ++ f) = false) ->
  let d := fst (splitdrive a) in
  let rp := snd (splitdrive a) in
  join a f = d ++ with_sep rp ++ f
  /\ split (join a f) = (d ++ strip_head rp, f).
Proof.
  intros Hne Hf Hc Hbare Hsecond d rp.
  pose proof (sepfree_starts f Hf) as Hstart.
  assert (Hsplit : splitdrive (d ++ with_sep rp ++ f) = (d, with_sep rp ++ f)
                   /\ (d = [] \/ endswith [colon] d = true
                       \/ starts_with_sep rp = true)).
  { subst d rp. destruct (unc_start a) eqn:Hunc.
    - destruct (unc_drive a Hunc) as [E | (n & E & Hsep & _ & Hstable)].
      + rewrite E in Hbare. by destruct (Hbare eq_refl).
      + rewrite E. cbn [fst snd]. split; [|auto].
        apply Hstable.
        destruct (drop n a) as [|x r] eqn:Er; [done|].
        pose proof (with_sep_starts (x :: r) ltac:(done)) as Hs.
        pose proof (with_sep_nonempty (x :: r) ltac:(done)) as Hn.
        destruct (with_sep (x :: r)) as [|y w]; [done|]. cbn in *. congruence.
    - destruct (second_colon a) eqn:Hcolon.
      + destruct (letter_stable a Hunc Hcolon) as (E & Hend & Hstable).
        rewrite E. cbn [fst snd]. split; [apply Hstable | auto].
      + assert (E : splitdrive a = ([], a))
          by (by rewrite splitdrive_unfold, Hunc, Hcolon).
        rewrite E. cbn [fst snd app]. split; [|auto].
        rewrite splitdrive_unfold.
        rewrite (unc_start_with_sep a f Hunc Hne Hstart).
        by rewrite (Hsecond eq_refl eq_refl). }
  destruct Hsplit as [Hsplit Hd].
  pose proof (join_relative a f Hne Hstart Hc Hd) as Hjoin.
  fold d rp in Hjoin. split; [exact Hjoin|]. rewrite Hjoin.
  rewrite (split_behind_drive d (with_sep rp) f Hsplit Hf (with_sep_ends rp)).
  by rewrite strip_head_with_sep.
Qed.

End ntpath_split.

Module ntpath_names.
Import ntpath ntpath_facts ntpath_split.

(** *** [rfind] *)

Lemma rfind_lower (c : ascii) (s : str) : -1 <= rfind c s.
Proof.
  induction s as [|x t IH]; simpl; [lia|].
  destruct (0 <=? rfind c t) eqn:E; [lia|]. case_bool_decide; lia.
Qed.

Lemma rfind_absent (c : ascii) (s : str) : c ∉ s -> rfind c s = -1.
Proof.
  induction s as [|x t IH]; intros Hc; simpl; [done|].
  apply not_elem_of_cons in Hc as [Hx Ht].
  rewrite (IH Ht). simpl. by rewrite bool_decide_eq_false_2.
Qed.

Lemma rfind_last (c : ascii) (a b : str) :
  c ∉ b -> rfind c (a ++ c :: b) = Z.of_nat (length a).
Proof.
  intros Hb. induction a as [|x a IH]; simpl.
  - rewrite (rfind_absent _ _ Hb). simpl. by rewrite bool_decide_eq_true_2.
  - rewrite IH. destruct (0 <=? Z.of_nat (length a)) eqn:E; lia.
Qed.

(** A string either lacks [c], or splits at its last [c]. *)
Lemma last_occurrence (c : ascii) (s : str) :
  c ∉ s \/ exists a b, s = a ++ c :: b /\ c ∉ b.
Proof.
  induction s as [|x t IH].
  - left. apply not_elem_of_nil.
  - destruct IH as [Ht | (a & b & -> & Hb)].
    + destruct (decide (x = c)) as [->|Hx].
      * right. by exists [], t.
      * left. by apply not_elem_of_cons.
    + right. by exists (x :: a), b.
Qed.

Lemma upto_app_length (a b : str) : upto (Z.of_nat (length a)) (a ++ b) = a.
Proof. unfold upto. rewrite Nat2Z.id. by rewrite take_app_length. Qed.

Lemma from_app_length (a b : str) : from (Z.of_nat (length a)) (a ++ b) = b.
Proof. unfold from. rewrite Nat2Z.id. by rewrite drop_app_length. Qed.

(** *** Names without separators *)

Lemma sepfree_app (a b : str) : sepfree (a ++ b) <-> sepfree a /\ sepfree b.
Proof. apply Forall_app. Qed.

Lemma sepfree_no_sep (f : str) : sepfree f -> (sep ∉ f) /\ (altsep ∉ f).
Proof.
  intros Hf. unfold sepfree in Hf. rewrite Forall_forall in Hf.
  split; intros H; specialize (Hf _ H); discriminate Hf.
Qed.

Lemma sepfree_rfind (f : str) : sepfree f -> Z.max (rfind sep f) (rfind altsep f) = -1.
Proof.
  intros Hf. destruct (sepfree_no_sep f Hf) as [H1 H2].
  by rewrite (rfind_absent _ _ H1), (rfind_absent _ _ H2).
Qed.

Lemma basename_sepfree (p : str) : sepfree (basename p).
Proof.
  unfold basename, split. destruct (splitdrive p) as [d r]. cbn [snd].
  by destruct (beyond_last_sep_spec r).
Qed.

(** *** [splitext] of a file name *)

Lemma splitext_name_dotless (f : str) :
  sepfree f -> extsep ∉ f -> splitext f = (f, []).
Proof.
  intros Hs Hd. unfold splitext.
  by rewrite (sepfree_rfind f Hs), (rfind_absent _ _ Hd).
Qed.

Lemma splitext_name_dotted (a b : str) :
  sepfree a -> sepfree b -> extsep ∉ b ->
  splitext (a ++ extsep :: b) =
    if existsb not_dot a then (a, extsep :: b) else (a ++ extsep :: b, []).
Proof.
  intros Ha Hb Hd. unfold splitext.
  assert (Hs : sepfree (a ++ extsep :: b)).
  { apply sepfree_app. split; [done|]. by constructor. }
  rewrite (sepfree_rfind _ Hs), (rfind_last _ _ _ Hd).
  replace (-1 <? Z.of_nat (length a)) with true by (symmetry; apply Z.ltb_lt; lia).
  rewrite upto_app_length, from_app_length.
  unfold between. rewrite upto_app_length.
  change (-1 + 1) with 0. unfold from. cbn [Z.to_nat drop andb]. fold not_dot.
  by destruct (existsb not_dot a).
Qed.

(** What [splitext] makes of a file name: either there is no extension, and
    then a suffix without dots keeps it so; or the name splits at its last
    dot, behind a stem that is not made of dots only. *)
Lemma splitext_cases (f : str) :
  sepfree f ->
  (splitext f = (f, []) /\
     forall s, sepfree s -> extsep ∉ s -> splitext (f ++ s) = (f ++ s, []))
  \/ (exists a b, f = a ++ extsep :: b /\ splitext f = (a, extsep :: b)
                  /\ sepfree a /\ sepfree b /\ (extsep ∉ b)
                  /\ existsb not_dot a = true).
Proof.
  intros Hf.
  destruct (last_occurrence extsep f) as [Hd | (a & b & -> & Hd)].
  - left. split; [exact (splitext_name_dotless f Hf Hd)|].
    intros s Hs1 Hs2. apply splitext_name_dotless.
    + by apply sepfree_app.
    + rewrite elem_of_app; intros [?|?]; done.
  - apply sepfree_app in Hf as [Ha Hb]. inversion Hb as [|? ? _ Hb']; subst.
    pose proof (splitext_name_dotted a b Ha Hb' Hd) as E.
    destruct (existsb not_dot a) eqn:Hex.
    + right. by exists a, b.
    + left. split; [exact E|]. intros s Hs1 Hs2.
      assert (Hbs1 : sepfree (b ++ s)) by (by apply sepfree_app).
      assert (Hbs2 : extsep ∉ b ++ s) by (rewrite elem_of_app; intros [?|?]; done).
      pose proof (splitext_name_dotted a (b ++ s) Ha Hbs1 Hbs2) as E'.
      rewrite Hex in E'.
      rewrite <- app_assoc. simpl. exact E'.
Qed.

Lemma splitext_app (f : str) : fst (splitext f) ++ snd (splitext f) = f.
Proof.
  unfold splitext. destruct (_ && _); cbn [fst snd]; [|apply app_nil_r].
  apply take_drop.
Qed.

End ntpath_names.

(** ** Decimal spellings *)

Lemma string_of_uint_digits (u : Decimal.uint) :
  Forall is_digit (list_ascii_of_string (NilEmpty.string_of_uint u)).
Proof.
  induction u; simpl; constructor; try assumption;
    unfold is_digit, lit; simpl; set_solver.
Qed.

Lemma str_of_nat_digits (k : nat) : Forall is_digit (str_of_nat k).
Proof. apply string_of_uint_digits. Qed.

Lemma digit_plain (c : ascii) :
  is_digit c ->
  ntpath.is_sep c = false /\ c <> ntpath.extsep /\ c <> ntpath.colon
  /\ continuation c = false.
Proof.
  unfold is_digit, lit. simpl. rewrite !elem_of_cons, elem_of_nil.
  intros H. repeat destruct H as [->|H]; try done; by repeat split.
Qed.

Lemma str_of_nat_sepfree (k : nat) : sepfree (str_of_nat k).
Proof.
  eapply Forall_impl; [apply str_of_nat_digits|]. intros c Hc.
  by destruct (digit_plain c Hc).
Qed.

Lemma str_of_nat_no_dot (k : nat) : ntpath.extsep ∉ str_of_nat k.
Proof.
  intros H. pose proof (str_of_nat_digits k) as D.
  rewrite Forall_forall in D. by destruct (digit_plain _ (D _ H)) as (_ & ? & _).
Qed.

Lemma str_of_nat_inj (a b : nat) : str_of_nat a = str_of_nat b -> a = b.
Proof.
  unfold str_of_nat. intros H.
  apply (f_equal string_of_list_ascii) in H.
  rewrite !string_of_list_ascii_of_string in H.
  apply (f_equal NilEmpty.uint_of_string) in H.
  rewrite !NilEmpty.usu in H. injection H as H.
  apply (f_equal Nat.of_uint) in H. by rewrite !Unsigned.of_to in H.
Qed.

Lemma str_of_nat_nonempty (k : nat) : str_of_nat k <> [].
Proof.
  unfold str_of_nat. intros H.
  apply (f_equal string_of_list_ascii) in H.
  rewrite string_of_list_ascii_of_string in H. cbn in H.
  apply (f_equal NilEmpty.uint_of_string) in H. rewrite NilEmpty.usu in H.
  cbn in H. injection H as H.
  pose proof (f_equal Nat.of_uint H) as E. rewrite Unsigned.of_to in E.
  cbn in E. subst k. discriminate H.
Qed.

Module ntpath_join.
Import ntpath ntpath_facts ntpath_split ntpath_names.

(** What [join] puts in front of the second path does not depend on what
    that path holds behind its drive, as long as this is not empty and
    does not begin with a separator. *)
Lemma join_tail (a dr : str) :
  dr = [] \/ endswith [colon] dr = true ->
  exists pre, forall pp,
    pp <> [] -> starts_with_sep pp = false -> splitdrive (dr ++ pp) = (dr, pp) ->
    join a (dr ++ pp) = pre ++ pp.
Proof.
  intros Hdr. unfold join. destruct (splitdrive a) as [rd rp].
  set (J := fun X : str =>
              if negb (starts_with_sep (with_sep rp ++ ["_"%char]))
                 && nonempty X && negb (endswith [colon] X)
              then X ++ [sep] ++ with_sep rp else X ++ with_sep rp).
  exists (if nonempty dr && negb (bool_decide (dr = rd))
          then if negb (bool_decide (lower dr = lower rd)) then dr else J dr
          else J rd).
  intros pp Hne Hs Hsd. rewrite Hsd. cbv beta zeta. rewrite Hs, andb_false_r.
  assert (Hpp : nonempty pp = true) by (by destruct pp).
  assert (HJ : forall X,
    (if nonempty (with_sep rp ++ pp) && negb (starts_with_sep (with_sep rp ++ pp))
        && nonempty X && negb (endswith [colon] X)
     then X ++ [sep] ++ with_sep rp ++ pp else X ++ with_sep rp ++ pp)
    = (if negb (starts_with_sep (with_sep rp ++ ["_"%char])) && nonempty X
          && negb (endswith [colon] X)
       then X ++ [sep] ++ with_sep rp else X ++ with_sep rp) ++ pp).
  { intros X.
    assert (nonempty (with_sep rp ++ pp) = true) as ->
      by (destruct (with_sep rp); [exact Hpp | done]).
    assert (starts_with_sep (with_sep rp ++ pp)
            = negb (negb (starts_with_sep (with_sep rp ++ ["_"%char])))) as ->.
    { rewrite negb_involutive. by destruct (with_sep rp) as [|y w]. }
    rewrite negb_involutive. cbn [andb].
    destruct (_ && _ && _); by rewrite <- ?app_assoc. }
  destruct (nonempty dr && negb (bool_decide (dr = rd))) eqn:E1.
  - destruct (negb (bool_decide (lower dr = lower rd))); [|apply HJ].
    rewrite Hpp. cbn [negb andb].
    destruct Hdr as [-> | ->]; [done|]. by rewrite andb_false_r.
  - apply HJ.
Qed.

End ntpath_join.

(** ** [get_unique_filepath] *)

Section UniqueNamer.

Import ntpath ntpath_facts ntpath_split ntpath_names ntpath_join.

Variable files : gset str.
Variables directory name ext : str.
Hypothesis name_sepfree : sepfree name.

Local Abbreviation cand := (candidate directory name ext).

Lemma underscore_plain :
  is_sep "_"%char = false /\ continuation "_"%char = false /\ "_"%char <> colon.
Proof. done. Qed.

Lemma counter_name_relative (t : str) (k : nat) :
  sepfree t ->
  let pp := t ++ lit "_" ++ str_of_nat k ++ ext in
  pp <> [] /\ starts_with_sep pp = false.
Proof.
  intros Ht pp. subst pp. split; [by destruct t|].
  destruct Ht as [|x t Hx _]; [done | exact Hx].
Qed.

Lemma counter_name_second (k : nat) :
  second_colon name = false ->
  second_colon (name ++ lit "_" ++ str_of_nat k ++ ext) = false.
Proof.
  intros Hc. destruct name as [|c t] eqn:En.
  - pose proof (str_of_nat_nonempty k) as Hne.
    pose proof (str_of_nat_digits k) as Hd.
    destruct (str_of_nat k) as [|y s]; [done|]. inversion Hd as [|? ? Hy _]; subst.
    destruct (digit_plain y Hy) as (_ & _ & Hcolon & _).
    change (second_colon ([] ++ lit "_" ++ (y :: s) ++ ext))
      with (bool_decide (colon = y) && true).
    rewrite bool_decide_eq_false_2; [done|]. congruence.
  - change (lit "_" ++ str_of_nat k ++ ext) with ("_"%char :: str_of_nat k ++ ext).
    rewrite second_colon_plain; try done.
Qed.

(** The names tried are the decimal counter between a fixed prefix and the
    extension. *)
Lemma candidate_shape :
  exists pre, forall k, cand k = pre ++ str_of_nat k ++ ext.
Proof.
  unfold candidate.
  assert (Hunc : unc_start name = false).
  { destruct name_sepfree as [|x [|y t] Hx _]; try done. cbn. by rewrite Hx. }
  destruct (second_colon name) eqn:Hc.
  - destruct (letter_stable name Hunc Hc) as (_ & Hend & Hstable).
    destruct (join_tail directory (py_take 2 name) (or_intror Hend)) as [pre Hpre].
    exists (pre ++ py_drop 2 name ++ lit "_"). intros k.
    assert (Ht : sepfree (py_drop 2 name)).
    { pose proof name_sepfree as H. rewrite <- (py_take_drop 2 name) in H.
      by apply sepfree_app in H as [_ H]. }
    destruct (counter_name_relative (py_drop 2 name) k Ht) as [Hne Hs].
    rewrite <- (py_take_drop 2 name) at 1.
    rewrite <- (app_assoc (py_take 2 name) (py_drop 2 name)).
    rewrite (Hpre _ Hne Hs (Hstable _)). by rewrite <- !app_assoc.
  - destruct (join_tail directory [] (or_introl eq_refl)) as [pre Hpre].
    exists (pre ++ name ++ lit "_"). intros k.
    destruct (counter_name_relative name k name_sepfree) as [Hne Hs].
    pose proof (Hpre (name ++ lit "_" ++ str_of_nat k ++ ext) Hne Hs) as H.
    change ([] ++ ?x) with x in H. rewrite H.
    + by rewrite <- !app_assoc.
    + apply relative_no_drive; [exact Hs|]. by apply counter_name_second.
Qed.

Lemma candidate_inj (j k : nat) : cand j = cand k -> j = k.
Proof.
  destruct candidate_shape as [pre H]. rewrite !H. intros E.
  apply app_inv_head, app_inv_tail in E. by apply str_of_nat_inj.
Qed.

(** Among any [size files + 1] consecutive counters one names a path that
    does not exist. *)
Lemma free_counter (c : nat) :
  exists k, (c <= k < c + S (size files))%nat /\ cand k ∉ files.
Proof.
  set (n := S (size files)).
  destruct (decide (Forall (fun k => cand k ∈ files) (seq c n))) as [Hall | Hex].
  - exfalso.
    assert (Hnd : NoDup (cand <$> seq c n)).
    { apply NoDup_fmap_2_strong; [|apply NoDup_seq].
      intros j k _ _. apply candidate_inj. }
    assert (Hsub : list_to_set (cand <$> seq c n) ⊆ files).
    { intros p Hp. apply elem_of_list_to_set, list_elem_of_fmap in Hp
        as (k & -> & Hk).
      rewrite Forall_forall in Hall. by apply Hall. }
    apply subseteq_size in Hsub.
    rewrite size_list_to_set, length_fmap, length_seq in Hsub by done.
    unfold n in Hsub. lia.
  - apply not_Forall_Exists in Hex; [|intros k; apply _].
    apply Exists_exists in Hex as (k & Hk & Hfree).
    apply elem_of_seq in Hk. exists k. split; [lia | done].
Qed.

(** The loop returns the first free name at or after its starting
    counter, provided one lies within the fuel. *)
Lemma unique_loop_first_free (fuel c : nat) :
  (exists k, (c <= k < c + fuel)%nat /\ cand k ∉ files) ->
  exists k, (c <= k < c + fuel)%nat
            /\ unique_loop files directory name ext fuel c = Some (cand k)
            /\ (cand k ∉ files)
            /\ forall j, (c <= j < k)%nat -> cand j ∈ files.
Proof.
  revert c. induction fuel as [|fuel IH]; intros c (k & Hk & Hfree); [lia|].
  simpl. unfold path_exists.
  destruct (decide (cand c ∈ files)) as [Hin | Hout].
  - rewrite bool_decide_eq_true_2 by done. simpl.
    assert (k <> c) by (intros ->; done).
    destruct (IH (S c)) as (k' & Hk' & Hloop & Hfree' & Hmin).
    { exists k. split; [lia | done]. }
    exists k'. split; [lia|]. split; [done|]. split; [done|].
    intros j Hj. destruct (decide (j = c)) as [->|]; [done|]. apply Hmin. lia.
  - rewrite bool_decide_eq_false_2 by done. simpl.
    exists c. split; [lia|]. split; [done|]. split; [done|]. intros j Hj. lia.
Qed.

End UniqueNamer.

(** *** The directory of a path *)

Module ntpath_dirname.
Import ntpath ntpath_facts ntpath_split ntpath_names ntpath_join.

Lemma beyond_last_sep_starts (r : str) :
  starts_with_sep r = true -> starts_with_sep (take (beyond_last_sep r) r) = true.
Proof.
  destruct r as [|x r]; [done|]. cbn [starts_with_sep beyond_last_sep]. intros Hx.
  destruct (beyond_last_sep r); [by rewrite Hx | done].
Qed.

(** [dirname] keeps the drive of the path. *)
Lemma splitdrive_dirname (p : str) :
  let r := snd (splitdrive p) in
  splitdrive (dirname p)
  = (fst (splitdrive p), strip_head (take (beyond_last_sep r) r)).
Proof.
  intros r. unfold dirname, split. subst r.
  destruct (unc_start p) eqn:Hunc.
  - destruct (unc_drive p Hunc) as [E | (n & E & Hsep & _ & Hstable)];
      rewrite E; cbn [fst snd].
    + cbn. by rewrite app_nil_r.
    + apply Hstable. rewrite strip_head_starts. by apply beyond_last_sep_starts.
  - destruct (second_colon p) eqn:Hc.
    + destruct (letter_stable p Hunc Hc) as (E & _ & Hstable).
      rewrite E. cbn [fst snd]. apply Hstable.
    + assert (E : splitdrive p = ([], p)) by (by rewrite splitdrive_unfold, Hunc, Hc).
      rewrite E. cbn [fst snd app].
      destruct (strip_head_prefix (take (beyond_last_sep p) p)) as [z Hz].
      assert (Hp : p = strip_head (take (beyond_last_sep p) p)
                       ++ z ++ drop (beyond_last_sep p) p).
      { rewrite app_assoc, <- Hz. by rewrite take_drop. }
      rewrite splitdrive_unfold.
      rewrite Hp in Hunc, Hc.
      by rewrite (unc_start_prefix _ _ Hunc), (second_colon_prefix _ _ Hc).
Qed.

Lemma dirname_basename (p : str) :
  let r := snd (splitdrive p) in
  dirname p = fst (splitdrive p) ++ strip_head (take (beyond_last_sep r) r)
  /\ basename p = drop (beyond_last_sep r) r.
Proof. unfold dirname, basename, split. by destruct (splitdrive p). Qed.

(** A file name joined to the directory of a path whose own file name is
    not empty: the result splits into that directory and the file name. *)
Lemma split_join_dirname (p f : str) :
  basename p <> [] -> f <> [] -> sepfree f -> second_colon f = false ->
  (startswith [colon] f = true -> startswith [colon] (basename p) = true) ->
  split (join (dirname p) f) = (dirname p, f).
Proof.
  intros Hbase Hne Hf Hc Hlead.
  pose proof (splitdrive_dirname p) as Hsd. cbv zeta in Hsd.
  destruct (dirname_basename p) as [Hdir Hb]. rewrite Hb in Hbase, Hlead.
  set (r := snd (splitdrive p)) in *.
  set (h := take (beyond_last_sep r) r) in *.
  destruct (split_join (dirname p) f Hne Hf Hc) as [_ Hsplit].
  - (* a UNC drive with a file name behind it has a head *)
    intros Hunc. rewrite Hsd. cbn [snd].
    rewrite Hdir in Hunc.
    assert (Hp : unc_start p = true).
    { rewrite <- (splitdrive_app p). fold r.
      rewrite <- (take_drop (beyond_last_sep r) r). fold h.
      destruct (strip_head_prefix h) as [z Hz]. rewrite Hz at 1.
      rewrite <- !app_assoc, app_assoc. by apply unc_start_extends. }
    apply strip_head_nonempty. subst h.
    destruct (unc_drive p Hp) as [E | (n & E & Hsep & _)]; subst r; rewrite E in *;
      cbn [snd] in *.
    + done.
    + apply beyond_last_sep_starts in Hsep. intros Hnil. by rewrite Hnil in Hsep.
  - (* without a drive, the second character stays what it is *)
    intros Hunc Hcolon. apply second_colon_with_sep; [done|done|].
    intros s Hs Hsep.
    destruct (startswith [colon] f) eqn:Hlf; [|done]. exfalso.
    specialize (Hlead eq_refl).
    (* the directory is a single separator, so the path has no drive and
       its file name begins with a colon: its second character is one *)
    assert (Hd : fst (splitdrive p) = [] /\ strip_head h = [s]).
    { rewrite Hdir in Hs. destruct (fst (splitdrive p)) as [|c d] eqn:Ed; [done|].
      exfalso. destruct d; [|by destruct d, (strip_head h)].
      (* a drive of a single byte *)
      destruct (unc_start p) eqn:Hp.
      - destruct (unc_drive p Hp) as [E | (n & E & _ & Hn & _)]; rewrite E in Ed;
          cbn in Ed.
        + subst p. done.
        + destruct p as [|a [|b p]]; try done.
          destruct n as [|[|n]]; try lia. done.
      - destruct (second_colon p) eqn:Hp2.
        + destruct (letter_stable p Hp Hp2) as (E & _).
          destruct (letter_drive p Hp2) as (c' & u & r' & -> & Hq).
          destruct (Hq r') as (_ & Ht & _). rewrite E, Ht in Ed. cbn in Ed.
          by destruct u.
        + by rewrite splitdrive_unfold, Hp, Hp2 in Ed. }
    destruct Hd as [Hd Hh].
    destruct (no_drive_tests p Hd) as [_ Hp2].
    assert (Hr : r = p).
    { pose proof (splitdrive_app p) as E. rewrite Hd in E. exact E. }
    assert (Hhead : h = [s]).
    { revert Hh. unfold strip_head. pose proof (rstrip_seps_ends h) as He.
      destruct (rstrip_seps h) as [|y t]; [done|]. intros [= -> ->].
      cbn in He. congruence. }
    assert (Hp : p = s :: drop (beyond_last_sep r) r).
    { rewrite <- Hr at 1. rewrite <- (take_drop (beyond_last_sep r) r) at 1.
      fold h. by rewrite Hhead. }
    rewrite Hp in Hp2. cbn [second_colon] in Hp2. unfold rest_of_char in Hp2.
    rewrite (is_sep_ascii s Hsep) in Hp2. congruence.
  - rewrite Hsplit, Hsd. cbn [fst snd]. by rewrite strip_head_idem, <- Hdir.
Qed.

End ntpath_dirname.

(** *** The path returned *)

Section UniqueNamerResult.

Import ntpath ntpath_facts ntpath_split ntpath_names ntpath_join ntpath_dirname.

Variable files : gset str.
Variable filepath : str.

Local Abbreviation directory := (dirname filepath).
Local Abbreviation name := (stem_of filepath).
Local Abbreviation ext := (extension_of filepath).

Lemma stem_extension : name ++ ext = basename filepath.
Proof. apply splitext_app. Qed.

Lemma stem_sepfree : sepfree name.
Proof.
  pose proof (basename_sepfree filepath) as H. rewrite <- stem_extension in H.
  by apply sepfree_app in H as [H _].
Qed.

Lemma extension_sepfree : sepfree ext.
Proof.
  pose proof (basename_sepfree filepath) as H. rewrite <- stem_extension in H.
  by apply sepfree_app in H as [_ H].
Qed.

Lemma stem_nonempty : basename filepath <> [] -> name <> [].
Proof.
  intros Hb Hn. unfold stem_of in Hn.
  destruct (splitext_cases _ (basename_sepfree filepath))
    as [[E _] | (a & b & _ & E & _ & _ & _ & Hex)]; rewrite E in Hn; cbn in Hn.
  - done.
  - subst a. done.
Qed.

Lemma get_unique_filepath_fresh :
  path_exists files filepath = false ->
  get_unique_filepath files filepath = Some filepath.
Proof. intros H. unfold get_unique_filepath. by rewrite H. Qed.

(** On an existing path the result is the candidate of the least counter,
    from 1 on, whose candidate does not exist. *)
Lemma get_unique_filepath_taken :
  path_exists files filepath = true ->
  exists counter,
    (1 <= counter)%nat
    /\ get_unique_filepath files filepath
       = Some (candidate directory name ext counter)
    /\ path_exists files (candidate directory name ext counter) = false
    /\ forall j, (1 <= j < counter)%nat ->
         path_exists files (candidate directory name ext j) = true.
Proof.
  intros H. unfold get_unique_filepath. rewrite H. simpl.
  pose proof stem_sepfree as Hname.
  unfold stem_of, extension_of in *.
  destruct (splitext (basename filepath)) as [n e]. cbn [fst snd] in *.
  destruct (unique_loop_first_free files (dirname filepath) n e
              (S (size files)) 1 (free_counter files _ n e Hname 1))
    as (k & Hk & Hloop & Hfree & Hmin).
  exists k. split; [lia|]. split; [done|]. unfold path_exists. split.
  - by apply bool_decide_eq_false_2.
  - intros j Hj. apply bool_decide_eq_true_2. by apply Hmin.
Qed.

(** The loop always comes to an end: a path is returned. *)
Lemma get_unique_filepath_total :
  exists result, get_unique_filepath files filepath = Some result.
Proof.
  destruct (path_exists files filepath) eqn:H.
  - destruct (get_unique_filepath_taken H) as (k & _ & Hget & _). eauto.
  - exists filepath. by apply get_unique_filepath_fresh.
Qed.

Lemma suffix_clean (counter : nat) :
  sepfree (lit "_" ++ str_of_nat counter) /\ (extsep ∉ lit "_" ++ str_of_nat counter).
Proof.
  split.
  - constructor; [done | apply str_of_nat_sepfree].
  - change (lit "_" ++ str_of_nat counter) with ("_"%char :: str_of_nat counter).
    rewrite elem_of_cons. intros [H|H]; [discriminate H|].
    by apply str_of_nat_no_dot in H.
Qed.

(** The new file name is free of separators. *)
Lemma new_filename_sepfree (counter : nat) :
  sepfree (name ++ lit "_" ++ str_of_nat counter ++ ext).
Proof.
  destruct (suffix_clean counter) as [Hs _].
  rewrite (app_assoc (lit "_")).
  apply sepfree_app. split; [apply stem_sepfree|].
  apply sepfree_app. split; [exact Hs | apply extension_sepfree].
Qed.


(** When the file name of the input is not empty and its second character
    is not a colon, a candidate splits into the directory of the input and
    the new file name. *)
Lemma candidate_split (counter : nat) :
  basename filepath <> [] -> second_colon (basename filepath) = false ->
  split (candidate directory name ext counter)
  = (directory, name ++ lit "_" ++ str_of_nat counter ++ ext).
Proof.
  intros Hb Hc. unfold candidate.
  pose proof (stem_nonempty Hb) as Hn.
  assert (Hstem : second_colon name = false).
  { rewrite <- stem_extension in Hc. by apply second_colon_prefix in Hc. }
  apply split_join_dirname; [done| | | |].
  - by destruct (stem_of filepath).
  - apply new_filename_sepfree.
  - change (lit "_" ++ str_of_nat counter ++ ext)
      with ("_"%char :: str_of_nat counter ++ ext).
    by rewrite second_colon_plain.
  - rewrite <- stem_extension.
    destruct (stem_of filepath) as [|x t]; [done|]. done.
Qed.

End UniqueNamerResult.

(** The second character of a string, as [s[1:2]] gives it. *)
Lemma second_colon_slice (s : str) :
  second_colon s = bool_decide (py_take 1 (py_drop 1 s) = [ntpath.colon]).
Proof.
  destruct s as [|c t]; [symmetry; by apply bool_decide_eq_false_2|].
  cbn [second_colon py_drop]. symmetry. apply ntpath_facts.starts_colon_spec.
Qed.







(** ** Joining a file name to a directory *)

Lemma hexdigit_plain (c : ascii) :
  is_hexdigit c ->
  ntpath.is_sep c = false /\ c <> ntpath.extsep /\ c <> ntpath.colon
  /\ continuation c = false.
Proof.
  unfold is_hexdigit. change (lit "0123456789abcdef")
    with ["0";"1";"2";"3";"4";"5";"6";"7";"8";"9";"a";"b";"c";"d";"e";"f"]%char.
  rewrite !elem_of_cons, elem_of_nil.
  intros H. repeat (destruct H as [-> | H]; [by vm_compute|]). done.
Qed.

Module ntpath_in.

Import ntpath ntpath_facts ntpath_split ntpath_names ntpath_dirname.

(** A name without colon has no drive. *)
Lemma colon_free_second (f : str) : colon ∉ f -> second_colon f = false.
Proof.
  intros Hf. destruct f as [|c t]; [done|]. cbn [second_colon].
  destruct (startswith [colon] (rest_of_char c t)) eqn:E; [|done].
  apply startswith_single in E as [r Hr].
  destruct (rest_of_char_colon c t r Hr) as (u & -> & _).
  exfalso. apply Hf. rewrite elem_of_cons, elem_of_app, elem_of_cons. auto.
Qed.

Lemma colon_free_start (f : str) : colon ∉ f -> startswith [colon] f = false.
Proof.
  intros Hf. destruct (startswith [colon] f) eqn:E; [|done].
  apply startswith_single in E as [r ->]. exfalso. apply Hf. by left.
Qed.

(** The part of a path behind its drive ends in the file name. *)
Lemma path_ends_in_name (a : str) :
  basename a <> [] ->
  exists h x, snd (splitdrive a) = h ++ [x] /\ is_sep x = false.
Proof.
  intros Hb. destruct (dirname_basename a) as [_ Hbase]. cbv zeta in Hbase.
  set (r := snd (splitdrive a)) in *.
  destruct (beyond_last_sep_spec r) as [Hfree _]. cbv zeta in Hfree.
  rewrite <- Hbase in Hfree.
  destruct (basename a) as [|y b] eqn:E using rev_ind; [done|]. clear IHb.
  exists (take (beyond_last_sep r) r ++ b), y. split.
  - rewrite <- app_assoc, Hbase. symmetry. apply take_drop.
  - apply sepfree_app in Hfree as [_ Hy]. by inversion Hy.
Qed.

(** A file name joined to a directory that is itself named, not a bare
    drive and not spelled with a separator at its end: a separator goes
    between, and splitting the result gives back the two. *)
Lemma split_join_in (a f : str) :
  basename a <> [] -> f <> [] -> sepfree f -> second_colon f = false ->
  join a f = a ++ sep :: f /\ split (join a f) = (a, f).
Proof.
  intros Ha Hf Hfree Hcolon.
  destruct (path_ends_in_name a Ha) as (h & x & Hr & Hx).
  assert (Hstrip : strip_head (snd (splitdrive a)) = snd (splitdrive a)).
  { unfold strip_head. rewrite Hr, rstrip_seps_snoc_other by done.
    by destruct (h ++ [x]). }
  assert (Hwith : with_sep (snd (splitdrive a)) = snd (splitdrive a) ++ [sep]).
  { unfold with_sep. rewrite Hr, ends_with_sep_snoc, Hx.
    by destruct h. }
  destruct (split_join a f Hf Hfree Hcolon) as [Hjoin Hsplit].
  - intros _. rewrite Hr. by destruct h.
  - intros Hunc Hsec. apply second_colon_with_sep; [done | done |].
    intros s -> Hs. exfalso. apply Ha.
    destruct s as [[] [] [] [] [] [] [] []]; try discriminate Hs; by vm_compute.
  - cbv zeta in Hjoin, Hsplit. rewrite Hstrip, splitdrive_app in Hsplit.
    split; [|exact Hsplit].
    rewrite Hjoin, Hwith, <- app_assoc, app_assoc, splitdrive_app. done.
Qed.

(** A file name without colon joined to any directory but a bare UNC
    drive is the file name of the result. *)
Lemma basename_join (a f : str) :
  (unc_start a = true -> snd (splitdrive a) <> []) ->
  f <> [] -> sepfree f -> colon ∉ f ->
  basename (join a f) = f /\ exists pre, join a f = pre ++ f.
Proof.
  intros Ha Hf Hfree Hcolon.
  destruct (split_join a f Hf Hfree (colon_free_second f Hcolon) Ha) as [Hjoin Hsplit].
  - intros Hunc Hsec. apply second_colon_with_sep; [done | by apply colon_free_second |].
    intros _ _ _. by apply colon_free_start.
  - cbv zeta in Hjoin, Hsplit. split.
    + unfold basename. by rewrite Hsplit.
    + eexists. rewrite Hjoin, app_assoc. reflexivity.
Qed.

(** ** The extension of a whole path *)

Lemma rfind_upper (c : ascii) (s : str) : rfind c s < Z.of_nat (length s).
Proof.
  induction s as [|x s IH]; [done|]. cbn [rfind length].
  destruct (0 <=? rfind c s) eqn:E; [lia|]. destruct (bool_decide _); lia.
Qed.

Lemma rfind_app_absent (c : ascii) (s f : str) :
  c ∉ f -> rfind c (s ++ f) = rfind c s.
Proof.
  intros Hf. induction s as [|x s IH]; [by apply rfind_absent|].
  cbn [app rfind]. by rewrite IH.
Qed.

(** The extension of a path whose file name is [a.b], with a character
    other than the dot in [a] and no dot in [b]. *)
Lemma splitext_path (pre a b : str) :
  sepfree a -> sepfree b -> extsep ∉ b -> existsb not_dot a = true ->
  splitext (pre ++ a ++ extsep :: b) = (pre ++ a, extsep :: b).
Proof.
  intros Ha Hb Hdot Hnot. unfold splitext.
  assert (Hfree : sepfree (a ++ extsep :: b)).
  { apply sepfree_app. split; [done|]. by constructor. }
  destruct (sepfree_no_sep _ Hfree) as [Hs1 Hs2].
  rewrite !(rfind_app_absent _ pre) by done.
  rewrite app_assoc, rfind_last by done.
  pose proof (rfind_upper sep pre) as U1. pose proof (rfind_upper altsep pre) as U2.
  pose proof (rfind_lower sep pre) as L1. pose proof (rfind_lower altsep pre) as L2.
  set (i := Z.max (rfind sep pre) (rfind altsep pre)).
  assert (Hi : -1 <= i < Z.of_nat (length pre)) by lia.
  rewrite length_app.
  replace (i <? Z.of_nat (length pre + length a)) with true
    by (symmetry; apply Z.ltb_lt; lia).
  rewrite <- length_app, upto_app_length, from_app_length.
  unfold between. rewrite upto_app_length. unfold from.
  replace (existsb _ (drop (Z.to_nat (i + 1)) (pre ++ a))) with true; [done|].
  symmetry. apply existsb_exists. apply existsb_exists in Hnot as (y & Hy & Hny).
  exists y. split; [|exact Hny].
  rewrite drop_app_le by lia. apply in_or_app. by right.
Qed.

End ntpath_in.

(** ** Reasoning about computations *)

Lemma triple_ret {S A} (P : S -> Prop) (a : A) (Q : A -> S -> Prop) :
  (forall s, P s -> Q a s) -> triple P (ret a) Q.
Proof. intros H s Hs. simpl. by apply H. Qed.

Lemma triple_bind {S A B} (P : S -> Prop) (m : M S A) (Q : A -> S -> Prop)
    (k : A -> M S B) (R : B -> S -> Prop) :
  triple P m Q -> (forall a, triple (Q a) (k a) R) -> triple P (bind m k) R.
Proof.
  intros Hm Hk s Hs. unfold bind. specialize (Hm s Hs).
  destruct (m s) as [[a| |] s']; try done. by apply Hk.
Qed.

Lemma triple_weaken {S A} (P P' : S -> Prop) (m : M S A) (Q Q' : A -> S -> Prop) :
  triple P' m Q' -> (forall s, P s -> P' s) -> (forall a s, Q' a s -> Q a s) ->
  triple P m Q.
Proof.
  intros Hm HP HQ s Hs. specialize (Hm s (HP s Hs)).
  destruct (m s) as [[a| |] s']; try done. by apply HQ.
Qed.

Lemma triple_raise {S A} (P : S -> Prop) (e : exn) (Q : A -> S -> Prop) :
  triple P (raise e) Q.
Proof. by intros s Hs. Qed.

Lemma triple_when {S} (P : S -> Prop) (b : bool) (m : M S unit) :
  triple P m (fun _ => P) -> triple P (when b m) (fun _ => P).
Proof. intros H. destruct b; [exact H|]. by apply triple_ret. Qed.

(** ** [extract_psd_thumbnail] *)

Section ExtractorFacts.

Variable loadFromData : list byte -> bool.

Lemma triple_read (c : list byte) (p : nat) (n : Z) :
  triple (reading c p) (read n) (fun got => reading c (p + length got)).
Proof.
  intros f [Hc Hp]. unfold read.
  destruct (n <? -1) eqn:En; [done|].
  unfold reading. simpl.
  assert (length (drop (position f) (content f))
          = (length c - position f)%nat) as Hrest
    by (rewrite length_drop, Hc; done).
  destruct (n =? -1) eqn:E1.
  - rewrite Hrest. split; [done | lia].
  - rewrite length_take, Hrest. split; [done | lia].
Qed.

Lemma triple_skip (c : list byte) (p : nat) (n : Z) :
  triple (reading c p) (bind (read n) (fun _ => ret tt)) (fun _ => reading c p).
Proof.
  eapply triple_bind; [apply triple_read|].
  intros got. apply triple_ret. intros f [Hc Hp]. split; [done | lia].
Qed.

Lemma triple_read_I (c : list byte) (p : nat) :
  triple (reading c p) (bind (read 4) unpack_I) (fun _ => reading c (p + 4)).
Proof.
  eapply triple_bind; [apply triple_read|].
  intros got. destruct got as [|b3 [|b2 [|b1 [|b0 [|]]]]]; try apply triple_raise.
  apply triple_ret. by intros f H.
Qed.

Lemma triple_read_H (c : list byte) (p : nat) :
  triple (reading c p) (bind (read 2) unpack_H) (fun _ => reading c (p + 2)).
Proof.
  eapply triple_bind; [apply triple_read|].
  intros got. destruct got as [|b1 [|b0 [|]]]; try apply triple_raise.
  apply triple_ret. by intros f H.
Qed.

Lemma triple_read_B (c : list byte) (p : nat) :
  triple (reading c p) (bind (read 1) unpack_B) (fun _ => reading c (p + 1)).
Proof.
  eapply triple_bind; [apply triple_read|].
  intros got. destruct got as [|b0 [|]]; try apply triple_raise.
  apply triple_ret. by intros f H.
Qed.

Lemma reading_mono (c : list byte) (p q : nat) (f : File) :
  (q <= p)%nat -> reading c p f -> reading c q f.
Proof. intros Hq [Hc Hp]. split; [done | lia]. Qed.

(** A round of the resource loop that runs to its end has moved the
    position forward. *)
Lemma triple_resource_block (c : list byte) (p : nat) :
  triple (reading c p) (resource_block loadFromData)
    (fun step => match step with
                 | Continue => reading c (p + 7)
                 | _ => reading c p
                 end).
Proof.
  unfold resource_block.
  eapply triple_bind; [apply triple_read|]. intros resource_signature.
  destruct (negb _).
  { apply triple_ret. intros f. apply reading_mono. lia. }
  eapply triple_bind; [eapply triple_weaken; [apply (triple_read_H c p) | |]|].
  { intros f. apply reading_mono. lia. }
  { intros a f H. exact H. }
  intros resource_id.
  eapply triple_bind; [apply triple_read_B|]. intros name_length.
  eapply triple_bind; [apply triple_when, triple_skip|]. intros ?.
  eapply triple_bind; [apply triple_when, triple_skip|]. intros ?.
  eapply triple_bind; [apply triple_read_I|]. intros data_size.
  replace (p + 2 + 1 + 4)%nat with (p + 7)%nat by lia.
  eapply (triple_bind _ _ (fun _ => reading c (p + 7))).
  { destruct (_ || _).
    - destruct (resource_id =? 1036).
      + eapply triple_bind; [apply triple_read|]. intros ?.
        eapply triple_bind; [apply triple_read|]. intros jpeg_data.
        destruct (loadFromData jpeg_data); apply triple_ret;
          intros f; apply reading_mono; lia.
      + by apply triple_ret.
    - eapply triple_bind; [apply triple_read|]. intros ?.
      apply triple_ret. intros f. apply reading_mono. lia. }
  intros [px|].
  - apply triple_ret. intros f. apply reading_mono. lia.
  - eapply triple_bind; [apply triple_when, triple_skip|]. intros ?.
    by apply triple_ret.
Qed.

(** With more fuel than there are bytes left, the loop comes to an end. *)
Lemma triple_resources_loop (c : list byte) (fuel : nat) (resources_end : Z) :
  forall p, (length c - p < fuel)%nat ->
    triple (reading c p) (resources_loop loadFromData fuel resources_end)
      (fun _ => reading c p).
Proof.
  induction fuel as [|fuel IH]; intros p Hfuel; [lia|].
  simpl. eapply (triple_bind _ _ (fun _ => reading c p)).
  { intros f Hf. exact Hf. }
  intros pos. destruct (pos <? resources_end); [|by apply triple_ret].
  eapply triple_bind; [apply triple_resource_block|].
  intros [|px|]; try by apply triple_ret.
  intros f Hf. destruct (decide (p + 7 <= length c)%nat) as [Hle|Hgt].
  - pose proof (IH (p + 7)%nat ltac:(lia) f Hf) as H.
    destruct (resources_loop _ _ _ f) as [[a| |] f']; try done.
    revert H. apply reading_mono. lia.
  - destruct Hf as [_ Hf]. lia.
Qed.

Lemma triple_extract_body (c : list byte) :
  triple (reading c 0) (extract_body loadFromData) (fun _ => reading c 0).
Proof.
  unfold extract_body.
  eapply triple_bind; [apply triple_read|]. intros signature.
  destruct (negb _).
  { apply triple_ret. intros f. apply reading_mono. lia. }
  eapply (triple_bind _ _ (fun _ => reading c 0)).
  { eapply triple_weaken; [apply (triple_read_H c 0) | |].
    - intros f. apply reading_mono. lia.
    - intros ? f. apply reading_mono. lia. }
  intros version.
  eapply (triple_bind _ _ (fun _ => reading c 0)).
  { eapply triple_weaken; [apply (triple_read c 0) | done |].
    intros ? f. apply reading_mono. lia. }
  intros ?.
  do 5 (eapply (triple_bind _ _ (fun _ => reading c 0));
        [ first [ eapply triple_weaken; [apply (triple_read_H c 0) | done |]
                | eapply triple_weaken; [apply (triple_read_I c 0) | done |] ];
          intros ? f; apply reading_mono; lia
        | intros ? ]).
  eapply (triple_bind _ _ (fun _ => reading c 0)).
  { eapply triple_weaken; [apply (triple_read_I c 0) | done |].
    intros ? f. apply reading_mono. lia. }
  intros color_mode_length.
  eapply (triple_bind _ _ (fun _ => reading c 0)).
  { eapply triple_weaken; [apply (triple_read c 0) | done |].
    intros ? f. apply reading_mono. lia. }
  intros ?.
  eapply (triple_bind _ _ (fun _ => reading c 0)).
  { eapply triple_weaken; [apply (triple_read_I c 0) | done |].
    intros ? f. apply reading_mono. lia. }
  intros resources_length.
  eapply (triple_bind _ _ (fun _ => reading c 0)).
  { intros f Hf. exact Hf. }
  intros here.
  eapply (triple_bind _ _ (fun f' f => reading c 0 f /\ f' = f)).
  { intros f Hf. simpl. done. }
  intros f0 f [Hf ->].
  pose proof Hf as [Hc Hp]. rewrite Hc.
  pose proof (triple_resources_loop c (S (length c)) (here + resources_length)
                (position f) ltac:(lia) f) as H.
  assert (Hf' : reading c (position f) f) by (split; [done | lia]).
  specialize (H Hf').
  destruct (resources_loop _ _ _ f) as [[r| |] f']; try done.
  revert H. apply reading_mono. lia.
Qed.

End ExtractorFacts.

(** C5.  [extract_psd_thumbnail] never raises and always comes to an end:
    for every file, and for a file that cannot be opened, it returns.  It
    returns [None] when the first four bytes are not [8BPS], when the file
    cannot be opened, and whenever anything is raised while the file is
    read. *)
Theorem extract_psd_thumbnail_never_raises
    (loadFromData : list byte -> bool) (opened : option (list byte)) :
  (exists r, extract_psd_thumbnail loadFromData opened = Returned r)
  /\ (forall data, opened = Some data -> take 4 data <> blit "8BPS" ->
        extract_psd_thumbnail loadFromData opened = Returned None)
  /\ (opened = None -> extract_psd_thumbnail loadFromData opened = Returned None)
  /\ (forall data e f,
        opened = Some data ->
        extract_body loadFromData {| content := data; position := 0 |} = (Raised e, f) ->
        extract_psd_thumbnail loadFromData opened = Returned None).
Proof.
  repeat split.
  - destruct opened as [data|]; [|by exists None].
    unfold extract_psd_thumbnail, try_except. simpl.
    pose proof (triple_extract_body loadFromData data
                  {| content := data; position := 0 |}) as H.
    destruct (extract_body _ _) as [[r| |] f'].
    + by exists r.
    + by exists None.
    + exfalso. apply H. split; simpl; [done | lia].
  - intros data -> Hsig.
    unfold extract_psd_thumbnail, try_except, extract_body, bind, read. simpl.
    rewrite (bool_decide_eq_false_2 _ Hsig). done.
  - by intros ->.
  - intros data e f -> Hbody.
    unfold extract_psd_thumbnail, try_except. simpl. by rewrite Hbody.
Qed.

(** A file of another format, a file that cannot be opened and a PSD file
    cut off inside its header all give [None]. *)
Lemma extract_psd_thumbnail_never_raises_witness :
  extract_psd_thumbnail Sample.accepts_jpeg (Some (blit "GIF89a")) = Returned None
  /\ extract_psd_thumbnail Sample.accepts_jpeg None = Returned None
  /\ extract_psd_thumbnail Sample.accepts_jpeg (Some (blit "8BPS")) = Returned None.
Proof.
  split; [|split].
  - apply (proj1 (proj2 (extract_psd_thumbnail_never_raises Sample.accepts_jpeg
                           (Some (blit "GIF89a")))) (blit "GIF89a")).
    + reflexivity.
    + vm_compute. discriminate.
  - apply (proj1 (proj2 (proj2 (extract_psd_thumbnail_never_raises
                                  Sample.accepts_jpeg None)))).
    reflexivity.
  - eapply (proj2 (proj2 (proj2 (extract_psd_thumbnail_never_raises
                                   Sample.accepts_jpeg (Some (blit "8BPS")))))).
    + reflexivity.
    + vm_compute. reflexivity.
Defined.

(** C1, at a container that holds a raw thumbnail (id 1033) in front of a
    JPEG thumbnail (id 1036).  The round of the loop on the raw thumbnail
    reads the twelve bytes in front of its data and none of its 32 data
    bytes: it ends at position 46, not at the following block at 78.  The
    next round takes data bytes for a block signature and leaves the loop, so
    [None] is returned, whatever the decoder, although the JPEG thumbnail is
    there; a container with the raw thumbnail alone gives [None] as well.
    With the same bytes under an id that is not a thumbnail id the
    round ends at 78, and a decoder that accepts the JPEG finds it there, as
    it does when the JPEG thumbnail stands alone. *)
Theorem raw_thumbnail_data_not_skipped (loadFromData : list byte -> bool) :
  let at_raw_block := {| content := Sample.raw_then_jpeg; position := Sample.first_block |} in
  let at_other_block := {| content := Sample.other_then_jpeg; position := Sample.first_block |} in
  (fst (resource_block loadFromData at_raw_block) = Returned Continue
   /\ position (snd (resource_block loadFromData at_raw_block)) = 46%nat)
  /\ (fst (resource_block loadFromData at_other_block) = Returned Continue
      /\ position (snd (resource_block loadFromData at_other_block)) = 78%nat)
  /\ extract_psd_thumbnail loadFromData (Some Sample.raw_then_jpeg) = Returned None
  /\ extract_psd_thumbnail loadFromData (Some Sample.raw_only) = Returned None
  /\ extract_psd_thumbnail Sample.accepts_jpeg (Some Sample.other_then_jpeg)
     = Returned (Some Sample.jpeg)
  /\ extract_psd_thumbnail Sample.accepts_jpeg (Some Sample.jpeg_only)
     = Returned (Some Sample.jpeg).
Proof.
  intros at_raw_block at_other_block.
  split; [split; vm_compute; reflexivity|].
  split; [split; vm_compute; reflexivity|].
  split; [vm_compute; reflexivity|].
  split; [vm_compute; reflexivity|].
  split; vm_compute; reflexivity.
Qed.

(** ** Binary64 arithmetic stays finite on percentages *)
Module pyfloat_facts.
Import pyfloat.

(** *** The number of binary digits *)

Lemma digits2_pos_size (p : positive) : digits2_pos p = Pos.size p.
Proof. induction p; simpl; by rewrite ?IHp. Qed.

Lemma Zdigits2_nonneg (n : Z) : 0 <= Zdigits2 n.
Proof. destruct n; simpl; lia. Qed.

Lemma Zdigits2_bounds (n : Z) :
  0 < n -> 2 ^ (Zdigits2 n - 1) <= n < 2 ^ Zdigits2 n.
Proof.
  destruct n as [|p|p]; try lia. intros _. simpl. rewrite digits2_pos_size.
  pose proof (Pos.size_gt p) as Hgt. pose proof (Pos.size_le p) as Hle.
  apply Pos2Z.pos_lt_pos in Hgt. apply Pos2Z.pos_le_pos in Hle.
  rewrite Pos2Z.inj_pow in Hgt, Hle.
  replace (Z.pos p~0) with (2 * Z.pos p) in Hle by lia.
  replace (Z.pos (Pos.size p)) with (Z.succ (Z.pos (Pos.size p) - 1)) in Hle by lia.
  rewrite Z.pow_succ_r in Hle by lia. lia.
Qed.

(** A number below [2^k] has at most [k] digits. *)
Lemma Zdigits2_le (n k : Z) : 0 <= n -> 0 <= k -> n < 2 ^ k -> Zdigits2 n <= k.
Proof.
  intros Hn Hk Hlt. destruct (Z.eq_dec n 0) as [->|Hne]; [simpl; lia|].
  pose proof (Zdigits2_bounds n ltac:(lia)) as [Hlow _].
  pose proof (Zdigits2_nonneg n).
  destruct (Z_lt_le_dec k (Zdigits2 n)) as [Hlt'|]; [|lia].
  exfalso. assert (2 ^ k <= 2 ^ (Zdigits2 n - 1)) by (apply Z.pow_le_mono_r; lia).
  lia.
Qed.

Lemma Zdigits2_pos (n : Z) : 0 < n -> 1 <= Zdigits2 n.
Proof. destruct n; simpl; lia. Qed.

Lemma Zdigits2_succ (n : Z) : 0 <= n -> Zdigits2 (n + 1) <= Zdigits2 n + 1.
Proof.
  intros Hn. pose proof (Zdigits2_nonneg n).
  apply Zdigits2_le; try lia.
  destruct (Z.eq_dec n 0) as [->|Hne]; [simpl; lia|].
  pose proof (Zdigits2_bounds n ltac:(lia)) as [_ Hup].
  rewrite Z.pow_add_r by lia. lia.
Qed.

Lemma Zdigits2_mul (a b : Z) :
  0 < a -> 0 < b -> Zdigits2 (a * b) <= Zdigits2 a + Zdigits2 b.
Proof.
  intros Ha Hb. pose proof (Zdigits2_nonneg a). pose proof (Zdigits2_nonneg b).
  apply Zdigits2_le; try lia.
  pose proof (Zdigits2_bounds a Ha) as [_ Hua].
  pose proof (Zdigits2_bounds b Hb) as [_ Hub].
  rewrite Z.pow_add_r by lia. nia.
Qed.

(** Dropping [k] low bits: the quotient is zero or has [k] digits less. *)
Lemma Zdigits2_shr (m k : Z) :
  0 <= m -> 0 < k ->
  m / 2 ^ k = 0 \/ Zdigits2 (m / 2 ^ k) + k <= Zdigits2 m.
Proof.
  intros Hm Hk. destruct (Z.eq_dec (m / 2 ^ k) 0) as [|Hq]; [by left|]. right.
  assert (0 < 2 ^ k) by (apply Z.pow_pos_nonneg; lia).
  assert (0 < m / 2 ^ k) by (pose proof (Z.div_pos m (2 ^ k)); lia).
  assert (0 < m).
  { destruct (Z.eq_dec m 0) as [->|]; [|lia]. rewrite Z.div_0_l in Hq; lia. }
  pose proof (Zdigits2_bounds m ltac:(lia)) as [_ Hup].
  destruct (Z_lt_le_dec (Zdigits2 m) k) as [Hlt|Hge].
  - exfalso. apply Hq. apply Z.div_small. split; [lia|].
    assert (2 ^ Zdigits2 m <= 2 ^ k)
      by (apply Z.pow_le_mono_r; pose proof (Zdigits2_nonneg m); lia).
    lia.
  - enough (Zdigits2 (m / 2 ^ k) <= Zdigits2 m - k) by lia.
    apply Zdigits2_le; try lia.
    apply Z.div_lt_upper_bound; [lia|].
    rewrite <- Z.pow_add_r by lia.
    replace (k + (Zdigits2 m - k)) with (Zdigits2 m) by lia. lia.
Qed.

(** *** Shifting right and rounding *)

Lemma shr_1_m (mrs : shr_record) :
  0 <= shr_m mrs -> shr_m (shr_1 mrs) = shr_m mrs / 2.
Proof.
  destruct mrs as [m r s]. cbn [shr_m]. intros Hm.
  destruct m as [|[p|p|]|p]; cbn [shr_1 shr_m]; try lia.
  - done.
  - apply (Z.div_unique _ 2 _ 1); lia.
  - apply (Z.div_unique _ 2 _ 0); lia.
  - done.
Qed.

Lemma iter_shr_1_m (p : positive) :
  forall mrs, 0 <= shr_m mrs ->
    shr_m (SpecFloat.iter_pos shr_1 p mrs) = shr_m mrs / 2 ^ Zpos p.
Proof.
  assert (Hpow : forall q : positive, 0 < 2 ^ Zpos q)
    by (intros q; apply Z.pow_pos_nonneg; lia).
  induction p as [p IH|p IH|]; intros mrs Hm; cbn [SpecFloat.iter_pos].
  - assert (0 <= shr_m (shr_1 mrs))
      by (rewrite shr_1_m by done; apply Z.div_pos; lia).
    assert (0 <= shr_m (SpecFloat.iter_pos shr_1 p (shr_1 mrs)))
      by (rewrite IH by done; apply Z.div_pos; [done | apply Hpow]).
    rewrite !IH, shr_1_m by done.
    pose proof (Hpow p).
    rewrite !Z.div_div by lia.
    f_equal.
    replace (Z.pos p~1) with (1 + Z.pos p + Z.pos p) by lia.
    rewrite !Z.pow_add_r by lia. lia.
  - assert (0 <= shr_m (SpecFloat.iter_pos shr_1 p mrs))
      by (rewrite IH by done; apply Z.div_pos; [done | apply Hpow]).
    rewrite !IH by done.
    pose proof (Hpow p).
    rewrite !Z.div_div by lia.
    f_equal.
    replace (Z.pos p~0) with (Z.pos p + Z.pos p) by lia.
    rewrite !Z.pow_add_r by lia. lia.
  - by apply shr_1_m.
Qed.

Lemma shr_record_of_loc_m (m : Z) (l : location) : shr_m (shr_record_of_loc m l) = m.
Proof. by destruct l as [|[]]. Qed.

(** [shr_fexp] on a mantissa that is not negative: the exponent does not
    go down, the mantissa stays non-negative, and the position of the top
    bit does not go up. *)
Lemma shr_fexp_bounds (m e : Z) (l : location) (mrs : shr_record) (e' : Z) :
  0 <= m ->
  shr_fexp prec emax m e l = (mrs, e') ->
  0 <= shr_m mrs
  /\ e' = Z.max e (fexp prec emax (Zdigits2 m + e))
  /\ (shr_m mrs = 0 \/ Zdigits2 (shr_m mrs) + e' <= Zdigits2 m + e).
Proof.
  intros Hm. unfold shr_fexp, shr.
  destruct (fexp prec emax (Zdigits2 m + e) - e) as [|p|p] eqn:Hn;
    intros [= <- <-]; rewrite ?shr_record_of_loc_m.
  - split; [done|]. split; [lia|]. right. lia.
  - rewrite iter_shr_1_m by (by rewrite shr_record_of_loc_m).
    rewrite shr_record_of_loc_m.
    assert (0 < 2 ^ Z.pos p) by (apply Z.pow_pos_nonneg; lia).
    split; [apply Z.div_pos; lia|]. split; [lia|].
    destruct (Zdigits2_shr m (Z.pos p) Hm ltac:(lia)) as [H0|Hd]; [by left|].
    right. lia.
  - split; [done|]. split; [lia|]. right. lia.
Qed.

Lemma round_nearest_even_bounds (m : Z) (l : location) :
  0 <= m ->
  0 <= round_nearest_even m l
  /\ Zdigits2 (round_nearest_even m l) <= Zdigits2 m + 1.
Proof.
  intros Hm. pose proof (Zdigits2_succ m Hm). pose proof (Zdigits2_nonneg m).
  destruct l as [|[]]; simpl; try (split; lia).
  destruct (Z.even m); split; lia.
Qed.

(** Rounding what lies below [2^B] gives what lies below [2^(B+1)]. *)
Lemma binary_round_aux_below (B : Z) (s : bool) (m e : Z) (l : location) :
  0 <= m -> Zdigits2 m + e <= B -> e <= B -> -1074 <= B -> B + 1 <= 971 ->
  below (B + 1) (binary_round_aux prec emax s m e l).
Proof.
  intros Hm Hd He Hlow Hup. unfold binary_round_aux.
  destruct (shr_fexp prec emax m e l) as [mrs' e'] eqn:H1.
  destruct (shr_fexp_bounds m e l mrs' e' Hm H1) as (Hm' & He' & Hd').
  pose proof (round_nearest_even_bounds (shr_m mrs') (loc_of_shr_record mrs') Hm')
    as [Hr Hrd].
  set (m1 := round_nearest_even (shr_m mrs') (loc_of_shr_record mrs')) in *.
  destruct (shr_fexp prec emax m1 e' loc_Exact) as [mrs'' e''] eqn:H2.
  destruct (shr_fexp_bounds m1 e' loc_Exact mrs'' e'' Hr H2) as (Hm'' & He'' & Hd'').
  pose proof (Zdigits2_nonneg m). pose proof (Zdigits2_nonneg (shr_m mrs')).
  unfold fexp, emin, prec, emax in *.
  assert (He'B : e' <= B) by lia.
  assert (Hd1 : Zdigits2 m1 + e' <= B + 1).
  { destruct Hd' as [Hz|Hd']; [|lia]. rewrite Hz in Hrd. simpl in Hrd. lia. }
  destruct (shr_m mrs'') as [|p|p] eqn:Hp; simpl; [done| |lia].
  assert (e'' <= B + 1) by lia.
  replace (e'' <=? 1024 - 53) with true by (symmetry; apply Z.leb_le; lia).
  destruct Hd'' as [Hz|Hd'']; [discriminate|].
  cbn [below]. split; lia.
Qed.

(** *** Integers, quotients and products *)

Lemma digits2_pos_iter_xO (p k : positive) :
  Zpos (digits2_pos (Pos.iter xO p k)) = Zpos (digits2_pos p) + Zpos k.
Proof.
  induction k as [|k IH] using Pos.peano_ind.
  - simpl. lia.
  - rewrite Pos.iter_succ. simpl. lia.
Qed.

(** Rounding a mantissa that is already in place changes nothing. *)
Lemma binary_round_aux_exact (s : bool) (m : positive) (e : Z) :
  fexp prec emax (Zpos (digits2_pos m) + e) = e -> e <= 971 ->
  binary_round_aux prec emax s (Zpos m) e loc_Exact = S754_finite s m e.
Proof.
  intros Hfexp He. unfold binary_round_aux, shr_fexp. cbn [Zdigits2].
  rewrite Hfexp, Z.sub_diag. cbn [shr shr_record_of_loc shr_m loc_of_shr_record
                                  round_nearest_even Zdigits2].
  rewrite Hfexp, Z.sub_diag. cbn [shr shr_record_of_loc shr_m].
  unfold prec, emax.
  replace (e <=? 1024 - 53) with true by (symmetry; apply Z.leb_le; lia).
  done.
Qed.

(** [float(z)] for [0 < z < 2^53] is [z] itself: a finite float whose top
    bit is that of [z]. *)
Lemma of_int_exact (z : Z) :
  0 < z < 2 ^ 53 ->
  exists m e, of_int z = S754_finite false m e
              /\ Zdigits2 (Zpos m) + e = Zdigits2 z /\ e <= 0.
Proof.
  intros [Hpos Hlt]. destruct z as [|p|p]; try lia.
  assert (Hd : Zdigits2 (Zpos p) <= 53) by (apply Zdigits2_le; lia).
  pose proof (Zdigits2_pos (Zpos p) ltac:(lia)) as Hd1.
  cbn [Zdigits2] in Hd, Hd1.
  unfold of_int, binary_normalize, binary_round, shl_align.
  rewrite Z.add_0_r.
  assert (Hfexp : fexp prec emax (Zpos (digits2_pos p)) = Zpos (digits2_pos p) - 53)
    by (unfold fexp, emin, prec, emax; lia).
  rewrite Hfexp, Z.sub_0_r.
  destruct (Zpos (digits2_pos p) - 53) as [|k|k] eqn:Hk; try lia.
  - exists p, 0. rewrite binary_round_aux_exact.
    + cbn [Zdigits2]. split; [done|]. lia.
    + rewrite Z.add_0_r, Hfexp. lia.
    + lia.
  - exists (Pos.iter xO p k), (Zneg k). rewrite binary_round_aux_exact.
    + cbn [Zdigits2]. rewrite digits2_pos_iter_xO. split; [done|]. lia.
    + rewrite digits2_pos_iter_xO. unfold fexp, emin, prec, emax. lia.
    + lia.
Qed.

(** The quotient of a float below [2^53] by a float of at least 1 lies
    below [2^54]. *)
Lemma SFdiv_below (mx my : positive) (ex ey : Z) :
  Zdigits2 (Zpos mx) + ex <= 53 -> 1 <= Zdigits2 (Zpos my) + ey ->
  -1074 <= Zdigits2 (Zpos mx) + ex - (Zdigits2 (Zpos my) + ey) ->
  below 54 (SFdiv prec emax (S754_finite false mx ex) (S754_finite false my ey)).
Proof.
  intros Hx Hy Hlow. unfold SFdiv, SFdiv_core_binary.
  set (d1 := Zdigits2 (Zpos mx)) in *. set (d2 := Zdigits2 (Zpos my)) in *.
  set (e' := Z.min (fexp prec emax (d1 + ex - (d2 + ey))) (ex - ey)).
  set (s := ex - ey - e').
  set (m' := match s with
             | 0 => Zpos mx
             | Zpos _ => Z.shiftl (Zpos mx) s
             | Zneg _ => 0
             end).
  assert (He' : e' <= 53) by (unfold e', fexp, emin, prec, emax; lia).
  assert (Hs : 0 <= s) by (unfold s, e'; lia).
  assert (Hm' : m' = Zpos mx * 2 ^ s).
  { unfold m'. destruct s as [|k|k] eqn:Es; try lia.
    apply Z.shiftl_mul_pow2. lia. }
  destruct (Z.div_eucl m' (Zpos my)) as [q r] eqn:Hdiv.
  assert (Hq : q = m' / Zpos my) by (unfold Z.div; by rewrite Hdiv).
  assert (H2s : 0 < 2 ^ s) by (apply Z.pow_pos_nonneg; lia).
  assert (Hq0 : 0 <= q) by (rewrite Hq; apply Z.div_pos; lia).
  assert (Hd1 : 1 <= d1) by (apply Zdigits2_pos; lia).
  assert (Hd2 : 1 <= d2) by (apply Zdigits2_pos; lia).
  pose proof (Zdigits2_bounds (Zpos mx) ltac:(lia)) as [_ Hux]. fold d1 in Hux.
  pose proof (Zdigits2_bounds (Zpos my) ltac:(lia)) as [Hly _]. fold d2 in Hly.
  assert (Hm'lt : m' < 2 ^ (d1 + s)) by (rewrite Hm', Z.pow_add_r by lia; nia).
  assert (Hqd : Zdigits2 q + e' <= 53).
  { destruct (Z_lt_le_dec (d1 + s - d2 + 1) 0) as [Hneg|Hk].
    - assert (q = 0) as ->.
      { rewrite Hq. apply Z.div_small. split; [lia|].
        assert (2 ^ (d1 + s) <= 2 ^ (d2 - 1)) by (apply Z.pow_le_mono_r; lia).
        lia. }
      simpl. lia.
    - enough (Zdigits2 q <= d1 + s - d2 + 1) by (unfold s in *; lia).
      apply Zdigits2_le; [done | done |].
      rewrite Hq. apply Z.div_lt_upper_bound; [lia|].
      assert (2 ^ (d1 + s) = 2 ^ (d2 - 1) * 2 ^ (d1 + s - d2 + 1)) as Hsplit
        by (rewrite <- Z.pow_add_r by lia; f_equal; lia).
      assert (0 < 2 ^ (d1 + s - d2 + 1)) by (apply Z.pow_pos_nonneg; lia).
      nia. }
  apply (binary_round_aux_below 53); lia.
Qed.

(** The product of a float below [2^54] and [float(100)] is zero or
    finite. *)
Lemma SFmul_100_below (q : spec_float) :
  below 54 q -> below 62 (mul q (of_int 100)).
Proof.
  assert (H100 : of_int 100 = S754_finite false 7036874417766400 (-46))
    by (vm_compute; reflexivity).
  rewrite H100. destruct q as [s|s| |s m e]; try done. intros [Hd He].
  unfold mul, SFmul.
  pose proof (Zdigits2_mul (Zpos m) 7036874417766400 ltac:(lia) ltac:(lia)) as Hmul.
  replace (Zdigits2 7036874417766400) with 53 in Hmul by (vm_compute; reflexivity).
  rewrite <- Pos2Z.inj_mul in Hmul.
  apply (binary_round_aux_below 61); lia.
Qed.

Lemma to_int_below (B : Z) (x : spec_float) : below B x -> exists n, to_int x = Some n.
Proof. destruct x; simpl; try done; eauto. Qed.

End pyfloat_facts.

(** The percentage handed to [progress.emit] is defined for every counter
    of a batch of fewer than [2^53] templates. *)
Lemma progress_percent_defined (i total : nat) :
  (1 <= i <= total)%nat -> Z.of_nat total < 2 ^ 53 ->
  exists n, progress_percent (Z.of_nat i) (Z.of_nat total) = Some n.
Proof.
  intros Hi Htotal. unfold progress_percent, pyfloat.truediv.
  replace (Z.of_nat total =? 0) with false by (symmetry; apply Z.eqb_neq; lia).
  destruct (pyfloat_facts.of_int_exact (Z.of_nat i) ltac:(lia))
    as (mx & ex & -> & Hx & _).
  destruct (pyfloat_facts.of_int_exact (Z.of_nat total) ltac:(lia))
    as (my & ey & -> & Hy & _).
  assert (Z.of_nat i < 2 ^ 53) by lia.
  pose proof (pyfloat_facts.Zdigits2_le (Z.of_nat i) 53 ltac:(lia) ltac:(lia) ltac:(lia)).
  pose proof (pyfloat_facts.Zdigits2_le (Z.of_nat total) 53 ltac:(lia) ltac:(lia) ltac:(lia)).
  pose proof (pyfloat_facts.Zdigits2_pos (Z.of_nat i) ltac:(lia)).
  pose proof (pyfloat_facts.Zdigits2_pos (Z.of_nat total) ltac:(lia)).
  apply (pyfloat_facts.to_int_below 62), pyfloat_facts.SFmul_100_below,
    pyfloat_facts.SFdiv_below; lia.
Qed.

(** ** Traces *)

Lemma signals_app (a b : list Event) : signals (a ++ b) = signals a ++ signals b.
Proof. unfold signals. induction a as [|x a IH]; simpl; [done|]. destruct (is_signal x); simpl; by rewrite IH. Qed.

Lemma render_calls_app (a b : list Event) :
  render_calls (a ++ b) = render_calls a ++ render_calls b.
Proof. apply omap_app. Qed.

Lemma progress_values_signals (tr : list Event) :
  progress_values (signals tr) = progress_values tr.
Proof.
  unfold progress_values, signals.
  induction tr as [|x tr IH]; [done|].
  destruct x; cbn [List.filter is_signal omap list_omap]; rewrite ?IH; done.
Qed.

Lemma error_signals_signals (tr : list Event) :
  error_signals (signals tr) = error_signals tr.
Proof.
  unfold error_signals, signals.
  induction tr as [|x tr IH]; [done|].
  destruct x; cbn [List.filter is_signal omap list_omap]; rewrite ?IH; done.
Qed.

Lemma finished_count_signals (tr : list Event) :
  finished_count (signals tr) = finished_count tr.
Proof.
  unfold finished_count, signals.
  induction tr as [|x tr IH]; [done|].
  destruct x; cbn [List.filter is_signal]; try done;
    destruct (bool_decide _); cbn [length]; by rewrite IH.
Qed.

Lemma error_signals_app (a b : list Event) :
  error_signals (a ++ b) = error_signals a ++ error_signals b.
Proof. apply omap_app. Qed.

Lemma progress_values_app (a b : list Event) :
  progress_values (a ++ b) = progress_values a ++ progress_values b.
Proof. apply omap_app. Qed.

Lemma dispatch_calls_app (a b : list Event) :
  dispatch_calls (a ++ b) = dispatch_calls a ++ dispatch_calls b.
Proof. apply omap_app. Qed.

Lemma finished_count_app (a b : list Event) :
  finished_count (a ++ b) = (finished_count a + finished_count b)%nat.
Proof. unfold finished_count. by rewrite List.filter_app, length_app. Qed.

(** The signals of the items: log lines and progress values only. *)
Lemma item_signals_plain (total : nat) (ir : nat * ItemResult) :
  error_signals (item_signals total ir) = []
  /\ finished_count (item_signals total ir) = 0%nat
  /\ map Some (progress_values (item_signals total ir))
     = match progress_percent (Z.of_nat ir.1) (Z.of_nat total) with
       | Some n => [Some n]
       | None => []
       end.
Proof.
  destruct ir as [i [name [e|]]]; unfold item_signals; simpl;
    destruct (progress_percent _ _); done.
Qed.

Lemma items_signals_plain (total : nat) (l : list (nat * ItemResult)) :
  error_signals (flat_map (item_signals total) l) = []
  /\ finished_count (flat_map (item_signals total) l) = 0%nat
  /\ map Some (progress_values (flat_map (item_signals total) l))
     = flat_map (fun ir => match progress_percent (Z.of_nat ir.1) (Z.of_nat total) with
                           | Some n => [Some n]
                           | None => []
                           end) l.
Proof.
  induction l as [|ir l (IH1 & IH2 & IH3)]; [done|].
  destruct (item_signals_plain total ir) as (H1 & H2 & H3).
  cbn [flat_map].
  rewrite error_signals_app, finished_count_app, progress_values_app, map_app.
  by rewrite H1, H2, H3, IH1, IH2, IH3.
Qed.

Section WorkerFacts.

Context `{Env : Environment}.

Opaque lit str_of_nat progress_percent get_unique_filepath.
Opaque ntpath.basename ntpath.splitext ntpath.join.

Local Ltac item_done :=
  match goal with
  | H : progress_percent _ _ = Some _ |- _ => rewrite ?H
  end; unfold emit, modify; cbn [world trace]; rewrite <- ?app_assoc;
  eexists; split; [reflexivity|]; split; reflexivity.

(** One template: the item is processed to its end whatever the renderer
    does, in the world the renderer leaves, with the signals of its
    result and one invocation of the renderer. *)
Lemma process_item_result (job : Job) (total i : nat) (psd : str) (m : Machine) :
  (1 <= i <= total)%nat -> Z.of_nat total < 2 ^ 53 ->
  let out := output_path job (world m) psd in
  let '(failed, w') := render_in (world m) psd (art job) out in
  exists ev,
    process_item job total (i, psd) m
      = (Returned tt, {| world := w'; trace := trace m ++ ev |})
    /\ signals ev
       = item_signals total
           (i, {| final_name := ntpath.basename out; failure := failed |})
    /\ render_calls ev = [(psd, art job, out)].
Proof.
  intros Hi Htotal out.
  destruct (progress_percent_defined i total Hi Htotal) as [n Hn].
  unfold process_item, output_path, unique_filepath, render_in, render in *.
  destruct (get_unique_filepath_total (existing (world m))
              (ntpath.join (out_dir job)
                 ((ntpath.splitext (ntpath.basename psd)).1 ++ lit ".jpg")))
    as (result & Hres).
  subst out.
  unfold bind, try_except, emit, modify, external, emit_progress, item_signals.
  cbn. rewrite !Hres. cbn. rewrite ?Hn.
  destruct (Dispatch photoshop (world m)) as [[e1|] w1]; cbn.
  { item_done. }
  destruct (set_Visible false w1) as [[e2|] w2]; cbn.
  { item_done. }
  destruct (DoJavaScript psd (art job) result w2) as [[e3|] w3]; cbn.
  { item_done. }
  item_done.
Qed.

Lemma render_results_length (job : Job) (templates : list str) :
  forall w, length (render_results job w templates) = length templates.
Proof.
  induction templates as [|psd rest IH]; intros w; [done|].
  cbn [render_results]. destruct (render_in _ _ _ _) as [failed w'].
  cbn [length]. by rewrite IH.
Qed.

(** The loop over the templates, from the counter [k] on: it runs to its
    end, with the signals of the results of the templates and one
    invocation of the renderer per template, in order. *)
Lemma for_each_items (job : Job) (total : nat) (templates : list str) :
  Z.of_nat total < 2 ^ 53 ->
  forall (k : nat) (m : Machine),
    (1 <= k)%nat -> (k + length templates <= S total)%nat ->
    exists ev w',
      for_each (zip (seq k (length templates)) templates)
               (process_item job total) m
        = (Returned tt, {| world := w'; trace := trace m ++ ev |})
      /\ signals ev
         = flat_map (item_signals total)
             (zip (seq k (length templates))
                  (render_results job (world m) templates))
      /\ map (fun c => c.1.1) (render_calls ev) = templates.
Proof.
  intros Htotal.
  induction templates as [|psd rest IH]; intros k m Hk Hlen.
  - exists [], (world m). rewrite app_nil_r. by destruct m.
  - cbn [length seq zip zip_with for_each render_results].
    pose proof (process_item_result job total k psd m) as Hitem.
    cbn [length] in Hlen.
    specialize (Hitem ltac:(lia) Htotal). cbv zeta in Hitem.
    destruct (render_in _ _ _ _) as [failed w1].
    destruct Hitem as (ev1 & Hrun & Hsig & Hcalls).
    destruct (IH (S k) {| world := w1; trace := trace m ++ ev1 |}
                ltac:(lia) ltac:(lia)) as (ev2 & w2 & Hrest & Hsig2 & Hcalls2).
    exists (ev1 ++ ev2), w2.
    unfold bind. rewrite Hrun, Hrest. cbn [trace world] in *.
    rewrite app_assoc. split; [done|].
    rewrite signals_app, render_calls_app, map_app, Hsig, Hsig2, Hcalls, Hcalls2.
    done.
Qed.

(** A run whose availability check passes. *)
Lemma run_passing (job : Job) (m : Machine) (w1 : World) :
  Dispatch photoshop (world m) = (None, w1) ->
  Z.of_nat (length (psds job)) < 2 ^ 53 ->
  let total := length (psds job) in
  exists ev w',
    run job m
      = (Returned tt,
         {| world := w';
            trace := trace m
                     ++ [called_Dispatch photoshop;
                         log_emit (lit "✓ Photoshop detected - Processing "
                                     ++ str_of_nat total ++ lit " mockup(s)...")]
                     ++ ev ++ [finished_emit] |})
    /\ signals ev
       = flat_map (item_signals total)
           (enumerate1 (render_results job w1 (psds job)))
    /\ map (fun c => c.1.1) (render_calls ev) = psds job.
Proof.
  intros Hcheck Htotal total.
  destruct (for_each_items job total (psds job) Htotal 1
              {| world := w1;
                 trace := trace m ++
                   [called_Dispatch photoshop;
                    log_emit (lit "✓ Photoshop detected - Processing "
                                ++ str_of_nat total ++ lit " mockup(s)...")] |}
              ltac:(lia) ltac:(unfold total; lia))
    as (ev & w' & Hloop & Hsig & Hcalls).
  exists ev, w'. split; [|split; [|done]].
  - unfold run, bind, try_except, external, emit, modify. cbn.
    rewrite Hcheck. cbn. unfold enumerate1.
    rewrite <- app_assoc. cbn [app]. subst total.
    cbn [trace world] in Hloop.
    rewrite Hloop. cbn. by rewrite <- !app_assoc.
  - rewrite Hsig. unfold enumerate1. cbn [world].
    by rewrite render_results_length.
Qed.

(** A run whose availability check fails. *)
Lemma run_failing (job : Job) (m : Machine) (e : exn) (w1 : World) :
  Dispatch photoshop (world m) = (Some e, w1) ->
  run job m
    = (Returned tt,
       {| world := w1;
          trace := trace m
                   ++ called_Dispatch photoshop
                      :: map log_emit (photoshop_missing_log e)
                      ++ [error_emit (lit "Photoshop not found")] |}).
Proof.
  intros Hcheck.
  unfold run, bind, try_except, external, emit, modify. cbn.
  rewrite Hcheck. cbn. by rewrite <- !app_assoc.
Qed.

(** The progress values of the items are the percentages of the counters
    from [k] on. *)
Lemma items_progress (total : nat) (results : list ItemResult) :
  Z.of_nat total < 2 ^ 53 ->
  forall k, (1 <= k)%nat -> (k + length results <= S total)%nat ->
    flat_map (fun ir : nat * ItemResult =>
                match progress_percent (Z.of_nat ir.1) (Z.of_nat total) with
                | Some n => [Some n]
                | None => []
                end)
             (zip (seq k (length results)) results)
    = map (fun i => progress_percent (Z.of_nat i) (Z.of_nat total))
          (seq k (length results)).
Proof.
  intros Htotal. induction results as [|r rest IH]; intros k Hk Hlen; [done|].
  cbn [length] in *. cbn [seq zip zip_with flat_map map fst].
  destruct (progress_percent_defined k total ltac:(lia) Htotal) as [n ->].
  cbn [app]. f_equal. apply IH; lia.
Qed.

End WorkerFacts.

Transparent lit str_of_nat progress_percent get_unique_filepath.
Transparent ntpath.basename ntpath.splitext ntpath.join.

Lemma map_Some_inj {A} (l1 l2 : list A) : map Some l1 = map Some l2 -> l1 = l2.
Proof.
  revert l2. induction l1 as [|a l1 IH]; intros [|b l2]; simpl; try done.
  intros [= -> H]. by rewrite (IH _ H).
Qed.

Section WorkerClaims.

Context `{Env : Environment}.

(** C3.  When the availability check of Photoshop fails, the run ends
    after the log lines that explain the failure and one [error] signal:
    the renderer is never invoked, no progress value is emitted, [finished]
    is not emitted, and [Dispatch] has been called exactly once, as the
    first thing the run does.  When the check passes it is likewise the
    first thing the run does, before the first template. *)
Theorem run_aborts_without_photoshop (job : Job) (m : Machine) :
  (forall e w1,
     Dispatch photoshop (world m) = (Some e, w1) ->
     exists ev,
       run job m = (Returned tt, {| world := w1; trace := trace m ++ ev |})
       /\ ev = called_Dispatch photoshop
               :: map log_emit (photoshop_missing_log e)
               ++ [error_emit (lit "Photoshop not found")]
       /\ error_signals ev = [lit "Photoshop not found"]
       /\ render_calls ev = []
       /\ progress_values ev = []
       /\ finished_count ev = 0%nat
       /\ dispatch_calls ev = [photoshop])
  /\ (forall w1,
        Dispatch photoshop (world m) = (None, w1) ->
        Z.of_nat (length (psds job)) < 2 ^ 53 ->
        exists ev w',
          run job m
            = (Returned tt,
               {| world := w';
                  trace := trace m ++ called_Dispatch photoshop :: ev |})).
Proof.
  split.
  - intros e w1 Hcheck. eexists. split; [by apply run_failing|].
    split; [done|]. by vm_compute.
  - intros w1 Hcheck Htotal.
    destruct (run_passing job m w1 Hcheck Htotal) as (ev & w' & Hrun & _).
    eexists _, w'. rewrite Hrun. reflexivity.
Qed.

(** C4.  When the availability check passes, the run goes through every
    template in order, whatever the renderer does: the renderer is invoked
    once per template, the signals are the line that announces the batch,
    then for each template its [Processing] line, the error line if the
    renderer failed on it, and its progress value, and at the very end
    [finished], emitted once.  No [error] signal is emitted. *)
Theorem run_completes_despite_failures (job : Job) (m : Machine) (w1 : World) :
  Dispatch photoshop (world m) = (None, w1) ->
  Z.of_nat (length (psds job)) < 2 ^ 53 ->
  let total := length (psds job) in
  let results := render_results job w1 (psds job) in
  exists ev w',
    run job m = (Returned tt, {| world := w'; trace := trace m ++ ev |})
    /\ length results = total
    /\ signals ev
       = [log_emit (lit "✓ Photoshop detected - Processing "
                      ++ str_of_nat total ++ lit " mockup(s)...")]
         ++ flat_map (item_signals total) (enumerate1 results)
         ++ [finished_emit]
    /\ map (fun c => c.1.1) (render_calls ev) = psds job
    /\ finished_count ev = 1%nat
    /\ last ev = Some finished_emit
    /\ error_signals ev = [].
Proof.
  intros Hcheck Htotal total results.
  destruct (run_passing job m w1 Hcheck Htotal) as (ev & w' & Hrun & Hsig & Hcalls).
  fold total results in Hsig, Hrun.
  destruct (items_signals_plain total (enumerate1 results)) as (Herr & Hfin & _).
  eexists _, w'. split; [exact Hrun|].
  split; [apply render_results_length|].
  assert (Hall : signals ([called_Dispatch photoshop;
                   log_emit (lit "✓ Photoshop detected - Processing "
                               ++ str_of_nat total ++ lit " mockup(s)...")]
                  ++ ev ++ [finished_emit])
                 = [log_emit (lit "✓ Photoshop detected - Processing "
                                ++ str_of_nat total ++ lit " mockup(s)...")]
                   ++ flat_map (item_signals total) (enumerate1 results)
                   ++ [finished_emit]).
  { rewrite !signals_app, Hsig. done. }
  split; [exact Hall|].
  split; [by rewrite !render_calls_app, app_nil_r|].
  split.
  { rewrite <- finished_count_signals, Hall, !finished_count_app, Hfin. done. }
  split.
  { rewrite app_assoc. apply last_snoc. }
  rewrite <- error_signals_signals, Hall, !error_signals_app, Herr. done.
Qed.

(** C2, as the code has it.  When the availability check passes, one
    progress value is emitted per template, in order, and the value after
    the [i]-th of [total] templates is [int((i / total) * 100)]: the
    binary64 quotient, times 100, cut off towards zero.  For three
    templates the values are 33, 66 and 100. *)
Theorem run_progress_truncates (job : Job) (m : Machine) (w1 : World) :
  Dispatch photoshop (world m) = (None, w1) ->
  Z.of_nat (length (psds job)) < 2 ^ 53 ->
  let total := length (psds job) in
  exists ev w',
    run job m = (Returned tt, {| world := w'; trace := trace m ++ ev |})
    /\ map Some (progress_values ev)
       = map (fun i => progress_percent (Z.of_nat i) (Z.of_nat total)) (seq 1 total)
    /\ (total = 3%nat -> progress_values ev = [33; 66; 100]).
Proof.
  intros Hcheck Htotal total.
  destruct (run_passing job m w1 Hcheck Htotal) as (ev & w' & Hrun & Hsig & _).
  fold total in Hsig, Hrun.
  eexists _, w'. split; [exact Hrun|].
  assert (Hvalues : map Some (progress_values
             ([called_Dispatch photoshop;
               log_emit (lit "✓ Photoshop detected - Processing "
                           ++ str_of_nat total ++ lit " mockup(s)...")]
              ++ ev ++ [finished_emit]))
           = map (fun i => progress_percent (Z.of_nat i) (Z.of_nat total))
                 (seq 1 total)).
  { rewrite !progress_values_app. cbn [progress_values omap list_omap app].
    rewrite app_nil_r, <- progress_values_signals, Hsig.
    destruct (items_signals_plain total
                (enumerate1 (render_results job w1 (psds job)))) as (_ & _ & ->).
    unfold enumerate1.
    rewrite items_progress; rewrite ?render_results_length; try done; try lia. }
  split; [exact Hvalues|].
  intros H3.
  set (values := progress_values _) in *. clearbody values.
  rewrite H3 in Hvalues.
  change (map _ (seq 1 3)) with [progress_percent 1 3; progress_percent 2 3;
                                 progress_percent 3 3] in Hvalues.
  replace [progress_percent 1 3; progress_percent 2 3; progress_percent 3 3]
    with (map Some [33; 66; 100]) in Hvalues by (vm_compute; reflexivity).
  by apply map_Some_inj in Hvalues.
Qed.

End WorkerClaims.

(** Without Photoshop, a batch of three templates ends with the [error]
    signal and without a single invocation of the renderer. *)
Lemma run_aborts_without_photoshop_witness :
  let r := run Toy.three_templates (Toy.start Toy.no_photoshop) in
  fst r = Returned tt
  /\ error_signals (trace (snd r)) = [lit "Photoshop not found"]
  /\ render_calls (trace (snd r)) = []
  /\ progress_values (trace (snd r)) = []
  /\ finished_count (trace (snd r)) = 0%nat
  /\ dispatch_calls (trace (snd r)) = [photoshop].
Proof.
  destruct (proj1 (run_aborts_without_photoshop Toy.three_templates
                     (Toy.start Toy.no_photoshop))
              Toy.com_error Toy.no_photoshop eq_refl)
    as (ev & Hrun & _ & Herr & Hcalls & Hprog & Hfin & Hdisp).
  cbv zeta. rewrite Hrun. cbn [fst snd trace Toy.start app].
  repeat split; assumption.
Defined.

(** With Photoshop, the same batch runs to its end although the second
    template fails: the results are a success, a failure and a success, and
    [finished] is emitted once. *)
Lemma run_completes_despite_failures_witness :
  let r := run Toy.three_templates (Toy.start Toy.studio) in
  fst r = Returned tt
  /\ map (fun x => bool_decide (failure x = None))
         (render_results Toy.three_templates Toy.studio (psds Toy.three_templates))
     = [true; false; true]
  /\ map (fun c => c.1.1) (render_calls (trace (snd r))) = psds Toy.three_templates
  /\ finished_count (trace (snd r)) = 1%nat
  /\ last (trace (snd r)) = Some finished_emit
  /\ error_signals (trace (snd r)) = [].
Proof.
  destruct (run_completes_despite_failures Toy.three_templates
              (Toy.start Toy.studio) Toy.studio eq_refl eq_refl)
    as (ev & w' & Hrun & _ & _ & Hcalls & Hfin & Hlast & Herr).
  cbv zeta. rewrite Hrun. cbn [fst snd trace Toy.start app].
  split; [reflexivity|]. split; [vm_compute; reflexivity|].
  repeat split; assumption.
Defined.

(** The progress values of the batch of three templates. *)
Lemma run_progress_truncates_witness :
  let r := run Toy.three_templates (Toy.start Toy.studio) in
  fst r = Returned tt /\ progress_values (trace (snd r)) = [33; 66; 100].
Proof.
  destruct (run_progress_truncates Toy.three_templates
              (Toy.start Toy.studio) Toy.studio eq_refl eq_refl)
    as (ev & w' & Hrun & _ & Hthree).
  cbv zeta. rewrite Hrun. cbn [fst snd trace Toy.start app].
  split; [reflexivity|]. apply Hthree. reflexivity.
Defined.

(** C2, as the specification words it, fails on the batch of three
    templates: rounding gives 33, 67 and 100, the run emits 33, 66 and
    100. *)
Lemma progress_is_not_rounded :
  let emitted :=
    progress_values (trace (snd (run Toy.three_templates (Toy.start Toy.studio)))) in
  emitted = [33; 66; 100]
  /\ map (fun i => rounded_percent i 3) [1; 2; 3] = [33; 67; 100]
  /\ emitted <> map (fun i => rounded_percent i 3) [1; 2; 3].
Proof.
  cbv zeta. split; [vm_compute; reflexivity|].
  split; [vm_compute; reflexivity|].
  vm_compute. discriminate.
Qed.

(** ** The download cache *)

Lemma fetches_app (a b : list Event) : fetches (a ++ b) = fetches a ++ fetches b.
Proof. apply omap_app. Qed.

Lemma under_self (d : str) : under d d = true.
Proof. unfold under. by rewrite bool_decide_eq_true_2. Qed.

Lemma under_child (d f : str) : under d (d ++ [ntpath.sep] ++ f) = true.
Proof. unfold under. rewrite app_assoc, startswith_app. by rewrite orb_true_r. Qed.

Lemma endswith_app (p a : str) : endswith p (a ++ p) = true.
Proof. unfold endswith. rewrite rev_app_distr. apply startswith_app. Qed.

Section CacheFacts.

Context `{Env : Environment}.

Opaque lit str_of_nat ntpath.join _get_cached_filename
       _get_google_drive_direct_link.

(** A cached file is used as it is: nothing is fetched, nothing is printed,
    the world is left alone. *)
Lemma ensure_cached_hit (lib : MockupLibrary) (acc : list str * nat) (url : str)
    (m : Machine) :
  path_exists (existing (world m)) (cache_path_of lib url) = true ->
  ensure_cached lib acc url m
    = (Returned (acc.1 ++ [cache_path_of lib url], S acc.2), m).
Proof.
  intros Hhit. destruct acc as [cloud_psds cached_count].
  unfold ensure_cached, cache_path_of, bind, os_path_exists in *.
  cbn. rewrite Hhit. reflexivity.
Qed.

(** A file that is not cached is fetched, once, to its cache path; the
    path is returned when the download went through. *)
Lemma ensure_cached_miss (lib : MockupLibrary) (acc : list str * nat) (url : str)
    (m : Machine) :
  path_exists (existing (world m)) (cache_path_of lib url) = false ->
  let download_url := _get_google_drive_direct_link url in
  let '(failed, w1) := urlretrieve download_url (cache_path_of lib url) (world m) in
  exists ev,
    ensure_cached lib acc url m
      = (Returned (match failed with
                   | None => (acc.1 ++ [cache_path_of lib url], acc.2)
                   | Some _ => acc
                   end),
         {| world := w1; trace := trace m ++ ev |})
    /\ fetches ev = [(download_url, cache_path_of lib url)].
Proof.
  intros Hmiss download_url. destruct acc as [cloud_psds cached_count].
  unfold ensure_cached, cache_path_of, bind, os_path_exists in *.
  cbn. rewrite Hmiss. cbn.
  unfold _download_file, try_except, bind, print, emit, modify, external. cbn.
  subst download_url.
  destruct (urlretrieve _ _ (world m)) as [[e|] w1]; cbn.
  - destruct (is_URLError e); cbn; rewrite <- !app_assoc;
      eexists; split; reflexivity.
  - rewrite <- !app_assoc. eexists; split; reflexivity.
Qed.

Opaque ensure_cached.

(** [_get_cloud_mockups] on a library with one cloud source. *)
Lemma get_cloud_mockups_hit (lib : MockupLibrary) (url : str) (m : Machine) :
  cloud_urls lib = [url] ->
  path_exists (existing (world m)) (cache_path_of lib url) = true ->
  exists ev,
    _get_cloud_mockups lib m
      = (Returned [cache_path_of lib url],
         {| world := world m; trace := trace m ++ ev |})
    /\ fetches ev = [].
Proof.
  intros Hurls Hhit.
  unfold _get_cloud_mockups. rewrite Hurls. cbn [length Nat.eqb fold_each].
  unfold bind, count_needed, os_path_exists. cbn. rewrite Hhit. cbn.
  unfold print, emit, modify. cbn.
  rewrite ensure_cached_hit by exact Hhit. cbn.
  rewrite <- !app_assoc. eexists; split; reflexivity.
Qed.

Lemma get_cloud_mockups_miss (lib : MockupLibrary) (url : str) (m : Machine) :
  cloud_urls lib = [url] ->
  path_exists (existing (world m)) (cache_path_of lib url) = false ->
  let download_url := _get_google_drive_direct_link url in
  let '(failed, w1) := urlretrieve download_url (cache_path_of lib url) (world m) in
  exists ev,
    _get_cloud_mockups lib m
      = (Returned (match failed with
                   | None => [cache_path_of lib url]
                   | Some _ => []
                   end),
         {| world := w1; trace := trace m ++ ev |})
    /\ fetches ev = [(download_url, cache_path_of lib url)].
Proof.
  intros Hurls Hmiss download_url.
  unfold _get_cloud_mockups. rewrite Hurls. cbn [length Nat.eqb fold_each].
  unfold bind, count_needed, os_path_exists. cbn. rewrite Hmiss. cbn.
  unfold print, emit, modify. cbn.
  match goal with
  | |- context [ensure_cached lib ?acc url ?m1] =>
      pose proof (ensure_cached_miss lib acc url m1 Hmiss) as Hstep
  end.
  cbv zeta in Hstep. cbn [world trace] in Hstep. subst download_url.
  destruct (urlretrieve _ _ (world m)) as [failed w1].
  destruct Hstep as (ev & -> & Hfetch).
  destruct failed as [e|]; cbn; rewrite <- !app_assoc;
    eexists; (split; [reflexivity|]);
    rewrite !fetches_app, Hfetch; reflexivity.
Qed.

(** C7.  When the file is at the cache path of a URL, it is used: the path
    is returned and the machine is left as it was, so that nothing is
    fetched.  Hence, for a URL that is not cached and whose download goes
    through and leaves the file at the cache path, two calls in a row fetch
    exactly once: the first call downloads to the cache path, the second
    finds the file and fetches nothing.  The same holds for two calls of
    [_get_cloud_mockups] on a library with this one URL. *)
Theorem ensure_cached_fetches_once (lib : MockupLibrary) (url : str) (m : Machine) :
  let cache_path := cache_path_of lib url in
  let download_url := _get_google_drive_direct_link url in
  (forall acc,
     path_exists (existing (world m)) cache_path = true ->
     ensure_cached lib acc url m = (Returned (acc.1 ++ [cache_path], S acc.2), m))
  /\ (forall acc w1,
        path_exists (existing (world m)) cache_path = false ->
        urlretrieve download_url cache_path (world m) = (None, w1) ->
        path_exists (existing w1) cache_path = true ->
        exists ev m1,
          ensure_cached lib acc url m = (Returned (acc.1 ++ [cache_path], acc.2), m1)
          /\ m1 = {| world := w1; trace := trace m ++ ev |}
          /\ fetches ev = [(download_url, cache_path)]
          /\ forall acc',
               ensure_cached lib acc' url m1
               = (Returned (acc'.1 ++ [cache_path], S acc'.2), m1))
  /\ (forall w1,
        cloud_urls lib = [url] ->
        path_exists (existing (world m)) cache_path = false ->
        urlretrieve download_url cache_path (world m) = (None, w1) ->
        path_exists (existing w1) cache_path = true ->
        exists ev1 ev2,
          let m1 := {| world := w1; trace := trace m ++ ev1 |} in
          let m2 := {| world := w1; trace := trace m1 ++ ev2 |} in
          _get_cloud_mockups lib m = (Returned [cache_path], m1)
          /\ _get_cloud_mockups lib m1 = (Returned [cache_path], m2)
          /\ fetches ev1 = [(download_url, cache_path)]
          /\ fetches ev2 = []).
Proof.
  intros cache_path download_url. split; [|split].
  - intros acc Hhit. by apply ensure_cached_hit.
  - intros acc w1 Hmiss Hok Hthere.
    pose proof (ensure_cached_miss lib acc url m Hmiss) as Hstep.
    cbv zeta in Hstep. fold cache_path download_url in Hstep.
    rewrite Hok in Hstep. destruct Hstep as (ev & Hrun & Hfetch).
    eexists ev, _. split; [exact Hrun|]. split; [reflexivity|].
    split; [exact Hfetch|]. intros acc'. by apply ensure_cached_hit.
  - intros w1 Hurls Hmiss Hok Hthere.
    pose proof (get_cloud_mockups_miss lib url m Hurls Hmiss) as Hfirst.
    cbv zeta in Hfirst. fold cache_path download_url in Hfirst.
    rewrite Hok in Hfirst. destruct Hfirst as (ev1 & Hrun1 & Hfetch1).
    destruct (get_cloud_mockups_hit lib url
                {| world := w1; trace := trace m ++ ev1 |} Hurls Hthere)
      as (ev2 & Hrun2 & Hfetch2).
    exists ev1, ev2. cbv zeta. by rewrite Hrun1, Hrun2.
Qed.

Transparent ensure_cached.

(** [clear_cache] when the cache directory is missing: nothing happens. *)
Lemma clear_cache_missing (lib : MockupLibrary) (m : Machine) :
  path_exists (existing (world m)) (cache_dir lib) = false ->
  clear_cache lib m = (Returned false, m).
Proof.
  intros Hmiss.
  unfold clear_cache, try_except, bind, os_path_exists. cbn.
  rewrite Hmiss. reflexivity.
Qed.

(** [clear_cache] when the cache directory is there and both file system
    calls go through. *)
Lemma clear_cache_present (lib : MockupLibrary) (m : Machine) (w1 w2 : World) :
  path_exists (existing (world m)) (cache_dir lib) = true ->
  rmtree (cache_dir lib) (world m) = (None, w1) ->
  makedirs (cache_dir lib) w1 = (None, w2) ->
  clear_cache lib m
    = (Returned true,
       {| world := w2;
          trace := trace m ++ [called_rmtree (cache_dir lib);
                               called_makedirs (cache_dir lib);
                               printed (lit "Cloud cache cleared")] |}).
Proof.
  intros Hthere Hrm Hmk.
  unfold clear_cache, try_except, bind, os_path_exists, external, print, emit, modify.
  cbn. rewrite Hthere. cbn. rewrite Hrm. cbn. rewrite Hmk. cbn.
  by rewrite <- !app_assoc.
Qed.

(** What is left once everything below [d] is removed and [d] is made
    again: [d], empty, and the paths outside [d]. *)
Lemma cleared_files (old : gset str) (d : str) :
  let cleared : gset str := {[ d ]} ∪ filter (fun p => under d p = false) old in
  empty_directory cleared d
  /\ (forall p, under d p = false -> p ∈ cleared <-> p ∈ old)
  /\ ({[ d ]} ∪ filter (fun p => under d p = false) cleared = cleared).
Proof.
  intros cleared. pose proof (under_self d) as Hself. split; [|split].
  - split; [apply elem_of_union; left; by apply elem_of_singleton|].
    intros p Hp Hunder.
    apply elem_of_union in Hp as [Hp|Hp]; [by apply elem_of_singleton in Hp|].
    apply elem_of_filter in Hp as [Hp _]. congruence.
  - intros p Hp. unfold cleared. rewrite elem_of_union, elem_of_filter, elem_of_singleton.
    split; [|by auto]. intros [->|[_ H]]; [congruence | done].
  - apply set_eq. intros p. unfold cleared.
    rewrite !elem_of_union, !elem_of_filter, !elem_of_union, !elem_of_filter,
      !elem_of_singleton.
    split; [|by intuition]. intros [->|[Hp [->|H]]]; auto.
Qed.

End CacheFacts.

Transparent lit str_of_nat ntpath.join _get_cached_filename
            _get_google_drive_direct_link.

(** Two calls in a row on the one cloud source of the library, from an
    empty cache: one download, then a cache hit. *)
Lemma ensure_cached_fetches_once_witness :
  let r1 := _get_cloud_mockups Toy.library (Toy.start Toy.with_cache) in
  let r2 := _get_cloud_mockups Toy.library (snd r1) in
  fst r1 = Returned [cache_path_of Toy.library Toy.design_url]
  /\ fst r2 = Returned [cache_path_of Toy.library Toy.design_url]
  /\ fetches (trace (snd r2))
     = [(Toy.design_url, cache_path_of Toy.library Toy.design_url)].
Proof.
  destruct (proj2 (proj2 (ensure_cached_fetches_once Toy.library Toy.design_url
                            (Toy.start Toy.with_cache)))
              Toy.downloaded eq_refl
              ltac:(vm_compute; reflexivity)
              ltac:(vm_compute; reflexivity)
              ltac:(vm_compute; reflexivity))
    as (ev1 & ev2 & Hrun1 & Hrun2 & Hfetch1 & Hfetch2).
  cbv zeta in *. rewrite Hrun1. cbn [fst snd]. rewrite Hrun2. cbn [fst snd trace].
  split; [reflexivity|]. split; [reflexivity|].
  cbn [Toy.start trace app]. rewrite fetches_app, Hfetch1, Hfetch2.
  vm_compute. reflexivity.
Defined.

Section ClearCache.

Context `{Env : Environment}.

(** C8, as the code has it.  When the cache directory is missing,
    [clear_cache] does nothing: it returns [False], the machine is left as
    it was (the directory is not made), and a second call does the same.
    When the directory is there and its removal and its creation go
    through, removing what lies below it and adding it again,
    [clear_cache] returns [True] and leaves the directory existing and
    empty, and the paths outside it as they were; a second call leaves the
    same files; and the next use of any URL whose cache path lies below
    the directory fetches it, whether or not it was cached before. *)
Theorem clear_cache_resets_existing_directory (lib : MockupLibrary) (m : Machine) :
  let d := cache_dir lib in
  let removed (files : gset str) : gset str :=
    filter (fun p => under d p = false) files in
  (path_exists (existing (world m)) d = false ->
     clear_cache lib m = (Returned false, m)
     /\ bind (clear_cache lib) (fun _ => clear_cache lib) m = clear_cache lib m)
  /\ (forall w1 w2,
        path_exists (existing (world m)) d = true ->
        rmtree d (world m) = (None, w1) ->
        existing w1 = removed (existing (world m)) ->
        makedirs d w1 = (None, w2) ->
        existing w2 = {[ d ]} ∪ existing w1 ->
        exists m',
          clear_cache lib m = (Returned true, m')
          /\ world m' = w2
          /\ empty_directory (existing w2) d
          /\ (forall p, under d p = false ->
                p ∈ existing w2 <-> p ∈ existing (world m))
          /\ (forall w3 w4,
                rmtree d w2 = (None, w3) ->
                existing w3 = removed (existing w2) ->
                makedirs d w3 = (None, w4) ->
                existing w4 = {[ d ]} ∪ existing w3 ->
                exists m'',
                  clear_cache lib m' = (Returned true, m'')
                  /\ existing (world m'') = existing (world m'))
          /\ (forall url acc,
                under d (cache_path_of lib url) = true ->
                cache_path_of lib url <> d ->
                exists r m'' ev,
                  ensure_cached lib acc url m' = (r, m'')
                  /\ trace m'' = trace m' ++ ev
                  /\ fetches ev
                     = [(_get_google_drive_direct_link url, cache_path_of lib url)])).
Proof.
  intros d removed. split.
  - intros Hmiss. pose proof (clear_cache_missing lib m Hmiss) as Hclear.
    split; [exact Hclear|]. unfold bind. by rewrite Hclear.
  - intros w1 w2 Hthere Hrm Hw1 Hmk Hw2.
    pose proof (clear_cache_present lib m w1 w2 Hthere Hrm Hmk) as Hclear.
    destruct (cleared_files (existing (world m)) d) as (Hempty & Houtside & Hagain).
    cbv zeta in Hempty, Houtside, Hagain.
    assert (Hfiles : existing w2
                     = {[ d ]} ∪ filter (fun p => under d p = false) (existing (world m)))
      by (by rewrite Hw2, Hw1).
    eexists. split; [exact Hclear|]. split; [reflexivity|].
    rewrite Hfiles. split; [exact Hempty|]. split; [exact Houtside|]. split.
    + intros w3 w4 Hrm' Hw3 Hmk' Hw4.
      assert (Hthere' : path_exists (existing w2) d = true).
      { unfold path_exists. apply bool_decide_eq_true_2. rewrite Hfiles.
        apply elem_of_union. left. by apply elem_of_singleton. }
      eexists. split; [by apply (clear_cache_present lib _ w3 w4)|].
      cbn [world]. rewrite Hw4, Hw3. unfold removed. rewrite Hfiles. exact Hagain.
    + intros url acc Hunder Hne.
      assert (Hmiss : path_exists (existing w2) (cache_path_of lib url) = false).
      { unfold path_exists. apply bool_decide_eq_false_2. rewrite Hfiles.
        rewrite elem_of_union, elem_of_filter, elem_of_singleton.
        intros [?|[? _]]; [done | congruence]. }
      match goal with
      | |- context [ensure_cached lib acc url ?m1] =>
          pose proof (ensure_cached_miss lib acc url m1 Hmiss) as Hstep
      end.
      cbv zeta in Hstep.
      destruct (urlretrieve _ _ _) as [failed w3].
      destruct Hstep as (ev & Hrun & Hfetch).
      eexists _, _, ev. split; [exact Hrun|]. split; [reflexivity | exact Hfetch].
Qed.

End ClearCache.

(** C8, as the specification words it, fails when the cache directory has
    been deleted: [clear_cache] returns [False], changes nothing, and the
    directory is still missing afterwards. *)
Lemma clear_cache_leaves_directory_missing :
  let r := clear_cache Toy.library (Toy.start Toy.without_cache) in
  r = (Returned false, Toy.start Toy.without_cache)
  /\ path_exists (existing (world (snd r))) (cache_dir Toy.library) = false
  /\ ~ empty_directory (existing (world (snd r))) (cache_dir Toy.library).
Proof.
  cbv zeta.
  assert (H : clear_cache Toy.library (Toy.start Toy.without_cache)
              = (Returned false, Toy.start Toy.without_cache))
    by (vm_compute; reflexivity).
  rewrite H. cbn [snd]. split; [reflexivity|].
  assert (Hmiss : path_exists (existing (world (Toy.start Toy.without_cache)))
                    (cache_dir Toy.library) = false) by (vm_compute; reflexivity).
  split; [exact Hmiss|]. intros [Hin _].
  unfold path_exists in Hmiss. by apply bool_decide_eq_false_1 in Hmiss.
Qed.

(** With the cloud source cached before: after [clear_cache] the directory
    is empty and the source is downloaded again. *)
Lemma clear_cache_resets_existing_directory_witness :
  exists m' r m'' ev,
    clear_cache Toy.library (Toy.start Toy.cached_before) = (Returned true, m')
    /\ empty_directory (existing (world m')) (cache_dir Toy.library)
    /\ ensure_cached Toy.library ([], 0%nat) Toy.design_url m' = (r, m'')
    /\ trace m'' = trace m' ++ ev
    /\ fetches ev = [(Toy.design_url, cache_path_of Toy.library Toy.design_url)].
Proof.
  destruct (proj2 (clear_cache_resets_existing_directory Toy.library
                     (Toy.start Toy.cached_before))
              (snd (Toy.toy_rmtree (cache_dir Toy.library) Toy.cached_before))
              (snd (Toy.toy_makedirs (cache_dir Toy.library)
                      (snd (Toy.toy_rmtree (cache_dir Toy.library) Toy.cached_before))))
              ltac:(vm_compute; reflexivity) eq_refl eq_refl eq_refl eq_refl)
    as (m' & Hclear & Hworld & Hempty & _ & _ & Hfetch).
  destruct (Hfetch Toy.design_url ([], 0%nat)
              ltac:(vm_compute; reflexivity) ltac:(vm_compute; discriminate))
    as (r & m'' & ev & Hrun & Htrace & Hev).
  exists m', r, m'', ev. rewrite Hworld.
  split; [exact Hclear|]. split; [exact Hempty|]. split; [exact Hrun|].
  split; [exact Htrace | exact Hev].
Defined.

(** ** Folder links in the configuration *)

Section FolderLinks.

Context `{Env : Environment}.

Opaque lit strip contains startswith folder_id_of.

(** A folder link whose folder id can be read: the guidance is printed,
    nothing is fetched, and three entries that start with [#] are added to
    the list of URLs. *)
Lemma load_line_folder_link (urls : list str) (line : str) (m : Machine) :
  let l := strip line in
  nonempty l = true ->
  startswith (lit "#") l = false ->
  is_folder_link l = true ->
  contains (lit "/folders/") l = true ->
  folder_id_of l <> [] ->
  exists ev,
    load_line urls line m
      = (Returned (urls ++ [lit "# FOLDER: " ++ l;
                            lit "# Please replace this with individual file URLs";
                            lit "# Right-click each file > Share > Copy link"]),
         {| world := world m; trace := trace m ++ ev |})
    /\ fetches ev = []
    /\ printed (lit "  ⚠️  Google Drive folders require individual file URLs") ∈ ev.
Proof.
  intros l Hne Hhash Hfolder Hcontains Hid.
  unfold load_line. fold l. rewrite Hne, Hhash, Hfolder. cbn [andb negb].
  unfold _get_files_from_gdrive_folder, bind, try_except. rewrite Hcontains.
  destruct (folder_id_of l) as [|c id] eqn:Eid; [done|].
  unfold print, emit, modify. cbn. rewrite <- !app_assoc.
  eexists. split; [reflexivity|]. split; [reflexivity|].
  cbn [app]. rewrite !elem_of_cons. auto.
Qed.

End FolderLinks.

Transparent lit strip contains startswith folder_id_of.

(** C9, at a configuration file that holds one folder link.  Loading it
    prints the guidance and fetches nothing, but it leaves three entries in
    the list of cloud URLs: the folder link behind [# FOLDER: ] and two lines
    of advice.  The next [_get_cloud_mockups] takes each of them for a URL
    and calls [urlretrieve] on it; none gives an asset. *)
Theorem folder_line_entries_are_fetched :
  let loaded := MockupLibrary_init (lit "app") (Toy.start Toy.folder_config) in
  let entries := [lit "# FOLDER: " ++ Toy.folder_line;
                  lit "# Please replace this with individual file URLs";
                  lit "# Right-click each file > Share > Copy link"] in
  match fst loaded with
  | Returned lib =>
      cloud_urls lib = entries
      /\ fetches (trace (snd loaded)) = []
      /\ bool_decide
           (printed (lit "  ⚠️  Google Drive folders require individual file URLs")
              ∈ trace (snd loaded)) = true
      /\ (let r := _get_cloud_mockups lib (snd loaded) in
          fst r = Returned []
          /\ map fst (fetches (drop (length (trace (snd loaded))) (trace (snd r))))
             = entries)
  | _ => False
  end.
Proof.
  vm_compute. repeat split; reflexivity.
Qed.

(** ** The cloud catalogue as a whole *)

Section CloudCatalogue.

Context `{Env : Environment}.

Opaque lit str_of_nat ntpath.join _get_cached_filename
       _get_google_drive_direct_link.

(** The first loop of [_get_cloud_mockups] only looks at the file system. *)
Lemma fold_count_needed (lib : MockupLibrary) (urls : list str) (n : nat) (m : Machine) :
  exists k, fold_each urls (count_needed lib) n m = (Returned k, m).
Proof.
  revert n. induction urls as [|url urls IH]; intros n; [by exists n|].
  cbn [fold_each]. unfold bind at 1.
  unfold count_needed at 1, bind, os_path_exists, ret. apply IH.
Qed.

Lemma fold_count_needed_cached (lib : MockupLibrary) (urls : list str) (n : nat)
    (m : Machine) :
  Forall (fun url => path_exists (existing (world m)) (cache_path_of lib url) = true) urls ->
  fold_each urls (count_needed lib) n m = (Returned n, m).
Proof.
  induction 1 as [|url urls Hurl _ IH]; [done|].
  cbn [fold_each]. unfold bind at 1.
  unfold count_needed at 1, bind, os_path_exists, ret. rewrite Hurl. apply IH.
Qed.

Lemma fold_count_needed_missing (lib : MockupLibrary) (urls : list str) (n : nat)
    (m : Machine) :
  Forall (fun url => path_exists (existing (world m)) (cache_path_of lib url) = false) urls ->
  fold_each urls (count_needed lib) n m = (Returned (length urls + n)%nat, m).
Proof.
  revert n. induction urls as [|url urls IH]; intros n Hall; [done|].
  apply Forall_cons in Hall as [Hurl Hall].
  cbn [fold_each]. unfold bind at 1.
  unfold count_needed at 1, bind, os_path_exists, ret. rewrite Hurl. cbn [negb].
  rewrite IH by done. f_equal. f_equal. cbn [length]. lia.
Qed.

(** One round of the second loop: it returns, it adds nothing or the cache
    path, and it fetches nothing or the one file. *)
Lemma ensure_cached_round (lib : MockupLibrary) (acc : list str * nat) (url : str)
    (m : Machine) :
  exists new n ev w',
    ensure_cached lib acc url m
      = (Returned (acc.1 ++ new, n), {| world := w'; trace := trace m ++ ev |})
    /\ new `sublist_of` [cache_path_of lib url]
    /\ fetches ev `sublist_of`
         [(_get_google_drive_direct_link url, cache_path_of lib url)].
Proof.
  destruct (path_exists (existing (world m)) (cache_path_of lib url)) eqn:E.
  - exists [cache_path_of lib url], (S acc.2), [], (world m).
    rewrite (ensure_cached_hit _ _ _ _ E), app_nil_r. destruct m.
    split; [done|]. split; [done|]. apply sublist_nil_l.
  - pose proof (ensure_cached_miss lib acc url m E) as Hstep. cbv zeta in Hstep.
    destruct (urlretrieve _ _ _) as [failed w1].
    destruct Hstep as (ev & Hrun & Hfetch).
    destruct failed as [e|].
    + exists [], acc.2, ev, w1. rewrite Hrun, app_nil_r, Hfetch. destruct acc.
      split; [done|]. split; [apply sublist_nil_l | done].
    + exists [cache_path_of lib url], acc.2, ev, w1. rewrite Hrun, Hfetch.
      split; [done|]. split; done.
Qed.

Opaque ensure_cached.

Lemma fold_ensure_cached (lib : MockupLibrary) (urls : list str) (acc : list str * nat)
    (m : Machine) :
  exists new n ev w',
    fold_each urls (ensure_cached lib) acc m
      = (Returned (acc.1 ++ new, n), {| world := w'; trace := trace m ++ ev |})
    /\ new `sublist_of` map (cache_path_of lib) urls
    /\ fetches ev `sublist_of`
         map (fun url => (_get_google_drive_direct_link url, cache_path_of lib url)) urls.
Proof.
  revert acc m. induction urls as [|url urls IH]; intros acc m.
  - exists [], acc.2, [], (world m). rewrite !app_nil_r. destruct acc, m. done.
  - cbn [fold_each]. unfold bind at 1.
    destruct (ensure_cached_round lib acc url m) as (new1 & n1 & ev1 & w1 & -> & Hn1 & Hf1).
    destruct (IH (acc.1 ++ new1, n1) {| world := w1; trace := trace m ++ ev1 |})
      as (new2 & n2 & ev2 & w2 & -> & Hn2 & Hf2).
    exists (new1 ++ new2), n2, (ev1 ++ ev2), w2. cbn [fst trace].
    rewrite <- !app_assoc. split; [done|]. rewrite fetches_app. cbn [map].
    split.
    + change (?x :: ?l) with ([x] ++ l). by apply sublist_app.
    + change (?x :: ?l) with ([x] ++ l). by apply sublist_app.
Qed.

Lemma get_cloud_mockups_run (lib : MockupLibrary) (m : Machine) :
  exists paths ev w',
    _get_cloud_mockups lib m
      = (Returned paths, {| world := w'; trace := trace m ++ ev |})
    /\ paths `sublist_of` map (cache_path_of lib) (cloud_urls lib)
    /\ fetches ev `sublist_of`
         map (fun url => (_get_google_drive_direct_link url, cache_path_of lib url))
             (cloud_urls lib).
Proof.
  unfold _get_cloud_mockups.
  destruct (length (cloud_urls lib) =? 0)%nat eqn:Elen.
  - exists [], [], (world m). rewrite app_nil_r. destruct m.
    split; [done|]. split; apply sublist_nil_l.
  - unfold bind at 1.
    destruct (fold_count_needed lib (cloud_urls lib) 0%nat m) as (k & ->).
    unfold bind at 1.
    set (announce := if (k =? 0)%nat then _ else _).
    assert (Hann : exists line, announce = print line)
      by (subst announce; destruct (k =? 0)%nat; eauto).
    destruct Hann as (line & ->).
    unfold print at 1, emit, modify. unfold bind at 1.
    destruct (fold_ensure_cached lib (cloud_urls lib) ([], 0%nat)
                {| world := world m; trace := trace m ++ [printed line] |})
      as (new & n & ev & w' & -> & Hnew & Hfetch).
    cbn [fst app trace]. unfold bind, when.
    destruct (0 <? n)%nat; unfold print, emit, modify, ret; cbn [world trace].
    + exists new, ([printed line] ++ ev ++ [printed (lit "✓ Loaded " ++ str_of_nat n
                      ++ lit " mockup(s) from cache (instant)")]), w'.
      rewrite <- !app_assoc. split; [done|]. split; [done|].
      rewrite !fetches_app. cbn. by rewrite app_nil_r.
    + exists new, ([printed line] ++ ev), w'.
      rewrite <- !app_assoc. split; [done|]. split; [done|].
      rewrite !fetches_app. by cbn.
Qed.

(** X7.  [_get_cloud_mockups] on any list of sources and in any world: it
    returns (a failed download is reported and the loop goes on), what it
    returns are cache paths of the sources, in the order of the sources,
    and what it fetches are sources, each at most once and to its cache
    path. *)
Theorem get_cloud_mockups_catalogue (lib : MockupLibrary) (m : Machine) :
  exists paths ev w',
    _get_cloud_mockups lib m
      = (Returned paths, {| world := w'; trace := trace m ++ ev |})
    /\ paths `sublist_of` map (cache_path_of lib) (cloud_urls lib)
    /\ fetches ev `sublist_of`
         map (fun url => (_get_google_drive_direct_link url, cache_path_of lib url))
             (cloud_urls lib).
Proof. exact (get_cloud_mockups_run lib m). Qed.

Lemma fold_ensure_cached_warm (lib : MockupLibrary) (urls : list str)
    (acc : list str * nat) (m : Machine) :
  Forall (fun url => path_exists (existing (world m)) (cache_path_of lib url) = true) urls ->
  fold_each urls (ensure_cached lib) acc m
    = (Returned (acc.1 ++ map (cache_path_of lib) urls, (length urls + acc.2)%nat), m).
Proof.
  intros Hall. revert acc. induction Hall as [|url urls Hurl _ IH]; intros acc.
  - cbn. rewrite app_nil_r. by destruct acc.
  - cbn [fold_each]. unfold bind at 1. rewrite (ensure_cached_hit _ _ _ _ Hurl).
    rewrite IH. cbn [fst snd map length]. rewrite <- app_assoc.
    replace (length urls + S acc.2)%nat with (S (length urls + acc.2)) by lia.
    reflexivity.
Qed.

Lemma get_cloud_mockups_all_cached (lib : MockupLibrary) (m : Machine) :
  cloud_urls lib <> [] ->
  Forall (fun url => path_exists (existing (world m)) (cache_path_of lib url) = true)
         (cloud_urls lib) ->
  let n := str_of_nat (length (cloud_urls lib)) in
  _get_cloud_mockups lib m
    = (Returned (map (cache_path_of lib) (cloud_urls lib)),
       {| world := world m;
          trace := trace m ++
            [printed (lit "✓ All " ++ n
                        ++ lit " cloud mockups already cached - loading instantly");
             printed (lit "✓ Loaded " ++ n ++ lit " mockup(s) from cache (instant)")] |}).
Proof.
  intros Hne Hall n. subst n. unfold _get_cloud_mockups.
  destruct (cloud_urls lib) as [|url urls] eqn:Eurls; [done|].
  rewrite <- Eurls in *. clear Hne.
  assert (Hlen : (length (cloud_urls lib) =? 0)%nat = false)
    by (rewrite Eurls; done).
  rewrite Hlen. unfold bind at 1. rewrite fold_count_needed_cached by done.
  unfold bind at 1. cbn [Nat.eqb]. unfold print at 1, emit, modify.
  unfold bind at 1. rewrite fold_ensure_cached_warm by done.
  cbn [fst snd app]. rewrite Nat.add_0_r.
  assert (Hpos : (0 <? length (cloud_urls lib))%nat = true)
    by (rewrite Eurls; done).
  rewrite Hpos. unfold when, bind, print, emit, modify, ret. cbn [world trace].
  by rewrite <- app_assoc.
Qed.

(** X8.  With every source in the cache, [_get_cloud_mockups] gives the cache
    paths of all sources, in order; it prints its two lines and does
    nothing else: no download, no change to the world. *)
Theorem get_cloud_mockups_warm (lib : MockupLibrary) (m : Machine) :
  cloud_urls lib <> [] ->
  Forall (fun url => path_exists (existing (world m)) (cache_path_of lib url) = true)
         (cloud_urls lib) ->
  let n := str_of_nat (length (cloud_urls lib)) in
  _get_cloud_mockups lib m
    = (Returned (map (cache_path_of lib) (cloud_urls lib)),
       {| world := world m;
          trace := trace m ++
            [printed (lit "✓ All " ++ n
                        ++ lit " cloud mockups already cached - loading instantly");
             printed (lit "✓ Loaded " ++ n ++ lit " mockup(s) from cache (instant)")] |}).
Proof. exact (get_cloud_mockups_all_cached lib m). Qed.

(** A world in which no download goes through: each attempt raises and
    leaves the files as they are. *)
Lemma fold_ensure_cached_offline (offline : World -> Prop) (lib : MockupLibrary)
    (urls : list str) (acc : list str * nat) (m : Machine) :
  (forall w url destination, offline w ->
     exists e w', urlretrieve url destination w = (Some e, w')
                  /\ offline w' /\ existing w' = existing w) ->
  offline (world m) ->
  Forall (fun url => path_exists (existing (world m)) (cache_path_of lib url) = false) urls ->
  exists ev w',
    fold_each urls (ensure_cached lib) acc m
      = (Returned acc, {| world := w'; trace := trace m ++ ev |})
    /\ offline w' /\ existing w' = existing (world m)
    /\ fetches ev
       = map (fun url => (_get_google_drive_direct_link url, cache_path_of lib url)) urls.
Proof.
  intros Hnet. revert m. induction urls as [|url urls IH]; intros m Hoff Hall.
  - exists [], (world m). rewrite app_nil_r. by destruct m.
  - apply Forall_cons in Hall as [Hurl Hall].
    cbn [fold_each]. unfold bind at 1.
    pose proof (ensure_cached_miss lib acc url m Hurl) as Hstep. cbv zeta in Hstep.
    destruct (Hnet (world m) (_get_google_drive_direct_link url)
                (cache_path_of lib url) Hoff) as (e & w1 & Hfail & Hoff1 & Hsame).
    rewrite Hfail in Hstep. destruct Hstep as (ev1 & -> & Hf1).
    destruct (IH {| world := w1; trace := trace m ++ ev1 |} Hoff1)
      as (ev2 & w2 & -> & Hoff2 & Hsame2 & Hf2).
    { cbn [world]. by rewrite Hsame. }
    exists (ev1 ++ ev2), w2. cbn [world trace] in *. rewrite <- app_assoc.
    split; [done|]. split; [done|]. split; [congruence|].
    by rewrite fetches_app, Hf1, Hf2.
Qed.

(** X9.  Off line and with an empty cache, [_get_cloud_mockups] tries every
    source once, in order, and returns an empty catalogue; it does not
    raise. *)
Theorem get_cloud_mockups_offline (offline : World -> Prop) (lib : MockupLibrary)
    (m : Machine) :
  (forall w url destination, offline w ->
     exists e w', urlretrieve url destination w = (Some e, w')
                  /\ offline w' /\ existing w' = existing w) ->
  offline (world m) ->
  Forall (fun url => path_exists (existing (world m)) (cache_path_of lib url) = false)
         (cloud_urls lib) ->
  exists ev w',
    _get_cloud_mockups lib m
      = (Returned [], {| world := w'; trace := trace m ++ ev |})
    /\ existing w' = existing (world m)
    /\ fetches ev
       = map (fun url => (_get_google_drive_direct_link url, cache_path_of lib url))
             (cloud_urls lib).
Proof.
  intros Hnet Hoff Hall. unfold _get_cloud_mockups.
  destruct (length (cloud_urls lib) =? 0)%nat eqn:Elen.
  - exists [], (world m). rewrite app_nil_r.
    destruct (cloud_urls lib); [|done]. by destruct m.
  - unfold bind at 1. rewrite fold_count_needed_missing by done.
    unfold bind at 1.
    set (announce := if (length (cloud_urls lib) + 0 =? 0)%nat then _ else _).
    assert (Hann : exists line, announce = print line)
      by (subst announce; destruct (length (cloud_urls lib) + 0 =? 0)%nat; eauto).
    destruct Hann as (line & ->).
    unfold print at 1, emit, modify. unfold bind at 1.
    destruct (fold_ensure_cached_offline offline lib (cloud_urls lib) ([], 0%nat)
                {| world := world m; trace := trace m ++ [printed line] |} Hnet Hoff Hall)
      as (ev & w' & -> & _ & Hsame & Hfetch).
    cbn [world trace] in *. unfold bind, when, ret. cbn.
    exists ([printed line] ++ ev), w'. rewrite <- app_assoc.
    split; [done|]. split; [done|]. by rewrite fetches_app.
Qed.

Transparent ensure_cached.

End CloudCatalogue.

Transparent lit str_of_nat ntpath.join _get_cached_filename
            _get_google_drive_direct_link.

(** With the one source of the small library in the cache, the catalogue is
    its cache path and nothing is fetched. *)
Lemma get_cloud_mockups_warm_witness :
  let r := _get_cloud_mockups Toy.library (Toy.start Toy.cached_before) in
  fst r = Returned [cache_path_of Toy.library Toy.design_url]
  /\ world (snd r) = Toy.cached_before
  /\ fetches (trace (snd r)) = [].
Proof.
  assert (Hcached : Forall (fun url => path_exists
                              (existing (world (Toy.start Toy.cached_before)))
                              (cache_path_of Toy.library url) = true)
                           (cloud_urls Toy.library)).
  { apply Forall_cons. split; [vm_compute; reflexivity | apply Forall_nil_2]. }
  pose proof (get_cloud_mockups_warm Toy.library (Toy.start Toy.cached_before)
                ltac:(discriminate) Hcached) as Hrun.
  cbv zeta in *. rewrite Hrun. cbn [fst snd world trace].
  split; [reflexivity|]. split; reflexivity.
Defined.

(** Without network and with an empty cache, the one source of the small
    library is tried once and the catalogue is empty. *)
Lemma get_cloud_mockups_offline_witness :
  exists ev w',
    _get_cloud_mockups Toy.library (Toy.start Example.unplugged)
      = (Returned [], {| world := w'; trace := ev |})
    /\ fetches ev = [(Toy.design_url, cache_path_of Toy.library Toy.design_url)].
Proof.
  assert (Hnet : forall (w : World) (url destination : str),
             Example.offline w ->
             exists e w', urlretrieve url destination w = (Some e, w')
                          /\ Example.offline w' /\ existing w' = existing w).
  { intros w url destination Hoff. unfold Example.offline in *.
    cbn [urlretrieve Toy.env]. unfold Toy.toy_urlretrieve. rewrite Hoff.
    eexists _, w. split; [reflexivity|]. split; [exact Hoff | reflexivity]. }
  assert (Hcold : Forall (fun url => path_exists
                            (existing (world (Toy.start Example.unplugged)))
                            (cache_path_of Toy.library url) = false)
                         (cloud_urls Toy.library)).
  { apply Forall_cons. split; [vm_compute; reflexivity | apply Forall_nil_2]. }
  destruct (get_cloud_mockups_offline (Env := Toy.env) Example.offline Toy.library
              (Toy.start Example.unplugged) Hnet eq_refl Hcold)
    as (ev & w' & Hrun & _ & Hfetch).
  exists ev, w'. split; [exact Hrun | exact Hfetch].
Defined.

(** ** Setting up the library *)

Lemma only_printed_app (a b : list Event) :
  only_printed a -> only_printed b -> only_printed (a ++ b).
Proof. apply Forall_app_2. Qed.

Lemma only_printed_fetches (ev : list Event) : only_printed ev -> fetches ev = [].
Proof. induction 1 as [|[] ? ? ? IH]; cbn; done. Qed.

Lemma only_printed_makedirs (ev : list Event) : only_printed ev -> makedirs_calls ev = [].
Proof. induction 1 as [|[] ? ? ? IH]; cbn; done. Qed.

Lemma only_printed_rmtree (ev : list Event) : only_printed ev -> rmtree_calls ev = [].
Proof. induction 1 as [|[] ? ? ? IH]; cbn; done. Qed.

Lemma only_printed_write (ev : list Event) : only_printed ev -> write_calls ev = [].
Proof. induction 1 as [|[] ? ? ? IH]; cbn; done. Qed.

Section LibrarySetup.

Context `{Env : Environment}.

Opaque lit strip contains startswith folder_id_of ntpath.join.

(** Listing a folder link only prints: it returns, whatever the link. *)
Lemma get_files_from_gdrive_folder_prints (folder_url : str) (m : Machine) :
  exists entries ev,
    _get_files_from_gdrive_folder folder_url m
      = (Returned entries, {| world := world m; trace := trace m ++ ev |})
    /\ only_printed ev.
Proof.
  unfold _get_files_from_gdrive_folder, try_except, bind.
  destruct (contains _ _); [destruct (folder_id_of _)|];
    unfold print, emit, modify, ret; cbn [world trace]; rewrite <- ?app_assoc;
    eexists _, _; (split; [reflexivity|]); repeat constructor.
Qed.

(** One line of the configuration: it returns, it only adds to the list,
    and it only prints. *)
Lemma load_line_prints (urls : list str) (line : str) (m : Machine) :
  exists new ev,
    load_line urls line m
      = (Returned (urls ++ new), {| world := world m; trace := trace m ++ ev |})
    /\ only_printed ev
    /\ (is_folder_link (strip line) = false ->
        new = List.filter is_source_line [strip line] /\ ev = []).
Proof.
  unfold load_line, is_source_line. cbn [List.filter].
  destruct (nonempty (strip line) && negb (startswith _ _)).
  - destruct (is_folder_link _).
    + unfold bind.
      destruct (get_files_from_gdrive_folder_prints (strip line) m)
        as (entries & ev & -> & Hev).
      by exists entries, ev.
    + exists [strip line], []. rewrite app_nil_r. destruct m.
      split; [done|]. split; [constructor|done].
  - exists [], []. rewrite !app_nil_r. destruct m.
    split; [done|]. split; [constructor|done].
Qed.

Opaque load_line.

Lemma fold_load_line (lines : list str) (urls : list str) (m : Machine) :
  exists new ev,
    fold_each lines load_line urls m
      = (Returned (urls ++ new), {| world := world m; trace := trace m ++ ev |})
    /\ only_printed ev
    /\ (Forall (fun line => is_folder_link (strip line) = false) lines ->
        new = List.filter is_source_line (map strip lines) /\ ev = []).
Proof.
  revert urls m. induction lines as [|line lines IH]; intros urls m.
  - exists [], []. rewrite !app_nil_r. destruct m.
    split; [done|]. split; [constructor|done].
  - cbn [fold_each]. unfold bind at 1.
    destruct (load_line_prints urls line m) as (new1 & ev1 & -> & Hev1 & Hplain1).
    destruct (IH (urls ++ new1) {| world := world m; trace := trace m ++ ev1 |})
      as (new2 & ev2 & -> & Hev2 & Hplain2).
    exists (new1 ++ new2), (ev1 ++ ev2). cbn [world trace]. rewrite <- !app_assoc.
    split; [done|]. split; [by apply only_printed_app|].
    intros Hall. apply Forall_cons in Hall as [Hline Hall].
    destruct (Hplain1 Hline) as [-> ->]. destruct (Hplain2 Hall) as [-> ->].
    split; [|done]. cbn [map List.filter].
    by destruct (is_source_line (strip line)).
Qed.

(** X10.  [_load_cloud_sources] on a configuration file that is there and holds
    no folder link: the sources are the lines that are neither blank nor
    comments, stripped of the white space around them and in the order of
    the file.  The lines read before a failure of the reading are kept,
    and the failure is only printed.  Nothing is changed in the world. *)
Theorem load_cloud_sources_plain (config_file : str) (m : Machine)
    (lines : list str) (failure : option exn) :
  path_exists (existing (world m)) config_file = true ->
  read_lines config_file (world m) = (lines, failure) ->
  Forall (fun line => is_folder_link (strip line) = false) lines ->
  _load_cloud_sources config_file m
    = (Returned (List.filter is_source_line (map strip lines)),
       {| world := world m;
          trace := trace m ++
            match failure with
            | Some e => [printed (lit "Error loading cloud sources: " ++ exn_msg e)]
            | None => []
            end |}).
Proof.
  intros Hthere Hread Hplain.
  unfold _load_cloud_sources. unfold bind at 1, os_path_exists. rewrite Hthere.
  unfold bind at 1, get. rewrite Hread. unfold bind at 1.
  destruct (fold_load_line lines [] m) as (new & ev & -> & _ & Hnew).
  destruct (Hnew Hplain) as [-> ->]. cbn [app]. rewrite app_nil_r.
  destruct failure as [e|]; unfold bind, print, emit, modify, ret; cbn [world trace].
  - done.
  - rewrite app_nil_r. by destruct m.
Qed.

(** [_load_cloud_sources] in general: it returns, and when the
    configuration file is there it only prints; when the file is missing
    the list of sources is empty and the one thing tried is to write the
    template to the place of the file. *)
Lemma load_cloud_sources_returns (config_file : str) (m : Machine) :
  exists urls ev w',
    _load_cloud_sources config_file m
      = (Returned urls, {| world := w'; trace := trace m ++ ev |})
    /\ fetches ev = [] /\ makedirs_calls ev = [] /\ rmtree_calls ev = []
    /\ write_calls ev `sublist_of` [config_file]
    /\ (path_exists (existing (world m)) config_file = false ->
        urls = [] /\ write_calls ev = [config_file]).
Proof.
  unfold _load_cloud_sources. unfold bind at 1, os_path_exists.
  destruct (path_exists _ _) eqn:Hthere.
  - unfold bind at 1, get. destruct (read_lines _ _) as [lines failure].
    unfold bind at 1.
    destruct (fold_load_line lines [] m) as (new & ev & -> & Hev & _).
    cbn [app].
    destruct failure as [e|]; unfold bind, print, emit, modify, ret; cbn [world trace].
    + exists new, (ev ++ [printed (lit "Error loading cloud sources: " ++ exn_msg e)]),
        (world m).
      rewrite <- app_assoc. split; [done|].
      assert (Hall : only_printed
                       (ev ++ [printed (lit "Error loading cloud sources: " ++ exn_msg e)]))
        by (apply only_printed_app; [done | by repeat constructor]).
      rewrite only_printed_fetches, only_printed_makedirs, only_printed_rmtree,
        only_printed_write by done.
      split; [done|]. split; [done|]. split; [done|].
      split; [apply sublist_nil_l | done].
    + exists new, ev, (world m). split; [done|].
      rewrite only_printed_fetches, only_printed_makedirs, only_printed_rmtree,
        only_printed_write by done.
      split; [done|]. split; [done|]. split; [done|].
      split; [apply sublist_nil_l | done].
  - unfold bind, _create_cloud_config_template, try_except, external.
    destruct (write_text _ _ _) as [[e|] w1];
      unfold print, emit, modify, ret; cbn [world trace]; rewrite <- ?app_assoc;
      eexists [], _, _; (split; [reflexivity|]); cbn; done.
Qed.

Transparent load_line.

(** [_ensure_library_structure]: it returns whatever [os.makedirs] does,
    it asks for nothing but the two folders, and it does nothing at all
    when both are there. *)
Lemma ensure_library_structure_returns (root cache : str) (m : Machine) :
  exists ev w',
    _ensure_library_structure root cache m
      = (Returned tt, {| world := w'; trace := trace m ++ ev |})
    /\ fetches ev = [] /\ rmtree_calls ev = [] /\ write_calls ev = []
    /\ makedirs_calls ev `sublist_of` [root; cache]
    /\ (path_exists (existing (world m)) root = true ->
        path_exists (existing (world m)) cache = true ->
        ev = [] /\ w' = world m).
Proof.
  unfold _ensure_library_structure. cbn [for_each].
  unfold bind, os_path_exists, try_except, external.
  destruct (path_exists (existing (world m)) root) eqn:Hroot; cbn [negb when].
  - unfold ret at 1.
    destruct (path_exists (existing (world m)) cache) eqn:Hcache; cbn [negb when].
    + exists [], (world m). rewrite app_nil_r. destruct m.
      cbn. repeat (split; [done|]). split; [apply sublist_nil_l | done].
    + destruct (makedirs cache (world m)) as [[e|] w1];
        unfold print, emit, modify, ret; cbn [world trace]; rewrite <- ?app_assoc;
        eexists _, _; (split; [reflexivity|]); cbn;
        (split; [done|]); (split; [done|]); (split; [done|]); (split; [|intros; congruence]);
        by apply sublist_cons.
  - destruct (makedirs root (world m)) as [[e|] w1];
      unfold print, emit, modify, ret; cbn [world trace];
      (destruct (path_exists (existing w1) cache) eqn:Hcache; cbn [negb when];
       cbv beta; cbn [world trace];
       [|destruct (makedirs cache w1) as [[e'|] w2]]);
      unfold print, emit, modify, ret; cbn [world trace]; rewrite <- ?app_assoc;
      eexists _, _; (split; [reflexivity|]); cbn;
      (split; [done|]); (split; [done|]); (split; [done|]); (split; [|intros; congruence]);
      repeat first [apply sublist_nil_l | apply sublist_skip | apply sublist_cons].
Qed.

(** X11.  [MockupLibrary.__init__] returns a library in every world: a folder
    that cannot be made, a configuration that cannot be read or a template
    that cannot be written are printed and passed over.  The folders and
    the configuration file lie where the code puts them; nothing is
    downloaded and nothing is removed; the only folders asked for are the
    library and its cache, and the only file written is the
    configuration. *)
Theorem MockupLibrary_init_returns (base_path : str) (m : Machine) :
  exists lib ev w',
    MockupLibrary_init base_path m
      = (Returned lib, {| world := w'; trace := trace m ++ ev |})
    /\ library_root lib = ntpath.join base_path (lit "mockup_library")
    /\ cache_dir lib = ntpath.join (library_root lib) (lit "_cache")
    /\ cloud_config_file lib = ntpath.join (library_root lib) (lit "cloud_sources.txt")
    /\ fetches ev = [] /\ rmtree_calls ev = []
    /\ makedirs_calls ev `sublist_of` [library_root lib; cache_dir lib]
    /\ write_calls ev `sublist_of` [cloud_config_file lib].
Proof.
  unfold MockupLibrary_init. unfold bind at 1.
  set (root := ntpath.join base_path (lit "mockup_library")).
  set (cache := ntpath.join root (lit "_cache")).
  set (config := ntpath.join root (lit "cloud_sources.txt")).
  destruct (ensure_library_structure_returns root cache m)
    as (ev1 & w1 & -> & Hf1 & Hr1 & Hw1 & Hm1 & _).
  unfold bind.
  destruct (load_cloud_sources_returns config {| world := w1; trace := trace m ++ ev1 |})
    as (urls & ev2 & w2 & -> & Hf2 & Hm2 & Hr2 & Hw2 & _).
  unfold ret. cbn [trace].
  exists {| library_root := root; cache_dir := cache;
            cloud_config_file := config; cloud_urls := urls |}, (ev1 ++ ev2), w2.
  rewrite <- app_assoc. cbn [library_root cache_dir cloud_config_file].
  split; [done|]. split; [done|]. split; [done|]. split; [done|].
  unfold fetches, rmtree_calls, makedirs_calls, write_calls in *.
  rewrite !omap_app, Hf1, Hf2, Hr1, Hr2, Hm2, Hw1, app_nil_r.
  cbn [app]. rewrite app_nil_r. auto.
Qed.

Lemma clear_cache_run (lib : MockupLibrary) (m : Machine) :
  let d := cache_dir lib in
  exists ok ev w',
    clear_cache lib m = (Returned ok, {| world := w'; trace := trace m ++ ev |})
    /\ fetches ev = [] /\ write_calls ev = []
    /\ rmtree_calls ev `sublist_of` [d] /\ makedirs_calls ev `sublist_of` [d]
    /\ (ok = true <->
        path_exists (existing (world m)) d = true
        /\ exists w1, rmtree d (world m) = (None, w1) /\ makedirs d w1 = (None, w'))
    /\ (forall e w1,
          path_exists (existing (world m)) d = true ->
          rmtree d (world m) = (Some e, w1) ->
          w' = w1
          /\ ev = [called_rmtree d; printed (lit "Error clearing cache: " ++ exn_msg e)]).
Proof.
  intros d. unfold clear_cache, try_except, bind, os_path_exists, external.
  fold d. destruct (path_exists (existing (world m)) d) eqn:Hthere.
  - destruct (rmtree d (world m)) as [[e|] w1] eqn:Hrm; cbn [world trace].
    + unfold print, emit, modify, ret; cbn [world trace]. rewrite <- ?app_assoc.
      eexists _, _, _. split; [reflexivity|]. cbn.
      split; [done|]. split; [done|]. split; [done|]. split; [apply sublist_nil_l|].
      split.
      * split; [done|]. intros (_ & w & Hw & _). congruence.
      * intros e' w1' _ Heq. by simplify_eq.
    + destruct (makedirs d w1) as [[e|] w2] eqn:Hmk;
        unfold print, emit, modify, ret; cbn [world trace]; rewrite <- ?app_assoc;
        eexists _, _, _; (split; [reflexivity|]); cbn;
        (split; [done|]); (split; [done|]); (split; [done|]); (split; [done|]).
      * split; [|intros; congruence].
        split; [done|]. intros (_ & w & Hw & Hw'). congruence.
      * split; [|intros; congruence].
        split; [|done]. intros _. split; [done|]. by exists w1.
  - exists false, [], (world m). rewrite app_nil_r. destruct m. cbn.
    split; [done|]. split; [done|]. split; [done|].
    split; [apply sublist_nil_l|]. split; [apply sublist_nil_l|].
    split; [|intros; congruence]. split; [done|]. intros [? _]. congruence.
Qed.

(** X12.  [clear_cache] returns in every world, and it returns [True] exactly
    when the cache directory was there and both its removal and its
    creation went through.  It touches nothing but the cache directory.
    When the removal raises, the directory is not made again: the call
    ends with the world the failed removal left. *)
Theorem clear_cache_returns (lib : MockupLibrary) (m : Machine) :
  let d := cache_dir lib in
  exists ok ev w',
    clear_cache lib m = (Returned ok, {| world := w'; trace := trace m ++ ev |})
    /\ fetches ev = [] /\ write_calls ev = []
    /\ rmtree_calls ev `sublist_of` [d] /\ makedirs_calls ev `sublist_of` [d]
    /\ (ok = true <->
        path_exists (existing (world m)) d = true
        /\ exists w1, rmtree d (world m) = (None, w1) /\ makedirs d w1 = (None, w'))
    /\ (forall e w1,
          path_exists (existing (world m)) d = true ->
          rmtree d (world m) = (Some e, w1) ->
          w' = w1
          /\ ev = [called_rmtree d; printed (lit "Error clearing cache: " ++ exn_msg e)]).
Proof. exact (clear_cache_run lib m). Qed.

Opaque _get_cloud_mockups.

(** X13.  [refresh_cloud_mockups] does not look at the result of [clear_cache].
    When the cache directory is there and its removal raises, leaving the
    cached files in place, the refresh downloads nothing and returns the
    files of the old cache. *)
Theorem refresh_cloud_mockups_stale (lib : MockupLibrary) (m : Machine)
    (e : exn) (w1 : World) :
  cloud_urls lib <> [] ->
  path_exists (existing (world m)) (cache_dir lib) = true ->
  rmtree (cache_dir lib) (world m) = (Some e, w1) ->
  Forall (fun url => path_exists (existing w1) (cache_path_of lib url) = true)
         (cloud_urls lib) ->
  exists ev,
    refresh_cloud_mockups lib m
      = (Returned (map (cache_path_of lib) (cloud_urls lib)),
         {| world := w1; trace := trace m ++ ev |})
    /\ fetches ev = [] /\ makedirs_calls ev = []
    /\ rmtree_calls ev = [cache_dir lib].
Proof.
  intros Hne Hthere Hrm Hcached.
  destruct (clear_cache_run lib m)
    as (ok & ev1 & w' & Hclear & _ & _ & _ & _ & _ & Hfail).
  destruct (Hfail e w1 Hthere Hrm) as [-> ->].
  unfold refresh_cloud_mockups, bind. rewrite Hclear.
  rewrite get_cloud_mockups_all_cached by done. cbn [world trace].
  rewrite <- app_assoc. eexists. split; [reflexivity|]. by cbn.
Qed.

Transparent _get_cloud_mockups.

End LibrarySetup.

Transparent lit strip contains startswith folder_id_of ntpath.join.

(** The configuration with a comment, a blank line, an indented comment and
    three sources gives the three sources, stripped; the last one stands
    between an ideographic space and a no-break space. *)
Lemma load_cloud_sources_plain_witness :
  _load_cloud_sources (lit "app\mockup_library\cloud_sources.txt")
    (Toy.start Example.plain_config)
  = (Returned [lit "https://example.com/mockups/design1.psd";
               lit "https://www.dropbox.com/s/abc123/mockup.psd?dl=1";
               lit "https://cdn.example.com/brand/box.psd"],
     Toy.start Example.plain_config).
Proof.
  assert (Hplain : Forall (fun line => is_folder_link (strip line) = false)
                          (Toy.config_lines Example.plain_config)).
  { repeat (apply Forall_cons; split; [vm_compute; reflexivity|]). apply Forall_nil_2. }
  rewrite (load_cloud_sources_plain (lit "app\mockup_library\cloud_sources.txt")
             (Toy.start Example.plain_config)
             (Toy.config_lines Example.plain_config) None
             ltac:(vm_compute; reflexivity) eq_refl Hplain).
  vm_compute. reflexivity.
Defined.

(** Where nothing can be removed, [clear_cache] on an existing cache
    directory returns [False] after the one attempt, and does not call
    [os.makedirs]. *)
Lemma clear_cache_returns_witness :
  exists ev,
    clear_cache (Env := Example.locked) Toy.library
      (@Build_Machine Example.locked Toy.cached_before [])
    = (Returned false, @Build_Machine Example.locked Toy.cached_before ev)
    /\ rmtree_calls ev = [cache_dir Toy.library]
    /\ makedirs_calls ev = [].
Proof.
  destruct (clear_cache_returns (Env := Example.locked) Toy.library
              (@Build_Machine Example.locked Toy.cached_before []))
    as (ok & ev & w' & Hrun & _ & _ & _ & _ & Hok & Hfail).
  destruct (Hfail Example.permission_error Toy.cached_before
              ltac:(vm_compute; reflexivity) eq_refl) as [-> ->].
  assert (ok = false) as ->.
  { destruct ok; [|reflexivity]. destruct (proj1 Hok eq_refl) as (_ & w1 & Hrm & _).
    discriminate Hrm. }
  eexists. split; [exact Hrun|]. split; reflexivity.
Defined.

(** Where nothing can be removed, a refresh returns the file of the old
    cache and downloads nothing. *)
Lemma refresh_cloud_mockups_stale_witness :
  exists ev,
    refresh_cloud_mockups (Env := Example.locked) Toy.library
      (@Build_Machine Example.locked Toy.cached_before [])
    = (Returned [cache_path_of (Env := Example.locked) Toy.library Toy.design_url],
       @Build_Machine Example.locked Toy.cached_before ev)
    /\ fetches ev = [].
Proof.
  assert (Hcached : Forall (fun url => path_exists (Toy.files Toy.cached_before)
                              (cache_path_of (Env := Example.locked) Toy.library url)
                            = true)
                           (cloud_urls Toy.library)).
  { apply Forall_cons. split; [vm_compute; reflexivity | apply Forall_nil_2]. }
  destruct (refresh_cloud_mockups_stale (Env := Example.locked) Toy.library
              (@Build_Machine Example.locked Toy.cached_before [])
              Example.permission_error Toy.cached_before
              ltac:(discriminate) ltac:(vm_compute; reflexivity) eq_refl Hcached)
    as (ev & Hrun & Hfetch & _).
  exists ev. split; [exact Hrun | exact Hfetch].
Defined.

(** ** [str.split] *)

Lemma partition_Some (needle s before after : str) :
  partition needle s = Some (before, after) -> s = before ++ needle ++ after.
Proof.
  revert before. induction s as [|x s IH]; intros before; cbn [partition].
  - destruct (startswith needle []) eqn:E; [|done].
    intros [= <- <-]. apply startswith_prefix in E as [t Ht].
    destruct needle; [done | discriminate].
  - destruct (startswith needle (x :: s)) eqn:E.
    + intros [= <- <-]. apply startswith_prefix in E as [t Ht].
      rewrite Ht at 2. rewrite drop_app_length. by rewrite Ht.
    + destruct (partition needle s) as [[b a]|]; [|done].
      intros [= <- <-]. cbn. f_equal. by apply IH.
Qed.

(** A needle whose first character does not occur is not found. *)
Lemma partition_absent (c : ascii) (n s : str) : c ∉ s -> partition (c :: n) s = None.
Proof.
  induction s as [|x s IH]; intros Hc; [done|].
  apply not_elem_of_cons in Hc as [Hx Hs]. cbn [partition startswith].
  rewrite bool_decide_eq_false_2 by done. cbn [andb]. by rewrite IH.
Qed.

(** The search passes over a stretch in which the first character of the
    needle does not occur. *)
Lemma partition_skip (c : ascii) (n a t : str) :
  c ∉ a ->
  partition (c :: n) (a ++ t)
  = match partition (c :: n) t with
    | Some (before, after) => Some (a ++ before, after)
    | None => None
    end.
Proof.
  induction a as [|x a IH]; intros Hc.
  - cbn [app]. by destruct (partition _ t) as [[? ?]|].
  - apply not_elem_of_cons in Hc as [Hx Ha].
    change ((x :: a) ++ t) with (x :: (a ++ t)). cbn [partition startswith].
    rewrite bool_decide_eq_false_2 by done. cbn [andb]. rewrite IH by done.
    by destruct (partition _ t) as [[? ?]|].
Qed.

Lemma partition_single_None (c : ascii) (s : str) : partition [c] s = None -> c ∉ s.
Proof.
  induction s as [|x s IH]; [intros _; apply not_elem_of_nil|].
  cbn [partition startswith]. destruct (bool_decide (c = x)) eqn:E; [done|].
  cbn [andb]. destruct (partition [c] s) as [[? ?]|]; [done|].
  intros _. apply bool_decide_eq_false_1 in E.
  apply not_elem_of_cons. split; [done | by apply IH].
Qed.

(** The first piece of a split: what stands before the first occurrence of
    the needle, or everything. *)
Lemma first_piece_split_fuel (fuel : nat) (needle s : str) :
  needle <> [] -> (fuel = 0%nat -> s = []) ->
  first_piece (split_fuel fuel needle s)
  = match partition needle s with Some (before, _) => before | None => s end.
Proof.
  intros Hn Hfuel. destruct fuel as [|fuel]; cbn [split_fuel].
  - rewrite (Hfuel eq_refl). destruct needle; done.
  - by destruct (partition needle s) as [[? ?]|].
Qed.

Lemma first_piece_split (needle s : str) :
  needle <> [] ->
  first_piece (split needle s)
  = match partition needle s with Some (before, _) => before | None => s end.
Proof.
  intros Hn. apply first_piece_split_fuel; [done|]. by destruct s.
Qed.

Lemma first_piece_prefix (needle s : str) :
  needle <> [] -> exists t, s = first_piece (split needle s) ++ t.
Proof.
  intros Hn. rewrite first_piece_split by done.
  destruct (partition needle s) as [[b a]|] eqn:E.
  - apply partition_Some in E. eauto.
  - exists []. by rewrite app_nil_r.
Qed.

(** The second piece of a split: what stands between the first and the
    second occurrence of the needle. *)
Lemma second_piece_split (needle s before after : str) :
  needle <> [] ->
  partition needle s = Some (before, after) ->
  second_piece (split needle s)
  = match partition needle after with Some (b, _) => b | None => after end.
Proof.
  intros Hn Hp. unfold split. pose proof (partition_Some _ _ _ _ Hp) as Hs.
  destruct (length s) as [|fuel] eqn:El.
  - destruct s; [|done]. destruct before, needle; done.
  - cbn [split_fuel]. rewrite Hp. unfold second_piece.
    assert (Hnth : forall l : list str, nth 1 (before :: l) [] = first_piece l)
      by (by intros []).
    rewrite Hnth. apply first_piece_split_fuel; [done|]. intros ->.
    rewrite Hs, !length_app in El. destruct needle; [done|].
    cbn [length] in El. destruct after; [done|]. cbn [length] in El. lia.
Qed.

(** Splitting at a character: the first piece ends in front of its first
    occurrence. *)
Lemma first_piece_char (c : ascii) (a t : str) :
  c ∉ a -> (t = [] \/ exists t', t = c :: t') ->
  first_piece (split [c] (a ++ t)) = a.
Proof.
  intros Hc Ht. rewrite first_piece_split by done.
  rewrite partition_skip by done.
  destruct Ht as [->|[t' ->]].
  - cbn. by rewrite app_nil_r.
  - cbn [partition startswith]. rewrite bool_decide_eq_true_2 by done.
    cbn. by rewrite app_nil_r.
Qed.

(** Splitting at a character: the character is not in the last piece. *)
Lemma last_piece_char_fuel (fuel : nat) (c : ascii) (s : str) :
  (length s <= fuel)%nat -> c ∉ last_piece (split_fuel fuel [c] s).
Proof.
  revert s. induction fuel as [|fuel IH]; intros s Hlen.
  - destruct s; [|cbn in Hlen; lia]. apply not_elem_of_nil.
  - cbn [split_fuel]. destruct (partition [c] s) as [[b a]|] eqn:E.
    + pose proof (partition_Some _ _ _ _ E) as Hs.
      assert (Ha : (length a <= fuel)%nat).
      { rewrite Hs, !length_app in Hlen. cbn [length] in Hlen. lia. }
      specialize (IH a Ha). unfold last_piece in *.
      destruct (split_fuel fuel [c] a) as [|p ps] eqn:Esplit; [|exact IH].
      destruct fuel; cbn in Esplit; [done|]. by destruct (partition [c] a) as [[? ?]|].
    + by apply partition_single_None.
Qed.

Lemma last_piece_char (c : ascii) (s : str) : c ∉ last_piece (split [c] s).
Proof. by apply last_piece_char_fuel. Qed.

Lemma endswith_app_r (p a b : str) : endswith p b = true -> endswith p (a ++ b) = true.
Proof.
  unfold endswith. intros H. apply startswith_prefix in H as [t Ht].
  rewrite rev_app_distr, Ht, <- app_assoc. apply startswith_app.
Qed.

Lemma lower_app (a b : str) : lower (a ++ b) = lower a ++ lower b.
Proof. apply map_app. Qed.

(** ** Cache file names *)

Lemma hexdigit_ascii (c : ascii) : is_hexdigit c -> is_ascii c = true.
Proof.
  unfold is_hexdigit. change (lit "0123456789abcdef")
    with ["0";"1";"2";"3";"4";"5";"6";"7";"8";"9";"a";"b";"c";"d";"e";"f"]%char.
  rewrite !elem_of_cons, elem_of_nil.
  intros H. repeat (destruct H as [-> | H]; [by vm_compute|]). done.
Qed.

Lemma hexdigits_sepfree (h : str) : Forall is_hexdigit h -> sepfree h.
Proof.
  intros H. eapply Forall_impl; [exact H|].
  intros c Hc. by destruct (hexdigit_plain c Hc).
Qed.

Section CacheNames.

Context `{Env : Environment}.

Lemma original_name_no_slash (url : str) : "/"%char ∉ original_name url.
Proof.
  pose proof (last_piece_char "/"%char url) as Hlast.
  destruct (first_piece_prefix (lit "?") (last_piece (split (lit "/") url))) as [t Ht];
    [done|].
  intros Hin. apply Hlast. change ["/"%char] with (lit "/").
  rewrite Ht. apply elem_of_app. by left.
Qed.

(** The name begins with the digest and goes on with [_] or [.]. *)
Lemma cached_filename_parts (url : str) :
  exists c t, (c = "_"%char \/ c = "."%char)
    /\ _get_cached_filename url = md5_hexdigest url ++ c :: t.
Proof.
  unfold _get_cached_filename. destruct (endswith _ _).
  - exists "_"%char, (original_name url). split; [by left | done].
  - exists "."%char, (lit "psd"). split; [by right | done].
Qed.

(** With a digest of hexadecimal digits the name is a relative path
    without drive. *)
Lemma cached_filename_relative (url : str) :
  md5_hexdigest url <> [] -> Forall is_hexdigit (md5_hexdigest url) ->
  let name := _get_cached_filename url in
  name <> [] /\ ntpath.starts_with_sep name = false /\ second_colon name = false.
Proof.
  intros Hne Hhex name. subst name.
  destruct (cached_filename_parts url) as (c & t & Hc & ->).
  destruct (md5_hexdigest url) as [|h d]; [done|].
  apply Forall_cons in Hhex as [Hh Hd].
  destruct (hexdigit_plain h Hh) as (Hsep & _ & _ & _).
  split; [done|]. split; [exact Hsep|].
  cbn [app second_colon]. unfold rest_of_char. rewrite (hexdigit_ascii h Hh).
  destruct d as [|h' d]; cbn [app startswith].
  - destruct Hc as [-> | ->]; by vm_compute.
  - apply Forall_cons in Hd as [Hh' _].
    destruct (hexdigit_plain h' Hh') as (_ & _ & Hcolon & _).
    rewrite bool_decide_eq_false_2; [done|]. congruence.
Qed.

Lemma cached_filename_sepfree (url : str) :
  Forall is_hexdigit (md5_hexdigest url) -> ntpath.sep ∉ original_name url ->
  sepfree (_get_cached_filename url).
Proof.
  intros Hhex Hback. unfold _get_cached_filename. fold (original_name url).
  destruct (endswith _ _).
  - apply ntpath_names.sepfree_app. split; [by apply hexdigits_sepfree|].
    apply ntpath_names.sepfree_app. split; [by repeat constructor|].
    apply Forall_forall. intros x Hx. unfold ntpath.is_sep.
    rewrite !bool_decide_eq_false_2; [done | |].
    + intros ->. by apply (original_name_no_slash url).
    + intros ->. by apply Hback.
  - apply ntpath_names.sepfree_app. split; [by apply hexdigits_sepfree|].
    by repeat constructor.
Qed.

(** X14.  The name under which a source is cached begins with the digest
    of the URL and ends in [.psd] up to the case of the letters.  When the
    digest is made of hexadecimal digits and the last component of the URL
    holds no backslash, the name holds no separator and names no drive;
    joined to a cache directory that is itself named, not a bare drive and
    not spelled with a separator at its end, it gives the path of a file
    in the cache directory itself, not in a folder below it. *)
Theorem cached_filename_flat (lib : MockupLibrary) (url : str) :
  md5_hexdigest url <> [] -> Forall is_hexdigit (md5_hexdigest url) ->
  ntpath.sep ∉ original_name url ->
  ntpath.basename (cache_dir lib) <> [] ->
  let name := _get_cached_filename url in
  startswith (md5_hexdigest url) name = true
  /\ endswith (lit ".psd") (lower name) = true
  /\ sepfree name
  /\ cache_path_of lib url = cache_dir lib ++ ntpath.sep :: name
  /\ ntpath.split (cache_path_of lib url) = (cache_dir lib, name).
Proof.
  intros Hne Hhex Hback Hdir name.
  destruct (cached_filename_relative url Hne Hhex) as (Hname & _ & Hcolon).
  pose proof (cached_filename_sepfree url Hhex Hback) as Hfree.
  split; [|split; [|split; [exact Hfree|]]].
  - subst name. unfold _get_cached_filename. destruct (endswith _ _); apply startswith_app.
  - subst name. unfold _get_cached_filename.
    destruct (endswith _ (lower (first_piece _))) eqn:E.
    + rewrite app_assoc, lower_app. by apply endswith_app_r.
    + rewrite lower_app. by apply endswith_app_r.
  - unfold cache_path_of. by apply ntpath_in.split_join_in.
Qed.

(** X15.  Two sources share a cache path only if the digests of their
    URLs are the same, digests being strings of hexadecimal digits of one
    length, as those of MD5 are: the cache does not mix up sources beyond
    what the digest does. *)
Theorem cache_path_digest (lib : MockupLibrary) (url1 url2 : str) :
  md5_hexdigest url1 <> [] ->
  Forall is_hexdigit (md5_hexdigest url1) ->
  Forall is_hexdigit (md5_hexdigest url2) ->
  length (md5_hexdigest url1) = length (md5_hexdigest url2) ->
  cache_path_of lib url1 = cache_path_of lib url2 ->
  md5_hexdigest url1 = md5_hexdigest url2.
Proof.
  intros Hne1 H1 H2 Hlen Hpath.
  assert (Hne2 : md5_hexdigest url2 <> []).
  { intros E. rewrite E in Hlen. by destruct (md5_hexdigest url1). }
  destruct (cached_filename_relative url1 Hne1 H1) as (Hn1 & Hs1 & Hc1).
  destruct (cached_filename_relative url2 Hne2 H2) as (Hn2 & Hs2 & Hc2).
  destruct (ntpath_join.join_tail (cache_dir lib) [] ltac:(by left)) as [pre Hpre].
  unfold cache_path_of in Hpath.
  pose proof (Hpre _ Hn1 Hs1 (ntpath_split.relative_no_drive _ Hs1 Hc1)) as J1.
  pose proof (Hpre _ Hn2 Hs2 (ntpath_split.relative_no_drive _ Hs2 Hc2)) as J2.
  cbn [app] in J1, J2. rewrite J1, J2 in Hpath. apply app_inv_head in Hpath.
  destruct (cached_filename_parts url1) as (c1 & t1 & _ & E1).
  destruct (cached_filename_parts url2) as (c2 & t2 & _ & E2).
  rewrite E1, E2 in Hpath.
  apply (f_equal (take (length (md5_hexdigest url1)))) in Hpath.
  rewrite Hlen in Hpath at 2. by rewrite !take_app_length in Hpath.
Qed.

End CacheNames.

(** ** Google Drive links *)

Lemma contains_app_l (needle a b : str) :
  contains needle a = true -> contains needle (a ++ b) = true.
Proof.
  induction a as [|x a IH].
  - cbn. rewrite orb_false_r. intros H. destruct needle; [|done].
    by destruct b.
  - intros H. cbn [contains] in H. apply orb_prop in H as [H|H].
    + apply startswith_prefix in H as [t Ht].
      destruct needle as [|c n]; [by destruct b|].
      rewrite Ht, <- app_assoc. cbn [contains app].
      change (c :: n ++ t ++ b) with ((c :: n) ++ t ++ b).
      by rewrite startswith_app.
    + change ((x :: a) ++ b) with (x :: (a ++ b)). cbn [contains].
      rewrite IH by done. apply orb_true_r.
Qed.

Lemma contains_partition (needle s : str) :
  contains needle s = true -> exists before after, partition needle s = Some (before, after).
Proof.
  induction s as [|x s IH]; cbn [contains partition].
  - rewrite orb_false_r. intros ->. eauto.
  - destruct (startswith needle (x :: s)); [eauto|]. cbn [orb]. intros H.
    destruct (IH H) as (b & a & ->). eauto.
Qed.

Lemma partition_contains (needle s : str) :
  partition needle s = None -> contains needle s = false.
Proof.
  intros H. destruct (contains needle s) eqn:E; [|done].
  apply contains_partition in E as (b & a & E). congruence.
Qed.

Lemma partition_cons_miss (needle : str) (x : ascii) (s : str) :
  startswith needle (x :: s) = false -> partition needle s = None ->
  partition needle (x :: s) = None.
Proof. intros H1 H2. cbn [partition]. by rewrite H1, H2. Qed.

Lemma not_elem_of_forallb (c : ascii) (l : str) :
  forallb (fun x => negb (bool_decide (x = c))) l = true -> c ∉ l.
Proof.
  induction l as [|x l IH]; cbn [forallb]; [intros _; apply not_elem_of_nil|].
  intros H. apply andb_prop in H as [Hx Hl]. apply not_elem_of_cons. split; [|by apply IH].
  apply negb_true_iff, bool_decide_eq_false_1 in Hx. congruence.
Qed.

Section DriveLinks.

Context `{Env : Environment}.

(** X16.  A sharing link of a Google Drive file,
    [https://drive.google.com/file/d/ID] followed by nothing or by [/...],
    is turned into the download link of the file [ID]. *)
Theorem direct_link_of_sharing_link (file_id rest : str) :
  "/"%char ∉ file_id ->
  rest = [] \/ (exists t, rest = "/"%char :: t) ->
  _get_google_drive_direct_link
    (lit "https://drive.google.com/file/d/" ++ file_id ++ rest)
  = lit "https://drive.google.com/uc?export=download&id=" ++ file_id.
Proof.
  intros Hid Hrest. unfold _get_google_drive_direct_link.
  rewrite (contains_app_l (lit "drive.google.com")) by (vm_compute; reflexivity).
  rewrite (contains_app_l (lit "/file/d/")) by (vm_compute; reflexivity).
  f_equal.
  assert (Hp : partition (lit "/file/d/")
                 (lit "https://drive.google.com/file/d/" ++ file_id ++ rest)
               = Some (lit "https://drive.google.com", file_id ++ rest))
    by (vm_compute; reflexivity).
  rewrite (second_piece_split (lit "/file/d/") _ _ _ ltac:(discriminate) Hp).
  change (lit "/file/d/") with ("/"%char :: lit "file/d/").
  rewrite partition_skip by done.
  change (lit "/") with ["/"%char].
  destruct (partition ("/"%char :: lit "file/d/") rest) as [[b a]|] eqn:E.
  - apply partition_Some in E. apply first_piece_char; [done|].
    destruct b as [|x b]; [by left|]. right.
    destruct Hrest as [->|[t ->]]; [by destruct b|].
    injection E as -> _. eauto.
  - by apply first_piece_char.
Qed.

(** X17.  A download link is left as it is, when the id of the file holds none
    of [/], [&] and [=]; so is any URL that does not name the host of
    Google Drive. *)
Theorem direct_link_stable (url file_id : str) :
  (contains (lit "drive.google.com") url = false ->
   _get_google_drive_direct_link url = url)
  /\ ("/"%char ∉ file_id -> "&"%char ∉ file_id -> "="%char ∉ file_id ->
      _get_google_drive_direct_link
        (lit "https://drive.google.com/uc?export=download&id=" ++ file_id)
      = lit "https://drive.google.com/uc?export=download&id=" ++ file_id).
Proof.
  split.
  - intros H. unfold _get_google_drive_direct_link. by rewrite H.
  - intros Hsep Hamp Heq. unfold _get_google_drive_direct_link.
    rewrite (contains_app_l (lit "drive.google.com")) by (vm_compute; reflexivity).
    assert (Hfile : contains (lit "/file/d/")
                      (lit "https://drive.google.com/uc?export=download&id=" ++ file_id)
                    = false).
    { apply partition_contains.
      change (lit "https://drive.google.com/uc?export=download&id=")
        with (lit "https:" ++ "/"%char :: "/"%char :: lit "drive.google.com"
                ++ "/"%char :: lit "uc?export=download&id=").
      change (lit "/file/d/") with ("/"%char :: lit "file/d/").
      rewrite <- app_assoc.
      rewrite partition_skip by (apply not_elem_of_forallb; vm_compute; reflexivity).
      cbn [app]. rewrite <- app_assoc.
      rewrite partition_cons_miss; [done | vm_compute; reflexivity |].
      rewrite partition_cons_miss; [done | vm_compute; reflexivity |].
      rewrite partition_skip by (apply not_elem_of_forallb; vm_compute; reflexivity).
      cbn [app].
      rewrite partition_cons_miss; [done | vm_compute; reflexivity |].
      apply partition_absent. rewrite elem_of_app. intros [H|H]; [|done].
      revert H. apply not_elem_of_forallb. vm_compute. reflexivity. }
    rewrite Hfile.
    rewrite (contains_app_l (lit "id=")) by (vm_compute; reflexivity).
    f_equal.
    assert (Hp : partition (lit "id=")
                   (lit "https://drive.google.com/uc?export=download&id=" ++ file_id)
                 = Some (lit "https://drive.google.com/uc?export=download&", file_id))
      by (vm_compute; reflexivity).
    rewrite (second_piece_split (lit "id=") _ _ _ ltac:(discriminate) Hp).
    destruct (partition (lit "id=") file_id) as [[b a]|] eqn:E.
    { apply partition_Some in E. exfalso. apply Heq. rewrite E.
      rewrite !elem_of_app. right. left.
      change (lit "id=") with ["i"; "d"; "="]%char. rewrite !elem_of_cons. auto. }
    change (lit "&") with ["&"%char].
    rewrite <- (app_nil_r file_id) at 1. apply first_piece_char; [done | by left].
Qed.

End DriveLinks.

(** The cache file of the source of the small library. *)
Lemma cached_filename_flat_witness :
  _get_cached_filename Toy.design_url = lit "39_design1.psd"
  /\ cache_path_of Toy.library Toy.design_url
     = lit "app\mockup_library\_cache\39_design1.psd"
  /\ ntpath.split (cache_path_of Toy.library Toy.design_url)
     = (lit "app\mockup_library\_cache", lit "39_design1.psd").
Proof.
  assert (Hhex : Forall is_hexdigit (md5_hexdigest Toy.design_url)).
  { repeat (apply Forall_cons; split; [by vm_compute; set_solver|]). apply Forall_nil_2. }
  destruct (cached_filename_flat (Env := Toy.env) Toy.library Toy.design_url
              ltac:(vm_compute; discriminate) Hhex
              ltac:(apply not_elem_of_forallb; vm_compute; reflexivity)
              ltac:(vm_compute; discriminate))
    as (_ & _ & _ & Hpath & Hsplit).
  split; [vm_compute; reflexivity|]. split; [|exact Hsplit].
  rewrite Hpath. vm_compute. reflexivity.
Defined.

(** A backslash in the last component of a URL goes into the name, and the
    file is cached in a folder below the cache directory. *)
Lemma cached_filename_backslash :
  let url := lit "https://example.com/mockups/2024\front.psd" in
  _get_cached_filename url = lit "42_2024\front.psd"
  /\ ntpath.split (cache_path_of Toy.library url)
     = (lit "app\mockup_library\_cache\42_2024", lit "front.psd").
Proof. vm_compute. split; reflexivity. Qed.

(** Two mirrors of one file, at URLs of one length: the small digest does
    not tell them apart, and they share a cache path. *)
Lemma cache_path_digest_witness :
  cache_path_of Toy.library Example.mirror_a = cache_path_of Toy.library Example.mirror_b
  /\ md5_hexdigest Example.mirror_a = md5_hexdigest Example.mirror_b.
Proof.
  assert (Hpath : cache_path_of Toy.library Example.mirror_a
                  = cache_path_of Toy.library Example.mirror_b)
    by (vm_compute; reflexivity).
  assert (Ha : Forall is_hexdigit (md5_hexdigest Example.mirror_a)).
  { repeat (apply Forall_cons; split; [by vm_compute; set_solver|]). apply Forall_nil_2. }
  assert (Hb : Forall is_hexdigit (md5_hexdigest Example.mirror_b)).
  { repeat (apply Forall_cons; split; [by vm_compute; set_solver|]). apply Forall_nil_2. }
  split; [exact Hpath|].
  apply (cache_path_digest (Env := Toy.env) Toy.library Example.mirror_a Example.mirror_b
           ltac:(vm_compute; discriminate) Ha Hb
           ltac:(vm_compute; reflexivity) Hpath).
Defined.

(** The shape of the digests matters: were [c:] and [_x] digests, two
    sources with different digests of one length would share a cache path,
    the first name being taken as a path on the drive [c:]. *)
Lemma cache_path_digest_shape :
  cache_path_of (Env := Example.odd_digests) Example.library_on_c Example.drive_url
    = lit "c:\app\mockup_library\_cache\_x.psd"
  /\ cache_path_of (Env := Example.odd_digests) Example.library_on_c Example.plain_url
    = lit "c:\app\mockup_library\_cache\_x.psd"
  /\ md5_hexdigest (Environment := Example.odd_digests) Example.drive_url = lit "c:"
  /\ md5_hexdigest (Environment := Example.odd_digests) Example.plain_url = lit "_x".
Proof. vm_compute. repeat split; reflexivity. Qed.

(** The sharing link of the configuration template. *)
Lemma direct_link_of_sharing_link_witness :
  _get_google_drive_direct_link (lit "https://drive.google.com/file/d/1abc123def456/view")
  = lit "https://drive.google.com/uc?export=download&id=1abc123def456".
Proof.
  exact (direct_link_of_sharing_link (lit "1abc123def456") (lit "/view")
           ltac:(apply not_elem_of_forallb; vm_compute; reflexivity)
           ltac:(right; exists (lit "view"); reflexivity)).
Defined.

(** A Dropbox link and a download link of Google Drive are left as they
    are. *)
Lemma direct_link_stable_witness :
  _get_google_drive_direct_link (lit "https://www.dropbox.com/s/abc123/mockup.psd?dl=1")
  = lit "https://www.dropbox.com/s/abc123/mockup.psd?dl=1"
  /\ _get_google_drive_direct_link
       (lit "https://drive.google.com/uc?export=download&id=1abc123def456")
     = lit "https://drive.google.com/uc?export=download&id=1abc123def456".
Proof.
  destruct (direct_link_stable
              (lit "https://www.dropbox.com/s/abc123/mockup.psd?dl=1")
              (lit "1abc123def456")) as [Hother Hdirect].
  split.
  - apply Hother. vm_compute. reflexivity.
  - apply Hdirect; apply not_elem_of_forallb; vm_compute; reflexivity.
Defined.

(** ** Output files are new files *)

(** The path returned does not exist. *)
Lemma get_unique_filepath_free (files : gset str) (filepath result : str) :
  get_unique_filepath files filepath = Some result -> path_exists files result = false.
Proof.
  intros Hget. destruct (path_exists files filepath) eqn:H.
  - destruct (get_unique_filepath_taken files filepath H) as (k & _ & Hk & Hfree & _).
    congruence.
  - rewrite get_unique_filepath_fresh in Hget by done. congruence.
Qed.

Lemma digits_not_dots (k : nat) : existsb not_dot (str_of_nat k) = true.
Proof.
  pose proof (str_of_nat_nonempty k) as Hne. pose proof (str_of_nat_no_dot k) as Hdot.
  destruct (str_of_nat k) as [|c t]; [done|]. cbn [existsb]. unfold not_dot at 1.
  rewrite bool_decide_eq_false_2; [done|]. intros ->. apply Hdot. by left.
Qed.

(** For a path whose file name is [a.b] and names no drive, the path
    returned lies in the directory of the input, and it has the extension
    [.b] when [a] holds a character that is not a dot. *)
Lemma get_unique_filepath_keeps (files : gset str) (pre a b filepath result : str) :
  filepath = pre ++ a ++ ntpath.extsep :: b ->
  ntpath.basename filepath = a ++ ntpath.extsep :: b ->
  sepfree a -> sepfree b -> ntpath.extsep ∉ b ->
  second_colon (a ++ ntpath.extsep :: b) = false ->
  get_unique_filepath files filepath = Some result ->
  ntpath.dirname result = ntpath.dirname filepath
  /\ (existsb not_dot a = true -> snd (ntpath.splitext result) = ntpath.extsep :: b).
Proof.
  intros Hpath Hbase Ha Hb Hdot Hcolon Hget.
  destruct (path_exists files filepath) eqn:H.
  - destruct (get_unique_filepath_taken files filepath H) as (k & _ & Hk & _).
    rewrite Hk in Hget. injection Hget as <-.
    assert (Hname : ntpath.basename filepath <> []) by (rewrite Hbase; by destruct a).
    rewrite <- Hbase in Hcolon.
    pose proof (candidate_split filepath k Hname Hcolon) as Hsplit.
    split; [unfold ntpath.dirname at 1; by rewrite Hsplit|].
    intros Hnot.
    destruct (candidate_shape (ntpath.dirname filepath) (stem_of filepath)
                (extension_of filepath) (stem_sepfree filepath)) as [pre' Hshape].
    rewrite Hshape. unfold extension_of. rewrite Hbase.
    rewrite ntpath_names.splitext_name_dotted, Hnot by done. cbn [snd].
    rewrite ntpath_in.splitext_path; [done | apply str_of_nat_sepfree | done | done |].
    apply digits_not_dots.
  - rewrite get_unique_filepath_fresh in Hget by done. injection Hget as <-.
    split; [done|]. intros Hnot. rewrite Hpath.
    by rewrite ntpath_in.splitext_path.
Qed.

(** X1.  [get_unique_filepath] never returns a path that exists.  Hence it
    returns its own result unchanged, and once a file has been written at
    the path returned, the next call for the same input returns another
    path, which did not exist either: saving the same name again and again
    never writes over an earlier file. *)
Theorem get_unique_filepath_never_taken (files : gset str) (filepath : str) :
  exists result,
    get_unique_filepath files filepath = Some result
    /\ path_exists files result = false
    /\ get_unique_filepath files result = Some result
    /\ exists next,
         get_unique_filepath ({[ result ]} ∪ files) filepath = Some next
         /\ next <> result
         /\ path_exists files next = false.
Proof.
  destruct (get_unique_filepath_total files filepath) as (result & Hget).
  pose proof (get_unique_filepath_free _ _ _ Hget) as Hfree.
  exists result. split; [done|]. split; [done|].
  split; [by apply get_unique_filepath_fresh|].
  destruct (get_unique_filepath_total ({[ result ]} ∪ files) filepath) as (next & Hnext).
  pose proof (get_unique_filepath_free _ _ _ Hnext) as Hfree'.
  exists next. split; [done|].
  unfold path_exists in *. apply bool_decide_eq_false_1 in Hfree'.
  rewrite elem_of_union, elem_of_singleton in Hfree'.
  split; [by intros ->; apply Hfree'; left|].
  apply bool_decide_eq_false_2. intros ?. apply Hfree'. by right.
Qed.

(** The stem of a file name without colon holds no colon. *)
Lemma stem_colon_free (psd : str) :
  ntpath.colon ∉ ntpath.basename psd -> ntpath.colon ∉ stem_of psd.
Proof.
  intros H Hin. apply H. rewrite <- (stem_extension psd). apply elem_of_app. by left.
Qed.

(** The name given to an output, [stem + ".jpg"]. *)
Lemma jpg_name_plain (psd : str) :
  ntpath.colon ∉ ntpath.basename psd ->
  let f := stem_of psd ++ ntpath.extsep :: lit "jpg" in
  f <> [] /\ sepfree f /\ (ntpath.colon ∉ f)
  /\ sepfree (lit "jpg") /\ (ntpath.extsep ∉ lit "jpg").
Proof.
  intros Hcolon f. subst f.
  assert (Hjpg : sepfree (lit "jpg")) by (by repeat constructor).
  split; [by destruct (stem_of psd)|]. split; [|split; [|split; [done|]]].
  - apply ntpath_names.sepfree_app. split; [apply stem_sepfree|]. by constructor.
  - rewrite elem_of_app. intros [?|H]; [by apply (stem_colon_free psd)|].
    change (ntpath.extsep :: lit "jpg") with ["."; "j"; "p"; "g"]%char in H.
    rewrite !elem_of_cons, elem_of_nil in H. intuition discriminate.
  - change (lit "jpg") with ["j"; "p"; "g"]%char.
    rewrite !elem_of_cons, elem_of_nil. intuition discriminate.
Qed.

Section NewOutputs.

Context `{Env : Environment}.

(** X2.  Whatever the state in which a template is taken up, the renderer is
    called once, with a path at which nothing exists at that moment: a
    batch never writes over a file that is there, be it from an earlier
    run or from an earlier template of the same name.  This needs nothing
    of the paths.  When the file name of the template holds no colon and
    the output folder is not a bare UNC drive, the path lies in the
    directory of [out_dir\stem.jpg], which is the output folder itself
    when that is named without a separator at its end, and its extension
    is [.jpg] whenever the stem of the template holds a character that is
    not a dot. *)
Theorem process_item_writes_new_file (job : Job) (total i : nat) (psd : str)
    (m : Machine) :
  (1 <= i <= total)%nat -> Z.of_nat total < 2 ^ 53 ->
  exists out ev w',
    process_item job total (i, psd) m
      = (Returned tt, {| world := w'; trace := trace m ++ ev |})
    /\ render_calls ev = [(psd, art job, out)]
    /\ path_exists (existing (world m)) out = false
    /\ (ntpath.colon ∉ ntpath.basename psd ->
        (unc_start (out_dir job) = true ->
         snd (ntpath.splitdrive (out_dir job)) <> []) ->
        ntpath.dirname out
        = ntpath.dirname (ntpath.join (out_dir job) (stem_of psd ++ lit ".jpg"))
        /\ (ntpath.basename (out_dir job) <> [] -> ntpath.dirname out = out_dir job)
        /\ (existsb not_dot (stem_of psd) = true ->
            snd (ntpath.splitext out) = lit ".jpg")).
Proof.
  intros Hi Htotal.
  pose proof (process_item_result job total i psd m Hi Htotal) as Hitem.
  cbv zeta in Hitem. destruct (render_in _ _ _ _) as [failed w'].
  destruct Hitem as (ev & Hrun & _ & Hcalls).
  exists (output_path job (world m) psd), ev, w'.
  split; [done|]. split; [done|].
  unfold output_path. fold (stem_of psd).
  destruct (get_unique_filepath_total (existing (world m))
              (ntpath.join (out_dir job) (stem_of psd ++ lit ".jpg")))
    as (result & Hget).
  rewrite Hget. change (default ?d (Some result)) with result.
  split; [by apply (get_unique_filepath_free _ _ _ Hget)|].
  intros Hcolon Hunc.
  change (lit ".jpg") with (ntpath.extsep :: lit "jpg") in *.
  destruct (jpg_name_plain psd Hcolon) as (Hne & Hfree & Hnc & Hjpg & Hdot).
  cbv zeta in Hne, Hfree, Hnc.
  destruct (ntpath_in.basename_join (out_dir job) _ Hunc Hne Hfree Hnc)
    as (Hbase & pre & Hpre).
  destruct (get_unique_filepath_keeps _ pre (stem_of psd) (lit "jpg") _ _
              Hpre Hbase (stem_sepfree psd) Hjpg Hdot
              (ntpath_in.colon_free_second _ Hnc) Hget) as [Hdir Hext].
  split; [exact Hdir|]. split; [|exact Hext].
  intros Hout. rewrite Hdir.
  destruct (ntpath_in.split_join_in (out_dir job) _ Hout Hne Hfree
              (ntpath_in.colon_free_second _ Hnc)) as [_ Hsplit].
  unfold ntpath.dirname. by rewrite Hsplit.
Qed.

(** X4.  A batch without templates: after the availability check the run
    reports the start and the end and nothing else; no percentage is
    computed, so that nothing is divided by the zero total. *)
Theorem run_empty_batch (job : Job) (m : Machine) (w1 : World) :
  psds job = [] ->
  Dispatch photoshop (world m) = (None, w1) ->
  run job m
    = (Returned tt,
       {| world := w1;
          trace := trace m ++
            [called_Dispatch photoshop;
             log_emit (lit "✓ Photoshop detected - Processing 0 mockup(s)...");
             finished_emit] |}).
Proof.
  intros Hpsds Hcheck.
  unfold run, bind, try_except, external, emit, modify, enumerate1.
  rewrite Hcheck, Hpsds. cbn. by rewrite <- !app_assoc.
Qed.

End NewOutputs.

(** The first template of the batch of three, with [out\front.jpg] in
    place: the renderer is called with [out\front_1.jpg]. *)
Lemma process_item_writes_new_file_witness :
  let before := Toy.with_files Toy.studio {[ lit "out"; lit "out\front.jpg" ]} in
  exists ev w',
    process_item Toy.three_templates 3 (1%nat, lit "lib\front.psd") (Toy.start before)
      = (Returned tt, {| world := w'; trace := ev |})
    /\ render_calls ev = [(lit "lib\front.psd", lit "art\logo.png", lit "out\front_1.jpg")]
    /\ path_exists (Toy.files before) (lit "out\front_1.jpg") = false
    /\ ntpath.dirname (lit "out\front_1.jpg") = lit "out"
    /\ snd (ntpath.splitext (lit "out\front_1.jpg")) = lit ".jpg".
Proof.
  intros before.
  destruct (process_item_writes_new_file Toy.three_templates 3 1 (lit "lib\front.psd")
              (Toy.start before) ltac:(lia) ltac:(vm_compute; reflexivity))
    as (out & ev & w' & Hrun & Hcalls & Hnew & Hpath).
  destruct (Hpath ltac:(apply not_elem_of_forallb; vm_compute; reflexivity)
                  ltac:(vm_compute; discriminate))
    as (_ & Hdir & Hext).
  assert (E : render_calls
                (trace (process_item Toy.three_templates 3 (1%nat, lit "lib\front.psd")
                          (Toy.start before)).2)
              = [(lit "lib\front.psd", lit "art\logo.png", lit "out\front_1.jpg")])
    by (vm_compute; reflexivity).
  rewrite Hrun in E. cbn [snd trace Toy.start app] in E.
  rewrite Hcalls in E. injection E as ->.
  exists ev, w'. split; [exact Hrun|]. split; [exact Hcalls|]. split; [exact Hnew|].
  split; [apply Hdir; vm_compute; discriminate | apply Hext; vm_compute; reflexivity].
Defined.

(** A batch without templates in the small studio. *)
Lemma run_empty_batch_witness :
  run Example.no_templates (Toy.start Toy.studio)
  = (Returned tt,
     {| world := Toy.studio;
        trace := [called_Dispatch photoshop;
                  log_emit (lit "✓ Photoshop detected - Processing 0 mockup(s)...");
                  finished_emit] |}).
Proof.
  exact (run_empty_batch Example.no_templates (Toy.start Toy.studio) Toy.studio
           eq_refl eq_refl).
Defined.

(** ** What [extract_psd_thumbnail] returns *)

Section ExtractorResult.

Variable loadFromData : list byte -> bool.

(** What is returned from inside the loop: bytes of the file that the
    decoder accepts. *)
Local Abbreviation preview c px := (loadFromData px = true /\ segment_of c px).

Lemma triple_read_segment (c : list byte) (p : nat) (n : Z) :
  triple (reading c p) (read n)
    (fun got f => reading c (p + length got) f /\ segment_of c got).
Proof.
  intros f Hf. pose proof (triple_read c p n f Hf) as H.
  unfold read in *. destruct (n <? -1); [done|]. split; [exact H|].
  destruct Hf as [<- _]. exists (position f).
  destruct (n =? -1).
  - by rewrite firstn_all.
  - rewrite length_take.
    destruct (Nat.min_spec (Z.to_nat n) (length (drop (position f) (content f))))
      as [[? ->]|[? ->]]; [done|].
    by rewrite firstn_all, take_ge by lia.
Qed.

Lemma triple_resource_block_preview (c : list byte) (p : nat) :
  triple (reading c p) (resource_block loadFromData)
    (fun step f => match step with
                   | Continue => reading c (p + 7) f
                   | Break => reading c p f
                   | Return px => reading c p f /\ preview c px
                   end).
Proof.
  unfold resource_block.
  eapply triple_bind; [apply triple_read|]. intros resource_signature.
  destruct (negb _).
  { apply triple_ret. intros f. apply reading_mono. lia. }
  eapply triple_bind; [eapply triple_weaken; [apply (triple_read_H c p) | |]|].
  { intros f. apply reading_mono. lia. }
  { intros a f H. exact H. }
  intros resource_id.
  eapply triple_bind; [apply triple_read_B|]. intros name_length.
  eapply triple_bind; [apply triple_when, triple_skip|]. intros ?.
  eapply triple_bind; [apply triple_when, triple_skip|]. intros ?.
  eapply triple_bind; [apply triple_read_I|]. intros data_size.
  replace (p + 2 + 1 + 4)%nat with (p + 7)%nat by lia.
  eapply (triple_bind _ _
            (fun found f => reading c (p + 7) f
                            /\ forall px, found = Some px -> preview c px)).
  { destruct (_ || _).
    - destruct (resource_id =? 1036).
      + eapply triple_bind; [apply triple_read|]. intros ?.
        eapply triple_bind; [apply triple_read_segment|]. intros jpeg_data.
        destruct (loadFromData jpeg_data) eqn:E; apply triple_ret;
          intros f [Hf Hseg]; (split; [revert Hf; apply reading_mono; lia|]).
        * by intros px [= <-].
        * done.
      + apply triple_ret. by intros f Hf.
    - eapply triple_bind; [apply triple_read|]. intros ?.
      apply triple_ret. intros f Hf. split; [|done].
      revert Hf. apply reading_mono. lia. }
  intros [px|].
  - apply triple_ret. intros f [Hf Hpx]. split; [|by apply Hpx].
    revert Hf. apply reading_mono. lia.
  - eapply triple_bind.
    + eapply triple_weaken; [apply (triple_when (reading c (p + 7))), triple_skip | |].
      * by intros f [Hf _].
      * intros ? f Hf. exact Hf.
    + intros ?. by apply triple_ret.
Qed.

Lemma triple_resources_loop_preview (c : list byte) (fuel : nat) (resources_end : Z) :
  forall p, (length c - p < fuel)%nat ->
    triple (reading c p) (resources_loop loadFromData fuel resources_end)
      (fun r _ => forall px, r = Some px -> preview c px).
Proof.
  induction fuel as [|fuel IH]; intros p Hfuel; [lia|].
  simpl. eapply (triple_bind _ _ (fun _ => reading c p)).
  { intros f Hf. exact Hf. }
  intros pos. destruct (pos <? resources_end); [|by apply triple_ret].
  eapply triple_bind; [apply triple_resource_block_preview|].
  intros [|px|].
  - by apply triple_ret.
  - apply triple_ret. intros f [_ Hpx] px' [= <-]. exact Hpx.
  - intros f Hf. destruct (decide (p + 7 <= length c)%nat) as [Hle|Hgt].
    + exact (IH (p + 7)%nat ltac:(lia) f Hf).
    + destruct Hf as [_ Hf]. lia.
Qed.

Lemma triple_extract_body_preview (c : list byte) :
  triple (reading c 0) (extract_body loadFromData)
    (fun r _ => forall px, r = Some px -> preview c px).
Proof.
  unfold extract_body.
  eapply triple_bind; [apply triple_read|]. intros signature.
  destruct (negb _).
  { by apply triple_ret. }
  eapply (triple_bind _ _ (fun _ => reading c 0)).
  { eapply triple_weaken; [apply (triple_read_H c 0) | |].
    - intros f. apply reading_mono. lia.
    - intros ? f. apply reading_mono. lia. }
  intros version.
  eapply (triple_bind _ _ (fun _ => reading c 0)).
  { eapply triple_weaken; [apply (triple_read c 0) | done |].
    intros ? f. apply reading_mono. lia. }
  intros ?.
  do 5 (eapply (triple_bind _ _ (fun _ => reading c 0));
        [ first [ eapply triple_weaken; [apply (triple_read_H c 0) | done |]
                | eapply triple_weaken; [apply (triple_read_I c 0) | done |] ];
          intros ? f; apply reading_mono; lia
        | intros ? ]).
  eapply (triple_bind _ _ (fun _ => reading c 0)).
  { eapply triple_weaken; [apply (triple_read_I c 0) | done |].
    intros ? f. apply reading_mono. lia. }
  intros color_mode_length.
  eapply (triple_bind _ _ (fun _ => reading c 0)).
  { eapply triple_weaken; [apply (triple_read c 0) | done |].
    intros ? f. apply reading_mono. lia. }
  intros ?.
  eapply (triple_bind _ _ (fun _ => reading c 0)).
  { eapply triple_weaken; [apply (triple_read_I c 0) | done |].
    intros ? f. apply reading_mono. lia. }
  intros resources_length.
  eapply (triple_bind _ _ (fun _ => reading c 0)).
  { intros f Hf. exact Hf. }
  intros here.
  eapply (triple_bind _ _ (fun f' f => reading c 0 f /\ f' = f)).
  { intros f Hf. simpl. done. }
  intros f0 f [Hf ->].
  pose proof Hf as [Hc Hp]. rewrite Hc.
  apply (triple_resources_loop_preview c (S (length c)) (here + resources_length)
           (position f) ltac:(lia) f).
  split; [done | lia].
Qed.

End ExtractorResult.

(** X6.  A preview that [extract_psd_thumbnail] returns consists of bytes that
    stand in the file, one after the other, and that the decoder accepts;
    and the file begins with the signature [8BPS]. *)
Theorem extract_psd_thumbnail_sound (loadFromData : list byte -> bool)
    (opened : option (list byte)) (px : QPixmap) :
  extract_psd_thumbnail loadFromData opened = Returned (Some px) ->
  loadFromData px = true
  /\ exists data, opened = Some data
                  /\ segment_of data px
                  /\ take 4 data = blit "8BPS".
Proof.
  destruct opened as [data|]; [|done].
  unfold extract_psd_thumbnail, try_except. cbn [default from_option id].
  intros Hrun.
  pose proof (triple_extract_body_preview loadFromData data
                {| content := data; position := 0 |}) as H.
  assert (Hstart : reading data 0 {| content := data; position := 0 |})
    by (split; simpl; [done | lia]).
  specialize (H Hstart).
  destruct (extract_body loadFromData {| content := data; position := 0 |})
    as [[r| |] f'] eqn:Hbody; cbn in Hrun; try done.
  injection Hrun as ->. destruct (H px eq_refl) as [Hok Hseg].
  split; [done|]. exists data. split; [done|]. split; [done|].
  destruct (decide (take 4 data = blit "8BPS")) as [|Hsig]; [done|].
  exfalso. revert Hbody. unfold extract_body, bind, read. simpl.
  rewrite (bool_decide_eq_false_2 _ Hsig). done.
Qed.

(** The preview of the container that holds one JPEG thumbnail. *)
Lemma extract_psd_thumbnail_sound_witness :
  Sample.accepts_jpeg Sample.jpeg = true
  /\ exists data, Some Sample.jpeg_only = Some data
                  /\ segment_of data Sample.jpeg
                  /\ take 4 data = blit "8BPS".
Proof.
  apply (extract_psd_thumbnail_sound Sample.accepts_jpeg (Some Sample.jpeg_only)).
  vm_compute. reflexivity.
Defined.

(** ** Reading back what was written *)

(** *** Big-endian numbers *)









(** *** Reading what lies ahead *)



(** *** One block *)

Section ReadingBack.

Variable loadFromData : list byte -> bool.




(** *** The loop over the blocks *)

(** The blocks of a list of resources, each given by its id and its
    data. *)
Local Abbreviation blocks others :=
  (concat (map (fun r : Z * list byte => Sample.resource r.1 r.2) others)).

Local Abbreviation passable others :=
  (Forall (fun r : Z * list byte =>
             0 <= r.1 < 65536 /\ r.1 <> 1033 /\ r.1 <> 1036
             /\ Z.of_nat (length r.2) < 2 ^ 32) others).




(** *** The container *)


End ReadingBack.


(** ** The progress value is a percentage *)

Module pyfloat_bounds.
Import pyfloat pyfloat_facts.

(** *** What is cut off when a mantissa is shifted *)

Lemma loc_of_shr_record_of_loc (m : Z) (l : location) :
  loc_of_shr_record (shr_record_of_loc m l) = l.
Proof. by destruct l as [|[]]. Qed.

Lemma shr_1_exact (mrs : shr_record) :
  loc_of_shr_record mrs = loc_Exact -> Z.even (shr_m mrs) = true ->
  loc_of_shr_record (shr_1 mrs) = loc_Exact.
Proof.
  destruct mrs as [m [] []]; try done. cbn [shr_m].
  destruct m as [|[p|p|]|[p|p|]]; done.
Qed.

(** Shifting an exact multiple of [2^p] by [p] places loses nothing. *)
Lemma iter_shr_1_exact (p : positive) :
  forall (mrs : shr_record) (k : Z),
    0 <= k -> loc_of_shr_record mrs = loc_Exact -> shr_m mrs = k * 2 ^ Zpos p ->
    loc_of_shr_record (SpecFloat.iter_pos shr_1 p mrs) = loc_Exact.
Proof.
  assert (Hpow : forall q : positive, 0 < 2 ^ Zpos q)
    by (intros q; apply Z.pow_pos_nonneg; lia).
  induction p as [p IH|p IH|]; intros mrs k Hk Hl Hm; cbn [SpecFloat.iter_pos].
  - pose proof (Hpow p).
    assert (Hm' : shr_m mrs = 2 * (k * 2 ^ Zpos p * 2 ^ Zpos p)).
    { rewrite Hm. replace (Z.pos p~1) with (1 + Z.pos p + Z.pos p) by lia.
      rewrite !Z.pow_add_r by lia. lia. }
    assert (H1 : shr_m (shr_1 mrs) = (k * 2 ^ Zpos p) * 2 ^ Zpos p).
    { rewrite shr_1_m by nia. rewrite Hm', Z.mul_comm. by apply Z.div_mul. }
    assert (L1 : loc_of_shr_record (shr_1 mrs) = loc_Exact).
    { apply shr_1_exact; [done|]. by rewrite Hm', Z.even_mul. }
    assert (H2 : shr_m (SpecFloat.iter_pos shr_1 p (shr_1 mrs)) = k * 2 ^ Zpos p).
    { rewrite iter_shr_1_m by nia. rewrite H1. apply Z.div_mul. lia. }
    apply (IH _ k); [done | | done].
    apply (IH _ (k * 2 ^ Zpos p)); [nia | done | done].
  - pose proof (Hpow p).
    assert (Hm' : shr_m mrs = (k * 2 ^ Zpos p) * 2 ^ Zpos p).
    { rewrite Hm. replace (Z.pos p~0) with (Z.pos p + Z.pos p) by lia.
      rewrite !Z.pow_add_r by lia. lia. }
    assert (H2 : shr_m (SpecFloat.iter_pos shr_1 p mrs) = k * 2 ^ Zpos p).
    { rewrite iter_shr_1_m by nia. rewrite Hm'. apply Z.div_mul. lia. }
    apply (IH _ k); [done | | done].
    apply (IH _ (k * 2 ^ Zpos p)); [nia | done | done].
  - apply shr_1_exact; [done|]. rewrite Hm, Z.mul_comm. by rewrite Z.even_mul.
Qed.

(** *** Rounding does not cross an integer *)

(** [shr_fexp] keeps a mantissa at or below a bound that lies on the new
    grid, and strictly below it when something was cut off. *)
Lemma shr_fexp_upper (N m e : Z) (l : location) (mrs : shr_record) (e' : Z) :
  0 <= m -> e' <= 0 ->
  shr_fexp prec emax m e l = (mrs, e') ->
  m <= N * 2 ^ (- e) -> (l <> loc_Exact -> m < N * 2 ^ (- e)) ->
  shr_m mrs <= N * 2 ^ (- e')
  /\ (loc_of_shr_record mrs <> loc_Exact -> shr_m mrs < N * 2 ^ (- e')).
Proof.
  intros Hm He'. unfold shr_fexp, shr.
  destruct (fexp prec emax (Zdigits2 m + e) - e) as [|p|p] eqn:Hn;
    intros [= <- <-]; rewrite ?shr_record_of_loc_m, ?loc_of_shr_record_of_loc;
    [done| |done].
  intros Hle Hlt.
  assert (H2p : 0 < 2 ^ Zpos p) by (apply Z.pow_pos_nonneg; lia).
  set (G := N * 2 ^ (- (e + Zpos p))) in *.
  assert (Hcap : N * 2 ^ (- e) = G * 2 ^ Zpos p).
  { unfold G. replace (- e) with (- (e + Zpos p) + Zpos p) by lia.
    rewrite Z.pow_add_r by lia. lia. }
  rewrite Hcap in Hle, Hlt.
  rewrite iter_shr_1_m by (by rewrite shr_record_of_loc_m).
  rewrite shr_record_of_loc_m. split.
  - apply Z.div_le_upper_bound; lia.
  - intros Hloc. destruct (Z_lt_le_dec (m / 2 ^ Zpos p) G) as [|Hge]; [done|].
    exfalso. apply Hloc.
    pose proof (Z.mul_div_le m (2 ^ Zpos p) H2p) as Hfloor.
    assert (Hmeq : m = G * 2 ^ Zpos p) by nia.
    assert (l = loc_Exact) as ->.
    { destruct l as [|c]; [done|]. exfalso.
      assert (m < G * 2 ^ Z.pos p) by (by apply Hlt). lia. }
    apply (iter_shr_1_exact p _ G); [nia | done | done].
Qed.

Lemma shr_fexp_lower (N m e : Z) (l : location) (mrs : shr_record) (e' : Z) :
  0 <= m -> e' <= 0 ->
  shr_fexp prec emax m e l = (mrs, e') ->
  N * 2 ^ (- e) <= m ->
  N * 2 ^ (- e') <= shr_m mrs.
Proof.
  intros Hm He'. unfold shr_fexp, shr.
  destruct (fexp prec emax (Zdigits2 m + e) - e) as [|p|p] eqn:Hn;
    intros [= <- <-]; rewrite ?shr_record_of_loc_m; [done| |done].
  intros Hle.
  assert (H2p : 0 < 2 ^ Zpos p) by (apply Z.pow_pos_nonneg; lia).
  set (G := N * 2 ^ (- (e + Zpos p))) in *.
  assert (Hcap : N * 2 ^ (- e) = G * 2 ^ Zpos p).
  { unfold G. replace (- e) with (- (e + Zpos p) + Zpos p) by lia.
    rewrite Z.pow_add_r by lia. lia. }
  rewrite Hcap in Hle.
  rewrite iter_shr_1_m by (by rewrite shr_record_of_loc_m).
  rewrite shr_record_of_loc_m.
  apply Z.div_le_lower_bound; lia.
Qed.

Lemma round_nearest_even_upper (m : Z) (l : location) :
  m <= round_nearest_even m l <= m + 1
  /\ (l = loc_Exact -> round_nearest_even m l = m).
Proof.
  destruct l as [|[]]; simpl; try destruct (Z.even m);
    (split; [lia|]); intros; first [done | discriminate].
Qed.

(** The exponents that rounding goes through stay at or below zero for
    what lies below [2^52]. *)
Lemma binary_round_aux_steps (m e : Z) (l : location) :
  0 <= m -> e <= 0 -> Zdigits2 m + e <= 52 ->
  exists mrs' e' mrs'' e'',
    shr_fexp prec emax m e l = (mrs', e')
    /\ shr_fexp prec emax
         (round_nearest_even (shr_m mrs') (loc_of_shr_record mrs')) e' loc_Exact
       = (mrs'', e'')
    /\ 0 <= shr_m mrs' /\ e' <= 0 /\ 0 <= shr_m mrs'' /\ e'' <= 0.
Proof.
  intros Hm He Hd.
  destruct (shr_fexp prec emax m e l) as [mrs' e'] eqn:H1.
  destruct (shr_fexp_bounds m e l mrs' e' Hm H1) as (Hm' & He' & Hd').
  pose proof (round_nearest_even_bounds (shr_m mrs') (loc_of_shr_record mrs') Hm')
    as [Hr Hrd].
  set (m1 := round_nearest_even (shr_m mrs') (loc_of_shr_record mrs')) in *.
  destruct (shr_fexp prec emax m1 e' loc_Exact) as [mrs'' e''] eqn:H2.
  destruct (shr_fexp_bounds m1 e' loc_Exact mrs'' e'' Hr H2) as (Hm'' & He'' & Hd'').
  pose proof (Zdigits2_nonneg m). pose proof (Zdigits2_nonneg (shr_m mrs')).
  exists mrs', e', mrs'', e''. split; [done|]. split; [done|].
  unfold fexp, emin, prec, emax in *.
  assert (Hd1 : Zdigits2 m1 + e' <= 53).
  { destruct Hd' as [Hz|Hd']; [|lia]. rewrite Hz in Hrd. simpl in Hrd. lia. }
  lia.
Qed.

Lemma binary_round_aux_at_most (N m e : Z) (l : location) :
  0 <= m -> e <= 0 -> Zdigits2 m + e <= 52 ->
  m <= N * 2 ^ (- e) -> (l <> loc_Exact -> m < N * 2 ^ (- e)) ->
  at_most N (binary_round_aux prec emax false m e l).
Proof.
  intros Hm He Hd Hle Hlt. unfold binary_round_aux.
  destruct (binary_round_aux_steps m e l Hm He Hd)
    as (mrs' & e' & mrs'' & e'' & H1 & H2 & Hm' & He' & Hm'' & He'').
  rewrite H1, H2.
  destruct (shr_fexp_upper N m e l mrs' e' Hm He' H1 Hle Hlt) as [Hu Hu'].
  pose proof (round_nearest_even_upper (shr_m mrs') (loc_of_shr_record mrs'))
    as [Hr Hr'].
  set (m1 := round_nearest_even (shr_m mrs') (loc_of_shr_record mrs')) in *.
  assert (Hm1 : m1 <= N * 2 ^ (- e')).
  { destruct (loc_of_shr_record mrs') as [|c] eqn:El.
    - rewrite Hr' by done. done.
    - assert (shr_m mrs' < N * 2 ^ (- e')) by (by apply Hu'). lia. }
  destruct (shr_fexp_upper N m1 e' loc_Exact mrs'' e'' ltac:(lia) He'' H2 Hm1
              ltac:(done)) as [Hu2 _].
  destruct (shr_m mrs'') as [|p|p] eqn:Hp; [done| |lia].
  unfold prec, emax.
  replace (e'' <=? 1024 - 53) with true by (symmetry; apply Z.leb_le; lia).
  done.
Qed.

Lemma binary_round_aux_at_least (N m e : Z) (l : location) :
  0 < N -> 0 <= m -> e <= 0 -> Zdigits2 m + e <= 52 ->
  N * 2 ^ (- e) <= m ->
  at_least N (binary_round_aux prec emax false m e l).
Proof.
  intros HN Hm He Hd Hle. unfold binary_round_aux.
  destruct (binary_round_aux_steps m e l Hm He Hd)
    as (mrs' & e' & mrs'' & e'' & H1 & H2 & Hm' & He' & Hm'' & He'').
  rewrite H1, H2.
  pose proof (shr_fexp_lower N m e l mrs' e' Hm He' H1 Hle) as Hl1.
  pose proof (round_nearest_even_upper (shr_m mrs') (loc_of_shr_record mrs'))
    as [Hr _].
  set (m1 := round_nearest_even (shr_m mrs') (loc_of_shr_record mrs')) in *.
  pose proof (shr_fexp_lower N m1 e' loc_Exact mrs'' e'' ltac:(lia) He'' H2
                ltac:(lia)) as Hl2.
  assert (0 < 2 ^ (- e'')) by (apply Z.pow_pos_nonneg; lia).
  destruct (shr_m mrs'') as [|p|p] eqn:Hp; [nia| |nia].
  unfold prec, emax.
  replace (e'' <=? 1024 - 53) with true by (symmetry; apply Z.leb_le; lia).
  done.
Qed.

(** *** Integers as floats *)

Lemma iter_xO_value (p k : positive) : Zpos (Pos.iter xO p k) = Zpos p * 2 ^ Zpos k.
Proof.
  induction k as [|k IH] using Pos.peano_ind.
  - simpl. lia.
  - rewrite Pos.iter_succ, Pos2Z.inj_succ, Z.pow_succ_r by lia.
    rewrite Pos2Z.inj_xO, IH. lia.
Qed.

(** [float(z)] for [0 < z < 2^53] has the value [z]. *)
Lemma of_int_value (z : Z) :
  0 < z < 2 ^ 53 ->
  exists m e, of_int z = S754_finite false m e
              /\ e <= 0 /\ Zpos m = z * 2 ^ (- e)
              /\ Zdigits2 (Zpos m) + e = Zdigits2 z.
Proof.
  intros [Hpos Hlt]. destruct z as [|p|p]; try lia.
  assert (Hd : Zdigits2 (Zpos p) <= 53) by (apply Zdigits2_le; lia).
  pose proof (Zdigits2_pos (Zpos p) ltac:(lia)) as Hd1.
  cbn [Zdigits2] in Hd, Hd1.
  unfold of_int, binary_normalize, binary_round, shl_align.
  rewrite Z.add_0_r.
  assert (Hfexp : fexp prec emax (Zpos (digits2_pos p)) = Zpos (digits2_pos p) - 53)
    by (unfold fexp, emin, prec, emax; lia).
  rewrite Hfexp, Z.sub_0_r.
  destruct (Zpos (digits2_pos p) - 53) as [|k|k] eqn:Hk; try lia.
  - exists p, 0. rewrite binary_round_aux_exact.
    + cbn [Zdigits2]. split; [done|]. split; [done|]. split; [simpl; lia | lia].
    + rewrite Z.add_0_r, Hfexp. lia.
    + lia.
  - exists (Pos.iter xO p k), (Zneg k). rewrite binary_round_aux_exact.
    + cbn [Zdigits2]. rewrite digits2_pos_iter_xO. split; [done|]. split; [done|].
      split; [apply iter_xO_value | lia].
    + rewrite digits2_pos_iter_xO. unfold fexp, emin, prec, emax. lia.
    + lia.
Qed.

Lemma Zdigits2_mono (a b : Z) : 0 < a <= b -> Zdigits2 a <= Zdigits2 b.
Proof.
  intros Hab. pose proof (Zdigits2_bounds b ltac:(lia)) as [_ Hb].
  apply Zdigits2_le; [lia | apply Zdigits2_nonneg | lia].
Qed.

(** *** The quotient and the product *)

(** [i / t] for [0 < i <= t < 2^53] is at most 1, and it is 1 for
    [i = t]. *)
Lemma truediv_at_most_one (i t : Z) :
  0 < i <= t -> t < 2 ^ 53 ->
  exists q, truediv i t = Some q /\ at_most 1 q /\ (i = t -> at_least 1 q).
Proof.
  intros Hi Ht. unfold truediv.
  replace (t =? 0) with false by (symmetry; apply Z.eqb_neq; lia).
  destruct (of_int_value i ltac:(lia)) as (mx & ex & -> & Hex & Hmx & Hdx).
  destruct (of_int_value t ltac:(lia)) as (my & ey & -> & Hey & Hmy & Hdy).
  eexists. split; [reflexivity|].
  unfold SFdiv, SFdiv_core_binary. rewrite Hdx, Hdy. cbn [xorb].
  pose proof (Zdigits2_mono i t Hi) as Hmono.
  pose proof (Zdigits2_pos i ltac:(lia)) as Hdi.
  assert (Hdt : Zdigits2 t <= 53) by (apply Zdigits2_le; lia).
  set (e' := Z.min (fexp prec emax (Zdigits2 i - Zdigits2 t)) (ex - ey)).
  set (s := ex - ey - e').
  assert (He' : e' <= -53) by (unfold e', fexp, emin, prec, emax; lia).
  assert (Hs : 0 <= s) by (unfold s, e'; lia).
  set (m' := match s with
             | 0 => Zpos mx
             | Zpos _ => Z.shiftl (Zpos mx) s
             | Zneg _ => 0
             end).
  assert (Hm' : m' = Zpos mx * 2 ^ s).
  { unfold m'. destruct s as [|k|k] eqn:Es; try lia.
    apply Z.shiftl_mul_pow2. lia. }
  set (P := 2 ^ (- ey - e')).
  assert (HP : 0 < P) by (apply Z.pow_pos_nonneg; lia).
  assert (Hnum : m' = i * P).
  { rewrite Hm', Hmx. unfold P, s.
    replace (- ey - e') with (- ex + (ex - ey - e')) by lia.
    rewrite Z.pow_add_r by lia. lia. }
  assert (Hden : Zpos my * 2 ^ (- e') = t * P).
  { rewrite Hmy. unfold P. replace (- ey - e') with (- ey + - e') by lia.
    rewrite Z.pow_add_r by lia. lia. }
  assert (Hcap : 0 < 2 ^ (- e')) by (apply Z.pow_pos_nonneg; lia).
  pose proof (Z_div_mod m' (Zpos my) ltac:(lia)) as Hdiv.
  destruct (Z.div_eucl m' (Zpos my)) as [q r]. destruct Hdiv as [Hqr Hr].
  assert (Hq0 : 0 <= q) by nia.
  assert (Hqle : q <= 2 ^ (- e')) by nia.
  assert (Hqd : Zdigits2 q + e' <= 52).
  { enough (Zdigits2 q <= - e' + 1) by lia.
    apply Zdigits2_le; [done | lia |].
    replace (- e' + 1) with (Z.succ (- e')) by lia.
    rewrite Z.pow_succ_r by lia. lia. }
  split.
  - apply binary_round_aux_at_most; [done | lia | done | lia |].
    intros Hloc. rewrite Z.mul_1_l.
    destruct (Z.eq_dec r 0) as [->|Hr0].
    + exfalso. apply Hloc. unfold new_location, new_location_even, new_location_odd.
      by destruct (Z.even _).
    + nia.
  - intros ->. apply binary_round_aux_at_least; [lia | done | lia | done |].
    nia.
Qed.

(** A quotient of at most 1, times 100, is at most 100; and it is 100 for
    the quotient 1. *)
Lemma mul_100_at_most (q : spec_float) :
  at_most 1 q ->
  at_most 100 (mul q (of_int 100))
  /\ (at_least 1 q -> at_least 100 (mul q (of_int 100))).
Proof.
  assert (H100 : of_int 100 = S754_finite false 7036874417766400 (-46))
    by (vm_compute; reflexivity).
  rewrite H100. destruct q as [s|s| |s m e]; try done.
  intros (-> & He & Hm). unfold mul, SFmul. cbn [xorb].
  assert (Hcap : 0 < 2 ^ (- e)) by (apply Z.pow_pos_nonneg; lia).
  assert (H46 : 2 ^ (- (e + -46)) = 2 ^ 46 * 2 ^ (- e)).
  { replace (- (e + -46)) with (46 + - e) by lia. by rewrite Z.pow_add_r by lia. }
  assert (Hd : Zdigits2 (Zpos (m * 7036874417766400)) + (e + -46) <= 52).
  { pose proof (Zdigits2_mul (Zpos m) 7036874417766400 ltac:(lia) ltac:(lia)) as Hmul.
    replace (Zdigits2 7036874417766400) with 53 in Hmul by (vm_compute; reflexivity).
    rewrite <- Pos2Z.inj_mul in Hmul.
    assert (Zdigits2 (Zpos m) <= - e + 1).
    { apply Zdigits2_le; [lia | lia |].
      replace (- e + 1) with (Z.succ (- e)) by lia.
      rewrite Z.pow_succ_r by lia. lia. }
    lia. }
  rewrite Pos2Z.inj_mul in *.
  split.
  - apply binary_round_aux_at_most; [lia | lia | done | | done].
    rewrite H46. lia.
  - intros (_ & _ & Hm'). apply binary_round_aux_at_least; [lia | lia | lia | done |].
    rewrite H46. lia.
Qed.

Lemma to_int_at_most (N : Z) (x : spec_float) :
  0 <= N -> at_most N x ->
  exists n, to_int x = Some n /\ 0 <= n <= N /\ (at_least N x -> n = N).
Proof.
  intros HN. destruct x as [s|s| |s m e]; try done.
  - intros _. exists 0. split; [done|]. split; [lia | done].
  - intros (-> & He & Hm). cbn [to_int].
    assert (Hcap : 0 < 2 ^ (- e)) by (apply Z.pow_pos_nonneg; lia).
    destruct (0 <=? e) eqn:E.
    + apply Z.leb_le in E. assert (e = 0) as -> by lia.
      rewrite Z.shiftl_0_r. change (2 ^ (- 0)) with 1 in *.
      exists (Zpos m). split; [done|]. split; [lia|].
      intros (_ & _ & Hm'). change (2 ^ (- 0)) with 1 in Hm'. lia.
    + rewrite Z.shiftr_div_pow2 by lia.
      exists (Zpos m / 2 ^ (- e)). split; [done|]. split.
      * split; [apply Z.div_pos; lia | apply Z.div_le_upper_bound; lia].
      * intros (_ & _ & Hm'). assert (Zpos m = N * 2 ^ (- e)) as -> by lia.
        apply Z.div_mul. lia.
Qed.

End pyfloat_bounds.

(** The value handed to [progress.emit] is a percentage: it lies between 0
    and 100, and it is 100 after the last template. *)
Lemma progress_percent_range (i total : nat) :
  (1 <= i <= total)%nat -> Z.of_nat total < 2 ^ 53 ->
  exists n, progress_percent (Z.of_nat i) (Z.of_nat total) = Some n
            /\ 0 <= n <= 100 /\ (i = total -> n = 100).
Proof.
  intros Hi Htotal. unfold progress_percent.
  destruct (pyfloat_bounds.truediv_at_most_one (Z.of_nat i) (Z.of_nat total)
              ltac:(lia) Htotal) as (q & -> & Hq & Hq1).
  destruct (pyfloat_bounds.mul_100_at_most q Hq) as [Hp Hp1].
  destruct (pyfloat_bounds.to_int_at_most 100 _ ltac:(lia) Hp) as (n & -> & Hn & Hn1).
  exists n. split; [done|]. split; [done|].
  intros ->. apply Hn1, Hp1, Hq1. done.
Qed.

Lemma map_Some_Forall {A} (P : A -> Prop) (f : nat -> option A) (l : list nat) :
  forall values : list A,
    map Some values = map f l ->
    (forall i n, i ∈ l -> f i = Some n -> P n) ->
    Forall P values.
Proof.
  induction l as [|i l IH]; intros [|v values] Hmap HP; try done.
  cbn [map] in Hmap. injection Hmap as Hv Hrest. constructor.
  - apply (HP i); [apply elem_of_cons; by left | done].
  - apply IH; [done|]. intros j n Hj. apply HP. apply elem_of_cons. by right.
Qed.

Lemma map_Some_last {A} (f : nat -> option A) (l : list nat) (x : nat) (values : list A) :
  map Some values = map f (l ++ [x]) ->
  exists n, f x = Some n /\ last values = Some n.
Proof.
  intros Hmap. destruct (exists_last (l := values)) as (vs & v & ->).
  { intros ->. rewrite map_app in Hmap. by destruct (map f l). }
  rewrite !map_app in Hmap. apply app_inj_tail in Hmap as [_ Hv].
  exists v. split; [by rewrite <- Hv | apply last_snoc].
Qed.

Section ProgressValues.

Context `{Env : Environment}.

(** The progress values of a run whose availability check passes. *)
Lemma run_progress_values (job : Job) (m : Machine) (w1 : World) :
  Dispatch photoshop (world m) = (None, w1) ->
  Z.of_nat (length (psds job)) < 2 ^ 53 ->
  let total := length (psds job) in
  exists ev w',
    run job m = (Returned tt, {| world := w'; trace := trace m ++ ev |})
    /\ map Some (progress_values ev)
       = map (fun i => progress_percent (Z.of_nat i) (Z.of_nat total)) (seq 1 total).
Proof.
  intros Hcheck Htotal total.
  destruct (run_passing job m w1 Hcheck Htotal) as (ev & w' & Hrun & Hsig & _).
  fold total in Hsig, Hrun.
  eexists _, w'. split; [exact Hrun|].
  rewrite !progress_values_app. cbn [progress_values omap list_omap app].
  rewrite app_nil_r, <- progress_values_signals, Hsig.
  destruct (items_signals_plain total
              (enumerate1 (render_results job w1 (psds job)))) as (_ & _ & ->).
  unfold enumerate1.
  rewrite items_progress; rewrite ?render_results_length; try done; try lia.
Qed.

(** X3.  When the availability check passes, the run emits one progress value
    per template, each of them between 0 and 100, and the last of them is
    100: the progress bar is never driven out of its range and is full
    when the batch is done. *)
Theorem run_progress_is_percentage (job : Job) (m : Machine) (w1 : World) :
  Dispatch photoshop (world m) = (None, w1) ->
  Z.of_nat (length (psds job)) < 2 ^ 53 ->
  exists ev w',
    run job m = (Returned tt, {| world := w'; trace := trace m ++ ev |})
    /\ length (progress_values ev) = length (psds job)
    /\ Forall (fun n => 0 <= n <= 100) (progress_values ev)
    /\ (psds job <> [] -> last (progress_values ev) = Some 100).
Proof.
  intros Hcheck Htotal.
  destruct (run_progress_values job m w1 Hcheck Htotal) as (ev & w' & Hrun & Hvalues).
  cbv zeta in Hvalues. set (total := length (psds job)) in *.
  exists ev, w'. split; [done|]. split; [|split].
  - apply (f_equal length) in Hvalues.
    by rewrite !length_map, length_seq in Hvalues.
  - apply (map_Some_Forall _ _ _ _ Hvalues). intros i n Hin Hn.
    apply elem_of_seq in Hin.
    destruct (progress_percent_range i total ltac:(lia) Htotal) as (n' & Hn' & Hb & _).
    congruence.
  - intros Hne. assert (Hpos : (1 <= total)%nat).
    { unfold total. destruct (psds job); [done | cbn; lia]. }
    clear Hrun. clearbody total. destruct total as [|k]; [lia|].
    rewrite seq_S in Hvalues.
    destruct (map_Some_last _ _ _ _ Hvalues) as (n & Hn & Hlast).
    change (1 + k)%nat with (S k) in Hn.
    destruct (progress_percent_range (S k) (S k) ltac:(lia) Htotal)
      as (n' & Hn' & _ & Hfull).
    rewrite Hlast. f_equal. rewrite Hn' in Hn. injection Hn as <-. by apply Hfull.
Qed.

End ProgressValues.

(** The batch of three templates: three values within the range, the last
    of them 100. *)
Lemma run_progress_is_percentage_witness :
  exists ev w',
    run Toy.three_templates (Toy.start Toy.studio)
      = (Returned tt, {| world := w'; trace := ev |})
    /\ length (progress_values ev) = 3%nat
    /\ Forall (fun n => 0 <= n <= 100) (progress_values ev)
    /\ last (progress_values ev) = Some 100.
Proof.
  destruct (run_progress_is_percentage Toy.three_templates (Toy.start Toy.studio)
              Toy.studio eq_refl ltac:(vm_compute; reflexivity))
    as (ev & w' & Hrun & Hlen & Hrange & Hlast).
  exists ev, w'. split; [exact Hrun|]. split; [exact Hlen|]. split; [exact Hrange|].
  apply Hlast. discriminate.
Defined.

(** ** The catalogue of the library *)

(** *** The order of strings *)

#[global] Instance str_le_total : Total str_le.
Proof.
  intros a. unfold str_le. induction a as [|x a IH]; intros b; [by left|].
  destruct b as [|y b]; [by right|]. cbn [str_leb].
  destruct (Nat.ltb_spec (nat_of_ascii x) (nat_of_ascii y)); [by left|].
  destruct (Nat.ltb_spec (nat_of_ascii y) (nat_of_ascii x)); [by right|].
  apply IH.
Qed.

#[global] Instance str_le_trans : Transitive str_le.
Proof.
  intros a. unfold str_le. induction a as [|x a IH]; intros b c Hab Hbc; [done|].
  destruct b as [|y b]; [done|]. destruct c as [|z c]; [done|].
  cbn [str_leb] in *.
  destruct (Nat.ltb_spec (nat_of_ascii x) (nat_of_ascii y));
    destruct (Nat.ltb_spec (nat_of_ascii y) (nat_of_ascii x)); try done;
    destruct (Nat.ltb_spec (nat_of_ascii y) (nat_of_ascii z));
    destruct (Nat.ltb_spec (nat_of_ascii z) (nat_of_ascii y)); try done;
    destruct (Nat.ltb_spec (nat_of_ascii x) (nat_of_ascii z));
    destruct (Nat.ltb_spec (nat_of_ascii z) (nat_of_ascii x)); try done; try lia.
  by apply (IH b c).
Qed.

Lemma contains_app_r (needle a b : str) :
  contains needle b = true -> contains needle (a ++ b) = true.
Proof.
  intros Hb. induction a as [|x a IH]; [done|].
  change ((x :: a) ++ b) with (x :: (a ++ b)). cbn [contains].
  rewrite IH. apply orb_true_r.
Qed.

(** *** The two loops over the local library *)

Section AggregatorFacts.

Context `{Env : Environment}.

Variable walk : str -> World -> list (str * list str * list str).

Lemma files_loop_filter (root : str) (files psd_files : list str) :
  files_loop root files psd_files
  = psd_files ++ map (ntpath.join root) (List.filter is_psd_name files).
Proof.
  revert psd_files. induction files as [|file files IH]; intros psd_files.
  - cbn. by rewrite app_nil_r.
  - cbn [files_loop List.filter]. fold (is_psd_name file).
    destruct (is_psd_name file); rewrite IH; [|done].
    by rewrite <- app_assoc.
Qed.

Lemma walk_loop_local (entries : list (str * list str * list str))
    (psd_files : list str) :
  walk_loop entries psd_files = psd_files ++ local_psds entries.
Proof.
  revert psd_files. induction entries as [|[[root dirs] files] entries IH];
    intros psd_files.
  - cbn. by rewrite app_nil_r.
  - cbn [walk_loop local_psds flat_map fst snd]. fold (local_psds entries).
    destruct (contains (lit "_cache") root); rewrite IH; [done|].
    by rewrite files_loop_filter, <- app_assoc.
Qed.

Opaque _get_cloud_mockups.

(** X18.  [get_all_mockups] returns in every world.  What it returns is sorted,
    and it holds, each as often as it is found, the [.psd] files of the
    directories of the local library whose path does not contain
    [_cache], joined to their directory, and the files that
    [_get_cloud_mockups] returns; without the library folder it holds the
    latter alone. *)
Theorem get_all_mockups_listing (lib : MockupLibrary) (m : Machine) :
  exists paths cloud ev w',
    get_all_mockups walk lib m
      = (Returned paths, {| world := w'; trace := trace m ++ ev |})
    /\ _get_cloud_mockups lib m
       = (Returned cloud, {| world := w'; trace := trace m ++ ev |})
    /\ paths ≡ₚ (if path_exists (existing (world m)) (library_root lib)
                 then local_psds (walk (library_root lib) (world m))
                 else []) ++ cloud
    /\ StronglySorted str_le paths.
Proof.
  destruct (get_cloud_mockups_run lib m) as (cloud & ev & w' & Hcloud & _).
  unfold get_all_mockups. unfold bind at 1, os_path_exists.
  unfold bind at 1, get. unfold bind at 1, try_except. unfold bind at 1.
  rewrite Hcloud. unfold ret.
  eexists _, cloud, ev, w'. split; [reflexivity|]. split; [done|]. split.
  - unfold sorted. rewrite merge_sort_Permutation.
    destruct (path_exists _ _); [|done].
    by rewrite walk_loop_local.
  - apply StronglySorted_merge_sort; apply _.
Qed.

Transparent _get_cloud_mockups.

Lemma local_psds_skipped (entries : list (str * list str * list str)) :
  Forall (fun entry : str * list str * list str =>
            contains (lit "_cache") entry.1.1 = true) entries ->
  local_psds entries = [].
Proof.
  induction 1 as [|entry entries Hentry _ IH]; [done|].
  cbn [local_psds flat_map]. fold (local_psds entries). by rewrite Hentry, IH.
Qed.

(** X19.  The test that keeps the cache out of the local listing looks for
    [_cache] anywhere in the path of a directory.  So when the path of the
    library itself contains [_cache], every directory that [os.walk]
    visits is skipped: no local mockup is listed, whatever the library
    holds, and the result is the sorted list of the cloud mockups. *)
Theorem get_all_mockups_cache_test (lib : MockupLibrary) (m : Machine) :
  contains (lit "_cache") (library_root lib) = true ->
  Forall (fun entry : str * list str * list str =>
            exists below, entry.1.1 = library_root lib ++ below)
         (walk (library_root lib) (world m)) ->
  exists cloud ev w',
    get_all_mockups walk lib m
      = (Returned (sorted cloud), {| world := w'; trace := trace m ++ ev |})
    /\ _get_cloud_mockups lib m
       = (Returned cloud, {| world := w'; trace := trace m ++ ev |}).
Proof.
  intros Hroot Hwalk.
  destruct (get_cloud_mockups_run lib m) as (cloud & ev & w' & Hcloud & _).
  exists cloud, ev, w'. split; [|done].
  unfold get_all_mockups. unfold bind at 1, os_path_exists.
  unfold bind at 1, get. unfold bind at 1, try_except. unfold bind at 1.
  rewrite Hcloud. unfold ret. do 3 f_equal.
  destruct (path_exists _ _); [|done].
  rewrite walk_loop_local, local_psds_skipped; [done|].
  eapply Forall_impl; [exact Hwalk|]. intros entry [below ->].
  by apply contains_app_l.
Qed.

End AggregatorFacts.

(** A library that is installed below a directory named [my_cache] and
    holds one template: the template is not listed. *)
Lemma get_all_mockups_cache_test_witness :
  exists w',
    get_all_mockups (Env := Toy.env) Example.one_mockup Example.library_below_cache
      (Toy.start Toy.studio)
    = (Returned [], {| world := w'; trace := [] |}).
Proof.
  assert (Hroot : contains (lit "_cache") (library_root Example.library_below_cache) = true).
  { vm_compute. reflexivity. }
  assert (Hwalk : Forall (fun entry : str * list str * list str =>
              exists below, entry.1.1 = library_root Example.library_below_cache ++ below)
           (Example.one_mockup (library_root Example.library_below_cache) Toy.studio)).
  { apply Forall_cons; split; [exists []; symmetry; apply app_nil_r |].
    apply Forall_cons; split; [exists (lit "\_cache"); reflexivity |]. apply Forall_nil_2. }

  destruct (get_all_mockups_cache_test (Env := Toy.env) Example.one_mockup Example.library_below_cache
              (Toy.start Toy.studio) Hroot Hwalk) as
    (cloud & ev & w' & Hall & Hcloud).

  assert (Hrun : _get_cloud_mockups (Env := Toy.env) Example.library_below_cache (Toy.start Toy.studio)
                 = (Returned [], {| world := Toy.studio; trace := [] |})).
  { vm_compute. reflexivity. }

  rewrite Hrun in Hcloud. injection Hcloud as <- <- Hev.
  exists Toy.studio. rewrite Hall, <- Hev. reflexivity.
Defined.

(** ** Paths in the script, labels of thumbnails *)

(** X23.  [_jsx] leaves no backslash in a path, keeps its length, and changes
    nothing in what it has returned; it works character by character. *)
Theorem jsx_forward_slashes (path other : str) :
  (backslash ∉ _jsx path)
  /\ length (_jsx path) = length path
  /\ _jsx (_jsx path) = _jsx path
  /\ _jsx (path ++ other) = _jsx path ++ _jsx other
  /\ Forall2 (fun c d => d = c \/ (c = backslash /\ d = "/"%char)) path (_jsx path).
Proof.
  unfold _jsx, replace_char. split; [|split; [|split; [|split]]].
  - induction path as [|c path IH]; [apply not_elem_of_nil|].
    cbn [map]. apply not_elem_of_cons. split; [|done].
    case_bool_decide; [discriminate | congruence].
  - apply length_map.
  - induction path as [|c path IH]; [done|]. cbn [map]. rewrite IH. f_equal.
    by repeat case_bool_decide.
  - apply map_app.
  - induction path as [|c path IH]; [constructor|]. cbn [map]. constructor; [|done].
    case_bool_decide; auto.
Qed.

Lemma skip_continuation_whole (s : str) : whole (skip_continuation s).
Proof.
  induction s as [|c s IH]; [done|]. cbn [skip_continuation].
  destruct (continuation c) eqn:E; [done | exact E].
Qed.

Lemma skip_continuation_id (x : str) : whole x -> skip_continuation x = x.
Proof. destruct x as [|y x]; [done|]. cbn. by intros ->. Qed.

(** The first character of [c :: t]: [c] and the bytes [u] that belong to
    it. *)
Lemma first_char (c : ascii) (t : str) :
  exists u, t = u ++ rest_of_char c t
    /\ forall x, is_ascii c = true \/ whole x -> rest_of_char c (u ++ x) = x.
Proof.
  unfold rest_of_char. destruct (is_ascii c) eqn:E.
  - exists []. split; [done|]. by intros x _.
  - induction t as [|y t IH].
    + exists []. split; [done|]. intros x [?|Hx]; [done|]. by apply skip_continuation_id.
    + cbn [skip_continuation]. destruct (continuation y) eqn:Ey.
      * destruct IH as (u & Ht & Hu). exists (y :: u). split; [by rewrite Ht at 1|].
        intros x Hx. cbn [app skip_continuation]. rewrite Ey. by apply Hu.
      * exists []. split; [done|]. intros x [?|Hx]; [done|]. by apply skip_continuation_id.
Qed.

Lemma rest_of_char_whole (c : ascii) (t : str) :
  is_ascii c = true \/ whole (rest_of_char c t).
Proof.
  unfold rest_of_char. destruct (is_ascii c); [by left | right].
  apply skip_continuation_whole.
Qed.

Lemma py_take_cons (n : nat) (c : ascii) (t u : str) :
  t = u ++ rest_of_char c t ->
  py_take (S n) (c :: t) = c :: u ++ py_take n (rest_of_char c t).
Proof.
  intros Ht. unfold py_take at 1. cbn [py_drop].
  pose proof (py_take_drop n (rest_of_char c t)) as Hr.
  set (r := rest_of_char c t) in *.
  assert (E : c :: t = (c :: u ++ py_take n r) ++ py_drop n r).
  { cbn [app]. by rewrite <- app_assoc, Hr, <- Ht. }
  rewrite E at 2. rewrite E at 1. rewrite length_app.
  replace (_ + _ - _)%nat with (length (c :: u ++ py_take n r)) by lia.
  apply take_app_length.
Qed.

Lemma py_take_whole (n : nat) (s : str) : whole s -> whole (py_take n s).
Proof.
  unfold py_take. destruct s as [|c s]; [by rewrite take_nil|].
  intros H. by destruct (_ - _)%nat.
Qed.

Lemma py_take_0 (s : str) : py_take 0 s = [].
Proof. unfold py_take. cbn [py_drop]. by rewrite Nat.sub_diag. Qed.

(** [len(s[:n])] is [min(n, len(s))]. *)
Lemma py_len_take (n : nat) (s : str) : py_len (py_take n s) = (n `min` py_len s)%nat.
Proof.
  revert s. induction n as [|n IH]; intros s; [by rewrite py_take_0|].
  destruct s as [|c t]; [done|].
  destruct (first_char c t) as (u & Ht & Hu).
  rewrite (py_take_cons n c t u Ht), !py_len_cons, Hu, IH; [done|].
  destruct (rest_of_char_whole c t) as [?|H]; [by left | right].
  by apply py_take_whole.
Qed.

(** [(s[:n] + b)[:n]] is [s[:n]]. *)
Lemma py_take_app (n : nat) (s b : str) :
  whole b -> (n <= py_len s)%nat -> py_take n (py_take n s ++ b) = py_take n s.
Proof.
  revert s. induction n as [|n IH]; intros s Hb Hn; [by rewrite !py_take_0|].
  destruct s as [|c t]; [cbn in Hn; lia|].
  destruct (first_char c t) as (u & Ht & Hu).
  rewrite (py_take_cons n c t u Ht). rewrite py_len_cons in Hn.
  set (r := rest_of_char c t) in *.
  assert (Hrest : rest_of_char c (u ++ py_take n r ++ b) = py_take n r ++ b).
  { apply Hu. destruct (rest_of_char_whole c t) as [?|H]; [by left | right].
    fold r in H. pose proof (py_take_whole n r H) as Hw.
    destruct (py_take n r); [exact Hb | exact Hw]. }
  change ((c :: u ++ py_take n r) ++ b) with (c :: (u ++ py_take n r) ++ b).
  rewrite <- app_assoc.
  rewrite (py_take_cons n c (u ++ py_take n r ++ b) u) by (by rewrite Hrest).
  rewrite Hrest, IH by (done || lia). done.
Qed.

(** X24.  The file name drawn on a thumbnail without preview never has more
    than 18 characters: a name of up to 18 characters is drawn as it is, a
    longer one as its first 15 characters and three dots.  Characters are
    counted, not the bytes of their spelling. *)
Theorem placeholder_filename_fits (psd_path : str) :
  let filename := ntpath.basename psd_path in
  (py_len (placeholder_filename psd_path) <= 18)%nat
  /\ py_take 15 (placeholder_filename psd_path) = py_take 15 filename
  /\ (placeholder_filename psd_path = filename
      \/ ((18 < py_len filename)%nat
          /\ placeholder_filename psd_path = py_take 15 filename ++ lit "..."
          /\ py_len (placeholder_filename psd_path) = 18%nat)).
Proof.
  intros filename. unfold placeholder_filename. fold filename.
  destruct (Nat.ltb_spec 18 (py_len filename)) as [Hlong|Hshort].
  - assert (Hlen : py_len (py_take 15 filename ++ lit "...") = 18%nat).
    { rewrite py_len_app by done. rewrite py_len_take.
      change (py_len (lit "...")) with 3%nat. lia. }
    split; [lia|]. split; [|right; done].
    apply py_take_app; [done | lia].
  - split; [done|]. split; [done | by left].
Qed.

(** A Cyrillic name of 18 characters, 31 bytes in UTF-8, is drawn as it is;
    a name of 19 characters is cut to 15 characters and three dots. *)
Lemma placeholder_filename_cyrillic :
  let name18 := lit "мокап_футболки.psd" in
  let name19 := lit "мокап_футболка2.psd" in
  py_len name18 = 18%nat /\ length name18 = 31%nat
  /\ placeholder_filename (lit "lib\" ++ name18) = name18
  /\ py_len name19 = 19%nat
  /\ placeholder_filename (lit "lib\" ++ name19) = lit "мокап_футболка2..."
  /\ py_len (lit "мокап_футболка2...") = 18%nat.
Proof. vm_compute. repeat split; reflexivity. Qed.

(** ** Selections in the library *)

Module gui_facts.
Import gui.

(** *** Thumbnails and the dictionary *)

Lemma lookup_alter_same {A} (f : A -> A) (i : nat) (l : list A) :
  alter f i l !! i = f <$> l !! i.
Proof. rewrite list_lookup_alter. by destruct (decide (i = i)). Qed.

Lemma lookup_alter_path (f : MockupThumbnail -> MockupThumbnail) (i j : nat)
    (ts : list MockupThumbnail) :
  (forall t, psd_path (f t) = psd_path t) ->
  psd_path <$> alter f i ts !! j = psd_path <$> ts !! j.
Proof.
  intros Hf. destruct (decide (i = j)) as [->|Hne].
  - rewrite lookup_alter_same. destruct (ts !! j); cbn; [f_equal; apply Hf | done].
  - by rewrite list_lookup_alter_ne.
Qed.

(** The thumbnails and the dictionary that [register] builds from
    mockups without repetition. *)
Lemma register_registered (mockups : list str) :
  forall (ts : list MockupThumbnail) (widgets : gmap str nat),
    NoDup mockups ->
    (forall p, p ∈ mockups -> widgets !! p = None) ->
    (forall i t, ts !! i = Some t -> widgets !! psd_path t = Some i) ->
    (forall p i, widgets !! p = Some i -> exists t, ts !! i = Some t /\ psd_path t = p) ->
    Forall (fun t => is_selected t = false) ts ->
    let '(ts', widgets') := register mockups ts widgets in
    (forall i t, ts' !! i = Some t -> widgets' !! psd_path t = Some i)
    /\ (forall p i, widgets' !! p = Some i ->
          exists t, ts' !! i = Some t /\ psd_path t = p)
    /\ Forall (fun t => is_selected t = false) ts'.
Proof.
  induction mockups as [|p mockups IH]; intros ts widgets Hnd Hnew H1 H2 Hoff;
    [done|].
  cbn [register]. apply NoDup_cons in Hnd as [Hp Hnd]. apply IH; [done| | | |].
  - intros q Hq. rewrite lookup_insert_ne; [|by intros ->].
    apply Hnew. by right.
  - intros i t Ht. apply lookup_app_Some in Ht as [Ht|[Hi Ht]].
    + rewrite lookup_insert_ne; [by apply H1|].
      intros E. specialize (H1 i t Ht). rewrite <- E, Hnew in H1; [done | by left].
    + apply list_lookup_singleton_Some in Ht as [Hi' <-]. cbn [psd_path].
      rewrite lookup_insert_eq. f_equal. lia.
  - intros q i. destruct (decide (p = q)) as [->|Hne].
    + rewrite lookup_insert_eq. intros [= <-].
      exists {| psd_path := q; is_selected := false |}. split; [|done].
      rewrite lookup_app_r by lia. by rewrite Nat.sub_diag.
    + rewrite lookup_insert_ne by done. intros Hq.
      destruct (H2 q i Hq) as (t & Ht & Hpath). exists t. split; [|done].
      by apply lookup_app_l_Some.
  - apply Forall_app. split; [done|]. by repeat constructor.
Qed.

(** *** The loops over the dictionary *)

Lemma select_loop_spec (items : list (str * nat)) :
  forall (ts : list MockupThumbnail) (sel : gset str),
    let '(ts', sel') := select_loop items ts sel in
    sel' = sel ∪ list_to_set items.*1
    /\ forall j, ts' !! j
                 = (fun t => if bool_decide (j ∈ items.*2)
                             then set_selected true t else t) <$> ts !! j.
Proof.
  induction items as [|[p i] items IH]; intros ts sel.
  - cbn. split; [by rewrite union_empty_r_L|]. intros j. by destruct (ts !! j).
  - cbn [select_loop fmap list_fmap fst snd].
    specialize (IH (alter (set_selected true) i ts) (sel ∪ {[p]})).
    destruct (select_loop items _ _) as [ts' sel']. destruct IH as [-> Hts].
    split; [by rewrite list_to_set_cons, (assoc_L (∪))|]. intros j. rewrite Hts.
    destruct (decide (i = j)) as [->|Hne].
    + rewrite lookup_alter_same. destruct (ts !! j) as [t|]; [|done]. cbn.
      rewrite (bool_decide_eq_true_2 (j ∈ j :: _)) by (by left).
      by case_bool_decide.
    + rewrite list_lookup_alter_ne by done. destruct (ts !! j) as [t|]; [|done]. cbn.
      f_equal. rewrite (bool_decide_ext (j ∈ i :: items.*2) (j ∈ items.*2)); [done|].
      rewrite elem_of_cons. split; [by intros [->|] | by right].
Qed.

Lemma deselect_loop_spec (items : list (str * nat)) :
  forall (ts : list MockupThumbnail) (j : nat),
    deselect_loop items ts !! j
    = (fun t => if bool_decide (j ∈ items.*2)
                then set_selected false t else t) <$> ts !! j.
Proof.
  induction items as [|[p i] items IH]; intros ts j.
  - cbn. by destruct (ts !! j).
  - cbn [deselect_loop fmap list_fmap fst snd]. rewrite IH.
    destruct (decide (i = j)) as [->|Hne].
    + rewrite lookup_alter_same. destruct (ts !! j) as [t|]; [|done]. cbn.
      rewrite (bool_decide_eq_true_2 (j ∈ j :: _)) by (by left).
      by case_bool_decide.
    + rewrite list_lookup_alter_ne by done. destruct (ts !! j) as [t|]; [|done]. cbn.
      f_equal. rewrite (bool_decide_ext (j ∈ i :: items.*2) (j ∈ items.*2)); [done|].
      rewrite elem_of_cons. split; [by intros [->|] | by right].
Qed.

(** *** What the slots keep *)

Lemma registered_kept (w w' : MainWindow) :
  thumbnail_widgets w' = thumbnail_widgets w ->
  (forall j, psd_path <$> thumbnails w' !! j = psd_path <$> thumbnails w !! j) ->
  registered w -> registered w'.
Proof.
  intros Hw Hpaths [H1 H2]. split.
  - intros j t' Ht'. rewrite Hw. specialize (Hpaths j). rewrite Ht' in Hpaths.
    destruct (thumbnails w !! j) as [t|] eqn:Ht; [|done].
    injection Hpaths as ->. by apply H1.
  - intros p j Hp. rewrite Hw in Hp. destruct (H2 p j Hp) as (t & Ht & Hpath).
    specialize (Hpaths j). rewrite Ht in Hpaths.
    destruct (thumbnails w' !! j) as [t'|]; [|done].
    injection Hpaths as Hpaths. exists t'. split; [done | congruence].
Qed.

Lemma range_of_items (widgets : gmap str nat) (j : nat) :
  j ∈ (map_to_list widgets).*2 <-> exists p, widgets !! p = Some j.
Proof.
  rewrite list_elem_of_fmap. split.
  - intros ([p i] & -> & Hin). exists p. by apply elem_of_map_to_list in Hin.
  - intros (p & Hp). exists (p, j). split; [done|]. by apply elem_of_map_to_list.
Qed.

Lemma keys_of_items (widgets : gmap str nat) (p : str) :
  p ∈ (list_to_set (map_to_list widgets).*1 : gset str) <-> is_Some (widgets !! p).
Proof.
  rewrite elem_of_list_to_set, list_elem_of_fmap. split.
  - intros ([q i] & -> & Hin). exists i. by apply elem_of_map_to_list in Hin.
  - intros (i & Hp). exists (p, i). split; [done|]. by apply elem_of_map_to_list.
Qed.

Local Abbreviation steady w := (registered w /\ in_sync w /\ selection_known w).

Lemma mousePressEvent_steady (i : nat) (w : MainWindow) :
  steady w -> steady (mousePressEvent i w).
Proof.
  intros (Hreg & Hsync & Hknown). unfold mousePressEvent.
  destruct (thumbnails w !! i) as [t|] eqn:Ht; [|done].
  split; [|split].
  - apply (registered_kept w); [done | | done].
    intros j. cbn. by apply lookup_alter_path.
  - intros j t' Ht'. cbn in Ht' |- *.
    destruct (decide (i = j)) as [<-|Hne].
    + rewrite lookup_alter_same, Ht in Ht'. injection Ht' as <-. cbn.
      specialize (Hsync i t Ht).
      case_bool_decide as Hin.
      * rewrite elem_of_difference, elem_of_singleton.
        destruct (is_selected t); cbn; [|by apply Hsync in Hin].
        split; [done | by intros [_ ?]].
      * rewrite elem_of_union, elem_of_singleton.
        destruct (is_selected t); cbn; [by destruct Hin; apply Hsync|].
        split; [by right | done].
    + rewrite list_lookup_alter_ne in Ht' by done.
      assert (Hpath : psd_path t' <> psd_path t).
      { intros E. destruct Hreg as [H1 _].
        pose proof (H1 i t Ht) as Hi. pose proof (H1 j t' Ht') as Hj.
        rewrite E in Hj. congruence. }
      rewrite (Hsync j t' Ht'). case_bool_decide.
      * rewrite elem_of_difference, elem_of_singleton. by intuition.
      * rewrite elem_of_union, elem_of_singleton. by intuition.
  - intros p. cbn. destruct Hreg as [H1 _]. pose proof (H1 i t Ht) as Hi.
    case_bool_decide.
    + rewrite elem_of_difference. intros [Hp _]. by apply Hknown.
    + rewrite elem_of_union, elem_of_singleton. intros [Hp| ->]; [by apply Hknown|].
      by exists i.
Qed.

Lemma select_all_library_steady (w : MainWindow) :
  steady w -> steady (select_all_library w).
Proof.
  intros (Hreg & Hsync & Hknown). unfold select_all_library.
  pose proof (select_loop_spec (map_to_list (thumbnail_widgets w)) (thumbnails w)
                (selected_library_psds w)) as Hloop.
  destruct (select_loop _ _ _) as [ts sel]. destruct Hloop as [-> Hts].
  assert (Hpaths : forall j, psd_path <$> ts !! j = psd_path <$> thumbnails w !! j).
  { intros j. rewrite Hts. destruct (thumbnails w !! j) as [t|]; [|done]. cbn.
    by case_bool_decide. }
  split; [|split].
  - by apply (registered_kept w).
  - intros j t' Ht'. cbn in Ht' |- *. rewrite Hts in Ht'.
    destruct (thumbnails w !! j) as [t|] eqn:Ht; [|done]. cbn in Ht'.
    destruct Hreg as [H1 _]. pose proof (H1 j t Ht) as Hj.
    rewrite bool_decide_eq_true_2 in Ht' by (apply range_of_items; eauto).
    injection Ht' as <-. cbn. split; [|done]. intros _.
    apply elem_of_union. right. apply keys_of_items. by exists j.
  - intros p. cbn. rewrite elem_of_union. intros [Hp|Hp]; [by apply Hknown|].
    by apply keys_of_items.
Qed.

Lemma deselect_all_library_steady (w : MainWindow) :
  steady w -> steady (deselect_all_library w).
Proof.
  intros (Hreg & Hsync & Hknown). unfold deselect_all_library.
  assert (Hpaths : forall j,
             psd_path <$> deselect_loop (map_to_list (thumbnail_widgets w))
                            (thumbnails w) !! j
             = psd_path <$> thumbnails w !! j).
  { intros j. rewrite deselect_loop_spec.
    destruct (thumbnails w !! j) as [t|]; [|done]. cbn. by case_bool_decide. }
  split; [|split].
  - by apply (registered_kept w).
  - intros j t' Ht'. cbn in Ht' |- *. rewrite deselect_loop_spec in Ht'.
    destruct (thumbnails w !! j) as [t|] eqn:Ht; [|done]. cbn in Ht'.
    destruct Hreg as [H1 _]. pose proof (H1 j t Ht) as Hj.
    rewrite bool_decide_eq_true_2 in Ht' by (apply range_of_items; eauto).
    injection Ht' as <-. cbn. split; [done|]. intros Hin.
    by apply elem_of_empty in Hin.
  - intros p. cbn. intros Hin. by apply elem_of_empty in Hin.
Qed.

Lemma loaded_steady (mockups : list str) (w0 : MainWindow) :
  NoDup mockups -> steady (loaded mockups w0).
Proof.
  intros Hnd. unfold loaded.
  pose proof (register_registered mockups [] ∅ Hnd) as Hreg.
  destruct (register mockups [] ∅) as [ts widgets].
  destruct Hreg as (H1 & H2 & Hoff); try done.
  split; [by split|]. split.
  - intros i t Ht. cbn in Ht |- *.
    rewrite Forall_lookup in Hoff. rewrite (Hoff i t Ht). split; [done|].
    intros Hin. by apply elem_of_empty in Hin.
  - intros p. cbn. intros Hin. by apply elem_of_empty in Hin.
Qed.

Lemma steady_marked (w : MainWindow) :
  steady w -> selected_library_psds w = marked w.
Proof.
  intros ([H1 H2] & Hsync & Hknown). apply set_eq. intros p. unfold marked.
  rewrite elem_of_list_to_set, list_elem_of_fmap. split.
  - intros Hp. destruct (Hknown p Hp) as (i & Hi).
    destruct (H2 p i Hi) as (t & Ht & <-).
    exists t. split; [done|]. apply list_elem_of_filter. split.
    + by apply (Hsync i t Ht).
    + by apply list_elem_of_lookup_2 in Ht.
  - intros (t & -> & Hin). apply list_elem_of_filter in Hin as [Hsel Hin].
    apply list_elem_of_lookup_1 in Hin as (i & Ht). by apply (Hsync i t Ht).
Qed.

(** X20.  When no mockup is listed twice, then after any clicks on thumbnails
    and on the two buttons, in any order, the library templates that
    [run_job] takes are those whose thumbnail carries the mark. *)
Theorem selection_is_what_is_marked (mockups : list str) (w0 : MainWindow)
    (actions : list Action) :
  NoDup mockups ->
  let w := foldl perform (loaded mockups w0) actions in
  selected_library_psds w = marked w.
Proof.
  intros Hnd w. apply steady_marked. subst w.
  pose proof (loaded_steady mockups w0 Hnd) as Hstart.
  revert Hstart. generalize (loaded mockups w0).
  induction actions as [|a actions IH]; intros w Hw; [done|].
  cbn [foldl]. apply IH. destruct a; cbn [perform].
  - by apply mousePressEvent_steady.
  - by apply select_all_library_steady.
  - by apply deselect_all_library_steady.
Qed.

(** *** A mockup that is listed twice *)

Lemma register_spec (mockups : list str) :
  forall (ts : list MockupThumbnail) (widgets : gmap str nat),
    let '(ts', widgets') := register mockups ts widgets in
    ts' = ts ++ map (fun p => {| psd_path := p; is_selected := false |}) mockups
    /\ forall q k, widgets' !! q = Some k ->
         (widgets !! q = Some k /\ q ∉ mockups)
         \/ (exists n, k = (length ts + n)%nat /\ mockups !! n = Some q
                       /\ forall n', (n < n')%nat -> mockups !! n' <> Some q).
Proof.
  induction mockups as [|p mockups IH]; intros ts widgets.
  - cbn. rewrite app_nil_r. split; [done|]. intros q k Hq. left.
    split; [done | apply not_elem_of_nil].
  - cbn [register map].
    specialize (IH (ts ++ [{| psd_path := p; is_selected := false |}])
                  (<[p := length ts]> widgets)).
    destruct (register mockups _ _) as [ts' widgets']. destruct IH as [-> Hw].
    split; [by rewrite <- app_assoc|]. intros q k Hq.
    destruct (Hw q k Hq) as [[Hins Hnot]|(n & -> & Hn & Hlast)].
    + destruct (decide (p = q)) as [->|Hne].
      * rewrite lookup_insert_eq in Hins. injection Hins as <-. right.
        exists 0%nat. split; [lia|]. split; [done|].
        intros [|n'] Hn'; [lia|]. cbn. intros Hin.
        by apply list_elem_of_lookup_2 in Hin.
      * rewrite lookup_insert_ne in Hins by done. left. split; [done|].
        apply not_elem_of_cons. by split.
    + right. exists (S n). rewrite length_app. cbn [length]. split; [lia|].
      split; [done|]. intros [|n'] Hn'; [lia|]. cbn. apply Hlast. lia.
Qed.

(** X21.  A mockup that is listed twice gets two thumbnails, and the dictionary
    holds the later one.  A click on the earlier one marks it and selects
    its path; [deselect_all_library] then empties the selection and takes
    the mark off the thumbnails of the dictionary only: the earlier
    thumbnail keeps its mark although nothing is selected. *)
Theorem duplicate_thumbnail_keeps_mark (mockups : list str) (w0 : MainWindow)
    (i j : nat) (p : str) :
  (i < j)%nat -> mockups !! i = Some p -> mockups !! j = Some p ->
  let w := deselect_all_library (mousePressEvent i (loaded mockups w0)) in
  thumbnails w !! i = Some {| psd_path := p; is_selected := true |}
  /\ selected_library_psds w = ∅
  /\ p ∈ marked w.
Proof.
  intros Hij Hi Hj w.
  assert (Hw : thumbnails w !! i = Some {| psd_path := p; is_selected := true |}).
  { subst w. unfold loaded.
    pose proof (register_spec mockups [] ∅) as Hspec.
    destruct (register mockups [] ∅) as [ts widgets]. destruct Hspec as [Hts Hwidgets].
    cbn [app] in Hts.
    assert (Ht : ts !! i = Some {| psd_path := p; is_selected := false |}).
    { rewrite Hts, list_lookup_fmap, Hi. done. }
    unfold mousePressEvent. cbn [thumbnails]. rewrite Ht.
    unfold deselect_all_library. cbn. rewrite deselect_loop_spec.
    rewrite lookup_alter_same, Ht. cbn.
    rewrite bool_decide_eq_false_2; [done|].
    intros Hin. apply range_of_items in Hin as (q & Hq).
    destruct (Hwidgets q i Hq) as [[Hempty _]|(n & Hn & Hq' & Hlast)]; [done|].
    cbn in Hn. subst n. rewrite Hi in Hq'. injection Hq' as <-.
    by apply (Hlast j). }
  split; [done|]. split; [done|].
  unfold marked. apply elem_of_list_to_set, list_elem_of_fmap.
  eexists. split; [|apply list_elem_of_filter; split;
                    [|by apply list_elem_of_lookup_2 in Hw]]; done.
Qed.

(** *** The start of a batch *)

(** X22.  [run_job] starts a worker exactly when there is an artwork, at
    least one template, selected in the library or added by hand, and an
    output folder.  The job then holds the library selections, in the
    order in which the set hands them out, followed by the manual
    templates, together with the artwork and the folder, and the button is
    disabled; otherwise no worker is started and the button, the status
    line and the progress bar are left as they are.  Whatever that order,
    the templates of the job are the selected ones and the manual ones,
    and their number is the sum of the two. *)
Theorem run_job_starts (listed : list str) (w : MainWindow) :
  listed ≡ₚ elements (selected_library_psds w) ->
  let all_psds := listed ++ psd_list w in
  let complete :=
    nonempty (art_path w) && negb (length all_psds =? 0)%nat
    && nonempty (out_dir w) in
  (if complete
   then worker (run_job listed w)
        = Some (Build_Job all_psds (art_path w) (out_dir w))
        /\ run_btn_enabled (run_job listed w) = false
        /\ log (run_job listed w) = log w
   else worker (run_job listed w) = worker w
        /\ run_btn_enabled (run_job listed w) = run_btn_enabled w
        /\ status (run_job listed w) = status w)
  /\ progress (run_job listed w) = progress w
  /\ selected_library_psds (run_job listed w) = selected_library_psds w
  /\ psd_list (run_job listed w) = psd_list w
  /\ (complete = true
      <-> art_path w <> []
          /\ (selected_library_psds w <> ∅ \/ psd_list w <> [])
          /\ out_dir w <> [])
  /\ (forall p, p ∈ all_psds <-> p ∈ selected_library_psds w \/ p ∈ psd_list w)
  /\ length all_psds = (size (selected_library_psds w) + length (psd_list w))%nat.
Proof.
  intros Hlisted all_psds complete.
  assert (Hlen : length listed = size (selected_library_psds w)).
  { by rewrite Hlisted. }
  assert (Hempty : listed = [] <-> selected_library_psds w = ∅).
  { rewrite <- leibniz_equiv_iff, <- size_empty_iff, <- Hlen. by destruct listed. }
  split; [|split; [|split; [|split; [|split; [|split]]]]].
  - subst complete all_psds. unfold run_job.
    destruct w as [ts widgets sel manual art art_style out out_style lines
                   text style value enabled started].
    cbn [selected_library_psds psd_list art_path out_dir].
    destruct (length (listed ++ manual) =? 0)%nat;
      destruct art as [|c art]; destruct out as [|d out]; cbn; done.
  - unfold run_job.
    destruct w as [ts widgets sel manual art art_style out out_style lines
                   text style value enabled started].
    cbn [selected_library_psds psd_list art_path out_dir].
    destruct (length (listed ++ manual) =? 0)%nat;
      destruct art as [|c art]; destruct out as [|d out]; cbn; done.
  - unfold run_job.
    destruct w as [ts widgets sel manual art art_style out out_style lines
                   text style value enabled started].
    cbn [selected_library_psds psd_list art_path out_dir].
    destruct (length (listed ++ manual) =? 0)%nat;
      destruct art as [|c art]; destruct out as [|d out]; cbn; done.
  - unfold run_job.
    destruct w as [ts widgets sel manual art art_style out out_style lines
                   text style value enabled started].
    cbn [selected_library_psds psd_list art_path out_dir].
    destruct (length (listed ++ manual) =? 0)%nat;
      destruct art as [|c art]; destruct out as [|d out]; cbn; done.
  - subst complete all_psds.
    rewrite !andb_true_iff, negb_true_iff, Nat.eqb_neq, length_app.
    assert (Hart : nonempty (art_path w) = true <-> art_path w <> [])
      by (by destruct (art_path w)).
    assert (Hout : nonempty (out_dir w) = true <-> out_dir w <> [])
      by (by destruct (out_dir w)).
    rewrite Hart, Hout, <- Hempty.
    assert (Hany : (length listed + length (psd_list w))%nat <> 0%nat
                   <-> listed <> [] \/ psd_list w <> []).
    { destruct listed, (psd_list w); cbn; split; intros H; try lia; auto;
        try (destruct H; done). }
    rewrite Hany. tauto.
  - intros p. subst all_psds. rewrite elem_of_app, Hlisted, elem_of_elements. done.
  - subst all_psds. by rewrite length_app, Hlen.
Qed.

End gui_facts.

(** Three mockups, and five actions on them. *)
Lemma selection_is_what_is_marked_witness :
  let w := foldl gui.perform (gui.loaded Example.three_mockups Example.blank)
             [gui.Click 1; gui.SelectAll; gui.Click 0; gui.DeselectAll; gui.Click 2] in
  gui.selected_library_psds w = gui.marked w.
Proof.
  apply (gui_facts.selection_is_what_is_marked Example.three_mockups Example.blank
           [gui.Click 1; gui.SelectAll; gui.Click 0; gui.DeselectAll; gui.Click 2]).
  apply (bool_decide_unpack _). vm_compute. reflexivity.
Defined.

(** The catalogue in which one cached file is listed twice: a click on the
    first of the two thumbnails, then [deselect_all_library]. *)
Lemma duplicate_thumbnail_keeps_mark_witness :
  let w := gui.deselect_all_library
             (gui.mousePressEvent 0 (gui.loaded Example.listed_twice Example.blank)) in
  gui.thumbnails w !! 0%nat
    = Some {| gui.psd_path := lit "lib\_cache\41.psd"; gui.is_selected := true |}
  /\ gui.selected_library_psds w = ∅
  /\ lit "lib\_cache\41.psd" ∈ gui.marked w.
Proof.
  apply (gui_facts.duplicate_thumbnail_keeps_mark Example.listed_twice Example.blank
           0 1 (lit "lib\_cache\41.psd")); [lia | reflexivity | reflexivity].
Defined.

(** Two mockups selected in the library and one added by hand, with the
    artwork and the folder in place: the worker gets the three templates,
    the selected ones in the order in which they are handed out. *)
Lemma run_job_starts_witness :
  let w := {| gui.thumbnails := []; gui.thumbnail_widgets := ∅;
              gui.selected_library_psds := {[ lit "lib\front.psd"; lit "lib\side.psd" ]};
              gui.psd_list := [lit "own\poster.psd"];
              gui.art_path := lit "art\logo.png"; gui.art_path_style := [];
              gui.out_dir := lit "out"; gui.out_dir_style := [];
              gui.log := []; gui.status := lit "Ready"; gui.status_style := [];
              gui.progress := 0; gui.run_btn_enabled := true; gui.worker := None |} in
  let listed := [lit "lib\side.psd"; lit "lib\front.psd"] in
  gui.worker (gui.run_job listed w)
    = Some (Build_Job [lit "lib\side.psd"; lit "lib\front.psd"; lit "own\poster.psd"]
              (lit "art\logo.png") (lit "out"))
  /\ gui.run_btn_enabled (gui.run_job listed w) = false.
Proof.
  intros w listed.
  assert (Hlisted : listed ≡ₚ elements (gui.selected_library_psds w)).
  { apply NoDup_Permutation.
    - apply NoDup_cons. split; [|apply NoDup_singleton].
      rewrite list_elem_of_singleton. discriminate.
    - apply NoDup_elements.
    - intros p. rewrite elem_of_elements. subst listed w. cbn [gui.selected_library_psds].
      rewrite !elem_of_cons, elem_of_nil, elem_of_union, !elem_of_singleton. tauto. }
  destruct (gui_facts.run_job_starts listed w Hlisted) as (Hstart & _).
  cbv zeta in Hstart.
  change (nonempty (gui.art_path w)
          && negb (length (listed ++ gui.psd_list w) =? 0)%nat
          && nonempty (gui.out_dir w)) with true in Hstart.
  destruct Hstart as (Hworker & Hbtn & _). split; [exact Hworker | exact Hbtn].
Defined.
